(** * optimize_data.py: projection of transit stops to a compact JSON file

    The script reads [stops.txt] (a JSON array of stop records), keeps five
    renamed fields of every record, writes the result to [stops_lite.json]
    with [json.dump(..., separators=(',', ':'))] and prints two size lines;
    any [Exception] is caught and printed as [Error: ...].

    The embedding follows the script statement by statement.  The parts of
    the Python runtime the script calls ([open], [json.load], [json.dump],
    [os.path.getsize], [print]) are modelled after CPython's behaviour:
    Python [str] is a list of code points, a [dict] is an association list
    in insertion order, the file system is a finite map from paths to
    nodes.  Binary floating point is kept abstract (see [Section Script]). *)

From Stdlib Require Import ZArith NArith List String Ascii Bool Lia.
From stdpp Require Import base option list strings gmap.

Import ListNotations.
Local Open Scope N_scope.

(** ** Python strings *)

(** A Python [str]: a sequence of Unicode code points. *)
Definition str := list N.

(** The [str] denoted by an ASCII literal of the source. *)
Definition lit (s : string) : str :=
  List.map N_of_ascii (list_ascii_of_string s).

(** [a == b] on strings. *)
Fixpoint str_eqb (a b : str) : bool :=
  match a, b with
  | [], [] => true
  | x :: a', y :: b' => (x =? y) && str_eqb a' b'
  | _, _ => false
  end.

(** ** Python values produced by [json.load] *)

(** A Python [float]: the three special values are told apart by the
    encoder and the decoder, the finite ones are kept abstract. *)
Inductive pyfloat (finite : Type) : Type :=
| FNaN
| FInf
| FNegInf
| FFinite (x : finite).
Arguments FNaN {finite}.
Arguments FInf {finite}.
Arguments FNegInf {finite}.
Arguments FFinite {finite} x.

#[warnings="-register-all"]
Inductive json (finite : Type) : Type :=
| JNull
| JBool (b : bool)
| JInt (z : Z)
| JFloat (f : pyfloat finite)
| JStr (s : str)
| JList (l : list (json finite))
| JDict (d : list (str * json finite)).
Arguments JNull {finite}.
Arguments JBool {finite} b.
Arguments JInt {finite} z.
Arguments JFloat {finite} f.
Arguments JStr {finite} s.
Arguments JList {finite} l.
Arguments JDict {finite} d.

(** ** Exceptions *)

Inductive pytype := TNone | TBool | TInt | TFloat | TStr | TList | TDict.

Inductive type_error :=
| NotIterable (t : pytype)
| NotSubscriptable (t : pytype)
| StrIndices
| ListIndices.

(** The subclasses of [Exception] the script can meet.  [OSError] carries
    [errno], [strerror] and [filename]; the codec and decoder errors carry
    the bytes or the text they are about. *)
Inductive exn :=
| OSError (errno : N) (strerror : string) (filename : option string)
| UnicodeDecodeError (object : list N)
| UnicodeEncodeError (object : list N)
| JSONDecodeError (doc : list N)
| RecursionError
| TypeError (t : type_error)
| AttributeError
| KeyError (key : string).

Inductive result (A : Type) : Type :=
| Ok (a : A)
| Raise (e : exn).
Arguments Ok {A} a.
Arguments Raise {A} e.

Definition bind {A B} (r : result A) (k : A -> result B) : result B :=
  match r with
  | Ok a => k a
  | Raise e => Raise e
  end.

Notation "'let*' x := r 'in' k" := (bind r (fun x => k))
  (at level 10, x name, r at level 100, k at level 200).

(** ** Dictionaries *)

Section Dict.
Context {V : Type}.

(** [d[k]] / [k in d]: the value bound to [k], if any. *)
Fixpoint dict_get (k : str) (d : list (str * V)) : option V :=
  match d with
  | [] => None
  | (k', v) :: d' => if str_eqb k' k then Some v else dict_get k d'
  end.

(** [d[k] = v]: an existing key keeps its place, a new key goes last. *)
Fixpoint dict_set (k : str) (v : V) (d : list (str * V)) : list (str * V) :=
  match d with
  | [] => [(k, v)]
  | (k', v') :: d' =>
      if str_eqb k' k then (k', v) :: d' else (k', v') :: dict_set k v d'
  end.

(** [dict(pairs)] *)
Definition dict_of_pairs (pairs : list (str * V)) : list (str * V) :=
  fold_left (fun d kv => dict_set (fst kv) (snd kv) d) pairs [].
End Dict.

(** ** The loop body: lines 10-17 *)

Section Projector.
Context {finite : Type}.
#[local] Abbreviation json := (json finite).

Definition type_of (v : json) : pytype :=
  match v with
  | JNull => TNone
  | JBool _ => TBool
  | JInt _ => TInt
  | JFloat _ => TFloat
  | JStr _ => TStr
  | JList _ => TList
  | JDict _ => TDict
  end.

(** [stop[key]] with a [str] key. *)
Definition getitem (stop : json) (key : string) : result json :=
  match stop with
  | JDict d =>
      match dict_get (lit key) d with
      | Some v => Ok v
      | None => Raise (KeyError key)
      end
  | JStr _ => Raise (TypeError StrIndices)
  | JList _ => Raise (TypeError ListIndices)
  | _ => Raise (TypeError (NotSubscriptable (type_of stop)))
  end.

(** [stop.get(key, default)] *)
Definition get (stop : json) (key : string) (default : json) : result json :=
  match stop with
  | JDict d =>
      match dict_get (lit key) d with
      | Some v => Ok v
      | None => Ok default
      end
  | _ => Raise AttributeError
  end.

(** The dict display of lines 11-17; its items are evaluated in order. *)
Definition lite_record (stop : json) : result json :=
  let* i := getitem stop "stop_id" in
  let* n := getitem stop "name" in
  let* l := getitem stop "lat" in
  let* o := getitem stop "lon" in
  let* c := get stop "locality" (JStr (lit "")) in
  Ok (JDict [(lit "i", i); (lit "n", n); (lit "l", l); (lit "o", o);
             (lit "c", c)]).

(** [for stop in data]: the items the loop visits. *)
Definition iter (data : json) : result (list json) :=
  match data with
  | JList l => Ok l
  | JDict d => Ok (List.map (fun kv => JStr (fst kv)) d)
  | JStr s => Ok (List.map (fun c => JStr [c]) s)
  | _ => Raise (TypeError (NotIterable (type_of data)))
  end.

(** The loop of lines 10-17, started with [lite_data] as it stands. *)
Fixpoint project_loop (stops : list json) (lite_data : list json)
  : result (list json) :=
  match stops with
  | [] => Ok lite_data
  | stop :: rest =>
      let* r := lite_record stop in
      project_loop rest (lite_data ++ [r])
  end.

(** Lines 9-17. *)
Definition minimize (data : json) : result (list json) :=
  let* stops := iter data in
  project_loop stops [].

(** A stop record of the input: an object holding the four required
    fields. *)
Definition has_field (key : string) (stop : json) : Prop :=
  match stop with
  | JDict d => is_Some (dict_get (lit key) d)
  | _ => False
  end.

Definition stop_record (stop : json) : Prop :=
  has_field "stop_id" stop /\ has_field "name" stop /\
  has_field "lat" stop /\ has_field "lon" stop.

(** The keys read with a subscript, in the order of lines 12-15. *)
Definition required : list string := ["stop_id"; "name"; "lat"; "lon"]%string.


(** The value of a field of a record ([None] when absent or when the
    value is not an object). *)
Definition field (key : string) (v : json) : option json :=
  match v with
  | JDict d => dict_get (lit key) d
  | _ => None
  end.
End Projector.

(** ** Characters and numerals *)

Definition ch (a : ascii) : N := N_of_ascii a.
Definition quote : N := 34.
Definition backslash : N := 92.

Definition is_digit (c : N) : bool := (48 <=? c) && (c <=? 57).

(** JSON white space, [WHITESPACE_STR = ' \t\n\r']. *)
Definition is_ws (c : N) : bool :=
  (c =? 32) || (c =? 9) || (c =? 10) || (c =? 13).

Arguments ch : simpl never.
Arguments is_digit : simpl never.
Arguments is_ws : simpl never.

(** Decimal digits of [n], most significant first, pushed in front of
    [acc]; [fuel] bounds the number of digits. *)
Fixpoint dec_digits (fuel : nat) (n : N) (acc : str) : str :=
  match fuel with
  | O => acc
  | S fuel' =>
      let acc' := (48 + n mod 10) :: acc in
      if n <? 10 then acc' else dec_digits fuel' (n / 10) acc'
  end.

(** [str(n)] for a natural number: a number has no more decimal digits
    than binary ones (and at least one). *)
Definition dec (n : N) : str := dec_digits (S (N.to_nat (N.size n))) n [].

(** [int.__repr__] *)
Definition int_repr (z : Z) : str :=
  match z with
  | Zneg p => ch "-" :: dec (Npos p)
  | _ => dec (Z.to_N z)
  end.

Definition hex_digit (d : N) : N := if d <? 10 then 48 + d else 87 + d.

(** ['{0:04x}'.format(n)] for [n < 0x10000]. *)
Definition hex4 (n : N) : str :=
  [hex_digit (N.shiftr n 12 mod 16); hex_digit (N.shiftr n 8 mod 16);
   hex_digit (N.shiftr n 4 mod 16); hex_digit (n mod 16)].

(** ** json.encoder *)

(** [replace] of [py_encode_basestring_ascii]: what [ESCAPE_ASCII.sub]
    puts for one character; the pattern matches a backslash, a double
    quote and whatever is not between the space and the tilde. *)
Definition escape_char (c : N) : str :=
  if c =? backslash then [backslash; backslash]
  else if c =? quote then [backslash; quote]
  else if c =? 8 then [backslash; ch "b"]
  else if c =? 12 then [backslash; ch "f"]
  else if c =? 10 then [backslash; ch "n"]
  else if c =? 13 then [backslash; ch "r"]
  else if c =? 9 then [backslash; ch "t"]
  else if (32 <=? c) && (c <=? 126) then [c]
  else if c <? 65536 then backslash :: ch "u" :: hex4 c
  else
    let n := c - 65536 in
    let s1 := N.lor 55296 (N.land (N.shiftr n 10) 1023) in
    let s2 := N.lor 56320 (N.land n 1023) in
    (backslash :: ch "u" :: hex4 s1) ++ (backslash :: ch "u" :: hex4 s2).

(** [encode_basestring_ascii]: [ensure_ascii] is left at its default. *)
Definition encode_basestring_ascii (s : str) : str :=
  quote :: flat_map escape_char s ++ [quote].

(** The pieces [_iterencode] yields, with the part each plays. *)
Inductive role := Bracket | ItemSep | KeySep | Key | Atom.

Definition chunk : Type := role * str.

(** [sep.join(items)] on lists of chunks. *)
Fixpoint join_chunks (sep : chunk) (items : list (list chunk)) : list chunk :=
  match items with
  | [] => []
  | [x] => x
  | x :: rest => x ++ sep :: join_chunks sep rest
  end.

Section Encoder.
Context {finite : Type}.
(** [float.__repr__] of a finite float. *)
Variable finite_repr : finite -> str.
(** The [separators] argument. *)
Variable item_separator key_separator : str.
#[local] Abbreviation json := (json finite).

(** [floatstr]: [allow_nan] is left at its default. *)
Definition floatstr (f : pyfloat finite) : str :=
  match f with
  | FNaN => lit "NaN"
  | FInf => lit "Infinity"
  | FNegInf => lit "-Infinity"
  | FFinite x => finite_repr x
  end.

(** [_iterencode], [_iterencode_list], [_iterencode_dict] with
    [indent=None], [sort_keys=False]: the keys of the dicts at hand are
    strings. *)
Fixpoint iterencode (o : json) : list chunk :=
  match o with
  | JNull => [(Atom, lit "null")]
  | JBool true => [(Atom, lit "true")]
  | JBool false => [(Atom, lit "false")]
  | JInt z => [(Atom, int_repr z)]
  | JFloat f => [(Atom, floatstr f)]
  | JStr s => [(Atom, encode_basestring_ascii s)]
  | JList [] => [(Bracket, lit "[]")]
  | JList lst =>
      (Bracket, lit "[")
        :: join_chunks (ItemSep, item_separator) (List.map iterencode lst)
        ++ [(Bracket, lit "]")]
  | JDict [] => [(Bracket, lit "{}")]
  | JDict dct =>
      (Bracket, lit "{")
        :: join_chunks (ItemSep, item_separator)
             (List.map (fun kv : str * json =>
                          let (key, value) := kv in
                          (Key, encode_basestring_ascii key)
                            :: (KeySep, key_separator) :: iterencode value)
                       dct)
        ++ [(Bracket, lit "}")]
  end.

(** What [json.dump] writes, chunk after chunk. *)
Definition dump_chunks (obj : json) : list str :=
  List.map snd (iterencode obj).

Definition dumps (obj : json) : str := List.concat (dump_chunks obj).
End Encoder.

(** ** Text files: the utf-8 codec and newline translation *)

Definition is_cont (b : N) : bool := (128 <=? b) && (b <=? 191).

Definition in_range (lo hi b : N) : bool := (lo <=? b) && (b <=? hi).

Arguments is_cont : simpl never.
Arguments in_range : simpl never.

(** [bytes.decode('utf-8')] with [errors='strict']; [None] stands for
    [UnicodeDecodeError]. *)
Fixpoint utf8_decode (bs : list N) : option str :=
  match bs with
  | [] => Some []
  | b0 :: bs1 =>
      if b0 <? 128 then cons b0 <$> utf8_decode bs1
      else if in_range 194 223 b0 then
        match bs1 with
        | b1 :: bs2 =>
            if is_cont b1
            then cons ((b0 - 192) * 64 + (b1 - 128)) <$> utf8_decode bs2
            else None
        | _ => None
        end
      else if in_range 224 239 b0 then
        match bs1 with
        | b1 :: b2 :: bs3 =>
            if in_range (if b0 =? 224 then 160 else 128)
                        (if b0 =? 237 then 159 else 191) b1
               && is_cont b2
            then cons ((b0 - 224) * 4096 + (b1 - 128) * 64 + (b2 - 128))
                   <$> utf8_decode bs3
            else None
        | _ => None
        end
      else if in_range 240 244 b0 then
        match bs1 with
        | b1 :: b2 :: b3 :: bs4 =>
            if in_range (if b0 =? 240 then 144 else 128)
                        (if b0 =? 244 then 143 else 191) b1
               && is_cont b2 && is_cont b3
            then cons ((b0 - 240) * 262144 + (b1 - 128) * 4096
                       + (b2 - 128) * 64 + (b3 - 128))
                   <$> utf8_decode bs4
            else None
        | _ => None
        end
      else None
  end.

(** One character of [str.encode('utf-8')], [errors='strict']: surrogates
    cannot be encoded. *)
Definition utf8_encode_char (c : N) : option (list N) :=
  if c <? 128 then Some [c]
  else if c <? 2048 then Some [192 + c / 64; 128 + c mod 64]
  else if in_range 55296 57343 c then None
  else if c <? 65536
  then Some [224 + c / 4096; 128 + (c / 64) mod 64; 128 + c mod 64]
  else if c <? 1114112
  then Some [240 + c / 262144; 128 + (c / 4096) mod 64;
             128 + (c / 64) mod 64; 128 + c mod 64]
  else None.

Fixpoint utf8_encode (s : str) : option (list N) :=
  match s with
  | [] => Some []
  | c :: s' =>
      match utf8_encode_char c, utf8_encode s' with
      | Some b, Some bs => Some (b ++ bs)
      | _, _ => None
      end
  end.

(** Reading in text mode with [newline=None]: carriage return, alone or
    before a line feed, is read as a line feed. *)
Fixpoint universal_newlines (s : str) : str :=
  match s with
  | [] => []
  | c :: rest =>
      if c =? 13 then
        10 :: match rest with
              | c' :: rest' =>
                  if c' =? 10 then universal_newlines rest'
                  else universal_newlines rest
              | [] => []
              end
      else c :: universal_newlines rest
  end.

(** Writing in text mode with [newline=None]: a line feed is written as
    [os.linesep]. *)
Definition translate_newlines (linesep : str) (s : str) : str :=
  flat_map (fun c => if c =? 10 then linesep else [c]) s.

(** ** json.scanner and json.decoder *)

(** The outcome of a scan: a value and the text after it, a rejected text
    ([StopIteration] or [JSONDecodeError]), or recursion cut short. *)
Inductive scan (A : Type) : Type :=
| Scanned (a : A) (rest : str)
| Rejected
| Exhausted.
Arguments Scanned {A} a rest.
Arguments Rejected {A}.
Arguments Exhausted {A}.

Definition scan_bind {A B} (r : scan A) (k : A -> str -> scan B) : scan B :=
  match r with
  | Scanned a rest => k a rest
  | Rejected => Rejected
  | Exhausted => Exhausted
  end.

Notation "'scan*' ( x , rest ) := r 'in' k" := (scan_bind r (fun x rest => k))
  (at level 10, x name, rest name, r at level 100, k at level 200).

(** [WHITESPACE.match(s, end).end()] *)
Fixpoint skip_ws (s : str) : str :=
  match s with
  | c :: s' => if is_ws c then skip_ws s' else s
  | [] => []
  end.

(** [s[idx:idx + len(p)] == p], with what follows. *)
Fixpoint starts_with (p s : str) : option str :=
  match p, s with
  | [], _ => Some s
  | a :: p', b :: s' => if a =? b then starts_with p' s' else None
  | _ :: _, [] => None
  end.

(** The longest run of digits at the head of [s]. *)
Fixpoint span_digits (s : str) : str * str :=
  match s with
  | c :: s' =>
      if is_digit c
      then let (d, r) := span_digits s' in (c :: d, r)
      else ([], s)
  | [] => ([], [])
  end.

(** The three groups of [NUMBER_RE]: an integer part (an optional minus
    sign, then a lone zero or a digit other than zero and any digits), an
    optional fraction (a dot and one digit or more), an optional exponent
    (e or E, an optional sign, one digit or more). *)
Definition match_integer (s : str) : option (str * str) :=
  let (sign, s1) :=
    match s with
    | c :: s' => if c =? ch "-" then ([c], s') else ([], s)
    | [] => ([], s)
    end in
  match s1 with
  | c :: s2 =>
      if c =? ch "0" then Some (sign ++ [c], s2)
      else if is_digit c
      then let (d, r) := span_digits s2 in Some (sign ++ c :: d, r)
      else None
  | [] => None
  end.

Definition match_frac (s : str) : str * str :=
  match s with
  | c :: s' =>
      if c =? ch "." then
        match span_digits s' with
        | ([], _) => ([], s)
        | (d, r) => (c :: d, r)
        end
      else ([], s)
  | [] => ([], s)
  end.

Definition match_exp (s : str) : str * str :=
  match s with
  | c :: s' =>
      if (c =? ch "e") || (c =? ch "E") then
        let (sign, s'') :=
          match s' with
          | c' :: t =>
              if (c' =? ch "-") || (c' =? ch "+") then ([c'], t)
              else ([], s')
          | [] => ([], s')
          end in
        match span_digits s'' with
        | ([], _) => ([], s)
        | (d, r) => (c :: sign ++ d, r)
        end
      else ([], s)
  | [] => ([], s)
  end.

(** [match_number]: the groups [integer], [frac], [exp] and the text
    after the match. *)
Definition match_number (s : str) : option (str * str * str * str) :=
  match match_integer s with
  | None => None
  | Some (integer, s1) =>
      let (frac, s2) := match_frac s1 in
      let (exp, s3) := match_exp s2 in
      Some (integer, frac, exp, s3)
  end.

(** [int(text)] on a text matched by the first group. *)
Definition int_of_digits (d : str) : N :=
  fold_left (fun a c => 10 * a + (c - 48)) d 0.

Definition parse_int (integer : str) : Z :=
  match integer with
  | c :: d =>
      if c =? ch "-" then Z.opp (Z.of_N (int_of_digits d))
      else Z.of_N (int_of_digits integer)
  | [] => 0%Z
  end.

Definition hex_val (c : N) : option N :=
  if is_digit c then Some (c - 48)
  else if in_range 97 102 c then Some (c - 87)
  else if in_range 65 70 c then Some (c - 55)
  else None.

(** [_decode_uXXXX] on the four characters after [\u]. *)
Definition decode_uXXXX (a b c d : N) : option N :=
  match hex_val a, hex_val b, hex_val c, hex_val d with
  | Some x3, Some x2, Some x1, Some x0 =>
      Some (((x3 * 16 + x2) * 16 + x1) * 16 + x0)
  | _, _, _, _ => None
  end.

(** The table [BACKSLASH]. *)
Definition unescape (esc : N) : option N :=
  if esc =? quote then Some quote
  else if esc =? backslash then Some backslash
  else if esc =? ch "/" then Some (ch "/")
  else if esc =? ch "b" then Some 8
  else if esc =? ch "f" then Some 12
  else if esc =? ch "n" then Some 10
  else if esc =? ch "r" then Some 13
  else if esc =? ch "t" then Some 9
  else None.

Definition is_high_surrogate (c : N) : bool := in_range 55296 56319 c.
Definition is_low_surrogate (c : N) : bool := in_range 56320 57343 c.

(** [_append(c)] once the rest of the string is scanned. *)
Definition append (c : N) (r : option (str * str)) : option (str * str) :=
  match r with
  | Some (chunks, rest) => Some (c :: chunks, rest)
  | None => None
  end.

(** [scanstring(s, end, strict=True)], [s] starting after the opening
    quote: the string and the text after the closing quote. *)
Fixpoint scanstring (s : str) : option (str * str) :=
  match s with
  | [] => None
  | c :: s1 =>
      if c =? quote then Some ([], s1)
      else if c =? backslash then
        match s1 with
        | [] => None
        | esc :: s2 =>
            if esc =? ch "u" then
              match s2 with
              | x3 :: x2 :: x1 :: x0 :: s3 =>
                  match decode_uXXXX x3 x2 x1 x0 with
                  | None => None
                  | Some uni =>
                      if is_high_surrogate uni then
                        match s3 with
                        | b :: u :: y3 :: y2 :: y1 :: y0 :: s4 =>
                            if (b =? backslash) && (u =? ch "u") then
                              match decode_uXXXX y3 y2 y1 y0 with
                              | None => None
                              | Some uni2 =>
                                  if is_low_surrogate uni2
                                  then append
                                         (65536
                                          + N.lor (N.shiftl (uni - 55296) 10)
                                                  (uni2 - 56320))
                                         (scanstring s4)
                                  else append uni (scanstring s3)
                              end
                            else append uni (scanstring s3)
                        | _ => append uni (scanstring s3)
                        end
                      else append uni (scanstring s3)
                  end
              | _ => None
              end
            else
              match unescape esc with
              | Some c' => append c' (scanstring s2)
              | None => None
              end
        end
      else if c <? 32 then None
      else append c (scanstring s1)
  end.

Section Decoder.
Context {finite : Type}.
(** [float(text)] on a text matched by [NUMBER_RE]. *)
Variable float_of_literal : str -> pyfloat finite.
#[local] Abbreviation json := (json finite).

(** The branches of [_scan_once] for constants and numbers, in its
    order. *)
Definition scan_literal (s : str) : scan json :=
  match starts_with (lit "null") s with
  | Some rest => Scanned JNull rest
  | None =>
  match starts_with (lit "true") s with
  | Some rest => Scanned (JBool true) rest
  | None =>
  match starts_with (lit "false") s with
  | Some rest => Scanned (JBool false) rest
  | None =>
  match match_number s with
  | Some (integer, frac, exp, rest) =>
      match frac, exp with
      | [], [] => Scanned (JInt (parse_int integer)) rest
      | _, _ => Scanned (JFloat (float_of_literal (integer ++ frac ++ exp))) rest
      end
  | None =>
  match starts_with (lit "NaN") s with
  | Some rest => Scanned (JFloat FNaN) rest
  | None =>
  match starts_with (lit "Infinity") s with
  | Some rest => Scanned (JFloat FInf) rest
  | None =>
  match starts_with (lit "-Infinity") s with
  | Some rest => Scanned (JFloat FNegInf) rest
  | None => Rejected
  end end end end end end end.

(** [_scan_once], with the loops of [JSONArray] and [JSONObject]:
    [array_items] starts at a value, [object_items] after the opening
    quote of a key.  Every call takes one unit of [fuel]. *)
Fixpoint scan_once (fuel : nat) (s : str) {struct fuel} : scan json :=
  match fuel with
  | O => Exhausted
  | S fuel' =>
      match s with
      | [] => Rejected
      | nextchar :: s' =>
          if nextchar =? quote then
            match scanstring s' with
            | Some (v, rest) => Scanned (JStr v) rest
            | None => Rejected
            end
          else if nextchar =? ch "{" then
            match skip_ws s' with
            | c :: s2 =>
                if c =? ch "}" then Scanned (JDict []) s2
                else if c =? quote then object_items fuel' s2 []
                else Rejected
            | [] => Rejected
            end
          else if nextchar =? ch "[" then
            match skip_ws s' with
            | c :: s2 =>
                if c =? ch "]" then Scanned (JList []) s2
                else array_items fuel' (c :: s2) []
            | [] => Rejected
            end
          else scan_literal s
      end
  end
with array_items (fuel : nat) (s : str) (values : list json)
       {struct fuel} : scan json :=
  match fuel with
  | O => Exhausted
  | S fuel' =>
      scan* (value, s1) := scan_once fuel' s in
      let values := values ++ [value] in
      match skip_ws s1 with
      | c :: s2 =>
          if c =? ch "]" then Scanned (JList values) s2
          else if c =? ch "," then array_items fuel' (skip_ws s2) values
          else Rejected
      | [] => Rejected
      end
  end
with object_items (fuel : nat) (s : str) (pairs : list (str * json))
       {struct fuel} : scan json :=
  match fuel with
  | O => Exhausted
  | S fuel' =>
      match scanstring s with
      | None => Rejected
      | Some (key, s1) =>
          match skip_ws s1 with
          | c :: s2 =>
              if c =? ch ":" then
                scan* (value, s3) := scan_once fuel' (skip_ws s2) in
                let pairs := pairs ++ [(key, value)] in
                match skip_ws s3 with
                | c' :: s4 =>
                    if c' =? ch "}"
                    then Scanned (JDict (dict_of_pairs pairs)) s4
                    else if c' =? ch "," then
                      match skip_ws s4 with
                      | q :: s5 =>
                          if q =? quote then object_items fuel' s5 pairs
                          else Rejected
                      | [] => Rejected
                      end
                    else Rejected
                | [] => Rejected
                end
              else Rejected
          | [] => Rejected
          end
      end
  end.

(** [JSONDecoder.decode]: white space, one value, white space, the end. *)
Definition decode (s : str) : result json :=
  match scan_once (2 * length s + 1) (skip_ws s) with
  | Scanned obj rest =>
      match skip_ws rest with
      | [] => Ok obj
      | _ :: _ => Raise (JSONDecodeError s)
      end
  | Rejected => Raise (JSONDecodeError s)
  | Exhausted => Raise RecursionError
  end.

(** [json.loads] on a [str]: a leading byte order mark is refused. *)
Definition loads (s : str) : result json :=
  match s with
  | c :: _ => if c =? 65279 then Raise (JSONDecodeError s) else decode s
  | [] => decode s
  end.
End Decoder.

(** ** Texts and values the decoder can return *)

Definition printable (c : N) : bool := in_range 32 126 c.

Definition is_surrogate (c : N) : bool := in_range 55296 57343 c.

(** A code point as the utf-8 codec reads it: in range and no surrogate. *)
Definition scalar (c : N) : bool := (c <? 1114112) && negb (is_surrogate c).

(** A [str] of code points in range in which no high surrogate stands
    right before a low one. *)
Fixpoint str_ok (s : str) : bool :=
  match s with
  | [] => true
  | c :: s' =>
      (c <? 1114112)
      && (negb (is_high_surrogate c)
          || match s' with
             | c2 :: _ => negb (is_low_surrogate c2)
             | [] => true
             end)
      && str_ok s'
  end.

Definition is_nil {A} (l : list A) : bool :=
  match l with
  | [] => true
  | _ :: _ => false
  end.

(** A text [NUMBER_RE] matches whole, with a fraction or an exponent. *)
Definition float_literal (t : str) : bool :=
  match match_number t with
  | Some (_, frac, exp, []) => negb (is_nil frac && is_nil exp)
  | _ => false
  end.

(** The text after a value in a document: its end, or a character that
    closes an array or an object or separates two items. *)
Definition delimited (rest : str) : Prop :=
  match rest with
  | [] => True
  | c :: _ => c = ch "," \/ c = ch "]" \/ c = ch "}"
  end.

(** Does the text start with the escape of a low surrogate?  This is what
    [scanstring] looks for after the escape of a high one. *)
Definition low_escape_next (t : str) : bool :=
  match t with
  | b :: t1 =>
      (b =? backslash)
      && match t1 with
         | u :: t2 =>
             (u =? ch "u")
             && match t2 with
                | y3 :: y2 :: y1 :: y0 :: _ =>
                    match decode_uXXXX y3 y2 y1 y0 with
                    | Some uni2 => is_low_surrogate uni2
                    | None => true
                    end
                | _ => false
                end
         | [] => false
         end
  | [] => false
  end.

(** [p] holds of [n], [n + 1], ... ([fuel] numbers). *)
Fixpoint all_from (fuel : nat) (n : N) (p : N -> bool) : bool :=
  match fuel with
  | O => true
  | S fuel' => p n && all_from fuel' (N.succ n) p
  end.

(** A text that does not go on with a digit. *)
Definition stops_digits (t : str) : Prop :=
  match t with
  | [] => True
  | c :: _ => is_digit c = false
  end.

(** The shapes of the three groups of a number. *)
Definition digits (d : str) : Prop := Forall (fun c => is_digit c = true) d.

Definition integer_shape (i : str) : Prop :=
  exists sign c d,
    i = sign ++ c :: d /\ (sign = [] \/ sign = [ch "-"]) /\
    is_digit c = true /\ digits d /\ (c = ch "0" -> d = []).

Definition frac_shape (f : str) : Prop :=
  f = [] \/ exists c d, f = ch "." :: c :: d /\ digits (c :: d).

Definition exp_shape (e : str) : Prop :=
  e = [] \/
  exists x sign c d,
    e = x :: sign ++ c :: d /\ (x = ch "e" \/ x = ch "E") /\
    (sign = [] \/ sign = [ch "-"] \/ sign = [ch "+"]) /\ digits (c :: d).

Section WellFormed.
Context {finite : Type}.
Variable finite_repr : finite -> str.
Variable float_of_literal : str -> pyfloat finite.
#[local] Abbreviation json := (json finite).

(** A float whose [repr] is a literal that reads back as the float. *)
Definition float_ok (f : pyfloat finite) : Prop :=
  match f with
  | FFinite x =>
      float_literal (finite_repr x) = true /\
      float_of_literal (finite_repr x) = FFinite x
  | _ => True
  end.

(** The values [json.load] returns: strings as [str_ok] has them, floats
    as [float_ok] has them, no key twice in a dict. *)
Fixpoint well_formed (v : json) : Prop :=
  match v with
  | JFloat f => float_ok f
  | JStr s => str_ok s = true
  | JList l =>
      (fix all (l : list json) : Prop :=
         match l with
         | [] => True
         | x :: l' => well_formed x /\ all l'
         end) l
  | JDict d =>
      NoDup (List.map fst d) /\
      (fix all (d : list (str * json)) : Prop :=
         match d with
         | [] => True
         | (k, x) :: d' => str_ok k = true /\ well_formed x /\ all d'
         end) d
  | _ => True
  end.

(** The calls the scanner needs for a value. *)
Fixpoint depth (v : json) : nat :=
  match v with
  | JList l => S (fold_right (fun x n => S (depth x + n)) O l)
  | JDict d => S (fold_right (fun kv n => S (depth (snd kv) + n)) O d)
  | _ => 1
  end.
End WellFormed.

(** [sep.join(items)] on texts. *)
Fixpoint join_str (sep : str) (items : list str) : str :=
  match items with
  | [] => []
  | [x] => x
  | x :: rest => x ++ sep ++ join_str sep rest
  end.

(** Induction on values, the items of arrays and objects included. *)
Section JsonInduction.
Context {finite : Type}.
Variable P : json finite -> Prop.
Hypothesis HNull : P JNull.
Hypothesis HBool : forall b, P (JBool b).
Hypothesis HInt : forall z, P (JInt z).
Hypothesis HFloat : forall f, P (JFloat f).
Hypothesis HStr : forall s, P (JStr s).
Hypothesis HList : forall l, Forall P l -> P (JList l).
Hypothesis HDict : forall d, Forall (fun kv => P (snd kv)) d -> P (JDict d).

Fixpoint json_induction (v : json finite) : P v :=
  match v with
  | JNull => HNull
  | JBool b => HBool b
  | JInt z => HInt z
  | JFloat f => HFloat f
  | JStr s => HStr s
  | JList l =>
      HList l
        ((fix go (l : list (json finite)) : Forall P l :=
            match l with
            | [] => List.Forall_nil P
            | x :: l' => List.Forall_cons P x l' (json_induction x) (go l')
            end) l)
  | JDict d =>
      HDict d
        ((fix go (d : list (str * json finite))
            : Forall (fun kv => P (snd kv)) d :=
            match d with
            | [] => List.Forall_nil _
            | kv :: d' =>
                List.Forall_cons (fun kv => P (snd kv)) kv d'
                  (json_induction (snd kv)) (go d')
            end) d)
  end.
End JsonInduction.

(** Does the string start with a low surrogate? *)
Definition low_head (v : str) : bool :=
  match v with
  | c :: _ => is_low_surrogate c
  | [] => false
  end.

(** A text read from a utf-8 file. *)
Definition text_ok (s : str) : Prop := Forall (fun c => scalar c = true) s.

(** [scanstring] as a relation between a text, the string at its head and
    the text after the closing quote. *)
Inductive scanned : str -> str -> str -> Prop :=
| scanned_end (s : str) : scanned (quote :: s) [] s
| scanned_plain (c : N) (s v rest : str) :
    c <> quote -> c <> backslash -> 32 <= c ->
    scanned s v rest -> scanned (c :: s) (c :: v) rest
| scanned_escape (esc c : N) (s v rest : str) :
    unescape esc = Some c ->
    scanned s v rest -> scanned (backslash :: esc :: s) (c :: v) rest
| scanned_u (x3 x2 x1 x0 uni : N) (s v rest : str) :
    decode_uXXXX x3 x2 x1 x0 = Some uni ->
    (is_high_surrogate uni = true -> low_escape_next s = false) ->
    scanned s v rest ->
    scanned (backslash :: ch "u" :: x3 :: x2 :: x1 :: x0 :: s) (uni :: v) rest
| scanned_pair (x3 x2 x1 x0 y3 y2 y1 y0 uni uni2 : N) (s v rest : str) :
    decode_uXXXX x3 x2 x1 x0 = Some uni ->
    decode_uXXXX y3 y2 y1 y0 = Some uni2 ->
    is_high_surrogate uni = true -> is_low_surrogate uni2 = true ->
    scanned s v rest ->
    scanned (backslash :: ch "u" :: x3 :: x2 :: x1 :: x0
               :: backslash :: ch "u" :: y3 :: y2 :: y1 :: y0 :: s)
            (65536 + N.lor (N.shiftl (uni - 55296) 10) (uni2 - 56320) :: v)
            rest.

(** A text that is not empty, made of printable ASCII characters, with no
    white space at either end. *)
Definition solid (t : str) : Prop :=
  Forall (fun c => printable c = true) t /\
  (exists c, head t = Some c /\ is_ws c = false) /\
  (exists c, last t = Some c /\ is_ws c = false).

(** A chunk as the script's call of [json.dump] writes it: solid, and a
    comma or a colon alone when it separates. *)
Definition compact_chunk (c : chunk) : Prop :=
  solid (snd c) /\
  (fst c = ItemSep -> snd c = lit ",") /\
  (fst c = KeySep -> snd c = lit ":").

Definition is_separator (r : role) : bool :=
  match r with
  | ItemSep | KeySep => true
  | _ => false
  end.

(** Chunks the first and the last of which are no separators. *)
Definition framed (cs : list chunk) : Prop :=
  (exists c, head cs = Some c /\ is_separator (fst c) = false) /\
  (exists c, last cs = Some c /\ is_separator (fst c) = false).

(** The text the script's call of [json.dump] writes for a value, and the
    same text item by item, followed by [rest]. *)
Section CompactText.
Context {finite : Type}.
Variable finite_repr : finite -> str.

Definition compact (v : json finite) : str :=
  dumps finite_repr (lit ",") (lit ":") v.

Fixpoint items_text (items : list (json finite)) (rest : str) : str :=
  match items with
  | [] => rest
  | [x] => compact x ++ rest
  | x :: items' => compact x ++ ch "," :: items_text items' rest
  end.

Definition member_text (kv : str * json finite) (rest : str) : str :=
  quote :: flat_map escape_char (fst kv)
    ++ quote :: ch ":" :: compact (snd kv) ++ rest.

Fixpoint members_text (items : list (str * json finite)) (rest : str) : str :=
  match items with
  | [] => rest
  | [kv] => member_text kv rest
  | kv :: items' => member_text kv (ch "," :: members_text items' rest)
  end.
End CompactText.

(** ** The file system and the console *)

Record file := File { readable : bool; writable : bool; content : list N }.

(** The part of the machine the script touches: the files of the working
    directory by name, whether new files may be created in it, how many
    more bytes the device takes, [os.linesep], and the lines printed. *)
Record world := World {
  files : gmap string file;
  creatable : bool;
  room : N;
  linesep : str;
  stdout : list str
}.

Definition set_files (w : world) (fs : gmap string file) : world :=
  World fs (creatable w) (room w) (linesep w) (stdout w).

(** A statement: it changes the world and returns or raises. *)
Definition io (A : Type) : Type := world -> world * result A.

Definition ret {A} (a : A) : io A := fun w => (w, Ok a).

Definition raise {A} (e : exn) : io A := fun w => (w, Raise e).

Definition io_bind {A B} (m : io A) (k : A -> io B) : io B :=
  fun w =>
    match m w with
    | (w', Ok a) => k a w'
    | (w', Raise e) => (w', Raise e)
    end.

Notation "'do' x <- m ; k" := (io_bind m (fun x => k))
  (at level 10, x name, m at level 100, k at level 200).

Definition lift {A} (r : result A) : io A := fun w => (w, r).

(** [open(path, 'r', encoding='utf-8')]: the file object, that is the
    bytes there are to read. *)
Definition open_r (path : string) : io (list N) :=
  fun w =>
    match files w !! path with
    | None => (w, Raise (OSError 2 "No such file or directory" (Some path)))
    | Some f =>
        if readable f then (w, Ok (content f))
        else (w, Raise (OSError 13 "Permission denied" (Some path)))
    end.

(** [f.read()] on a file opened in text mode. *)
Definition read (f : list N) : result str :=
  match utf8_decode f with
  | Some s => Ok (universal_newlines s)
  | None => Raise (UnicodeDecodeError f)
  end.

(** [open(path, 'w', encoding='utf-8')]: an existing file is emptied, a
    missing one is created. *)
Definition open_w (path : string) : io unit :=
  fun w =>
    match files w !! path with
    | None =>
        if creatable w
        then (set_files w (<[path := File true true []]> (files w)), Ok tt)
        else (w, Raise (OSError 13 "Permission denied" (Some path)))
    | Some f =>
        if writable f
        then (set_files w (<[path := File (readable f) true []]> (files w)),
              Ok tt)
        else (w, Raise (OSError 13 "Permission denied" (Some path)))
    end.

(** [f.write(chunk)] for every chunk: the bytes of the chunks before the
    first one that cannot be encoded, and the error of that one if any. *)
Fixpoint encode_chunks (linesep : str) (chunks : list str)
  : list N * option exn :=
  match chunks with
  | [] => ([], None)
  | chunk :: rest =>
      match utf8_encode (translate_newlines linesep chunk) with
      | None => ([], Some (UnicodeEncodeError chunk))
      | Some b =>
          let (bs, e) := encode_chunks linesep rest in (b ++ bs, e)
      end
  end.

(** The writes of a [with open(path, 'w') as f] block and its end, where
    the buffer is flushed and the file closed: the device keeps the bytes
    it has room for. *)
Definition write_chunks (path : string) (chunks : list str) : io unit :=
  fun w =>
    let (bytes, e) := encode_chunks (linesep w) chunks in
    let kept := take (N.to_nat (room w)) bytes in
    let fs :=
      match files w !! path with
      | Some f =>
          <[path := File (readable f) (writable f) (content f ++ kept)]>
            (files w)
      | None => files w
      end in
    let w' := World fs (creatable w) (room w - N.of_nat (length kept))
                (linesep w) (stdout w) in
    if N.of_nat (length bytes) <=? room w then
      match e with
      | None => (w', Ok tt)
      | Some e => (w', Raise e)
      end
    else (w', Raise (OSError 28 "No space left on device" None)).

(** [os.path.getsize(path)] *)
Definition getsize (path : string) : io N :=
  fun w =>
    match files w !! path with
    | Some f => (w, Ok (N.of_nat (length (content f))))
    | None => (w, Raise (OSError 2 "No such file or directory" (Some path)))
    end.

(** [print(line)] *)
Definition print (line : str) : io unit :=
  fun w =>
    (World (files w) (creatable w) (room w) (linesep w) (stdout w ++ [line]),
     Ok tt).

(** The world after one more line is printed. *)
Definition printed (w : world) (line : str) : world := fst (print line w).

(** A statement that leaves alone every file but the one at [path]. *)
Definition writes_only {A} (path : string) (m : io A) : Prop :=
  forall (w : world) (p : string),
    p <> path -> files (fst (m w)) !! p = files w !! p.

(** ** Formatting *)

(** The integer nearest to [num / den], ties going to the even one. *)
Definition round_half_even (num den : N) : N :=
  let q := num / den in
  let r := num mod den in
  if (den <? 2 * r) || ((2 * r =? den) && N.odd q) then q + 1 else q.

(** The value of the float nearest to the integer [n] (53 significant
    bits, ties to even). *)
Definition nearest_float (n : N) : N :=
  let bits := N.size n in
  if bits <=? 53 then n
  else let sh := bits - 53 in N.shiftl (round_half_even n (2 ^ sh)) sh.

(** [f"{n/1024/1024:.2f}"]: the true division of an integer rounds once,
    the divisions by a power of two are then exact, and the format rounds
    the exact value of the float to hundredths. *)
Definition format_mb (n : N) : str :=
  let h := round_half_even (nearest_float n * 100) (1024 * 1024) in
  dec (h / 100) ++ [ch "."; 48 + (h / 10) mod 10; 48 + h mod 10].

(** [repr] of a [str] made of letters, digits, dots and underscores. *)
Definition repr_plain (s : string) : str := lit "'" ++ lit s ++ lit "'".

(** The world once [text] has been written to the file at [path], new or
    emptied, as far as the device has room. *)
Definition written (path : string) (r : bool) (text : list N) (w : world)
  : world :=
  let kept := take (N.to_nat (room w)) text in
  World (<[path := File r true kept]> (files w)) (creatable w)
    (room w - N.of_nat (length kept)) (linesep w) (stdout w).

(** The two lines of the report. *)
Definition original_line (size : N) : str :=
  lit "Optimization complete. Original size: " ++ format_mb size ++ lit "MB".

Definition new_line (size : N) : str :=
  lit "New size: " ++ format_mb size ++ lit "MB".

(** ** The script *)

Section Script.
Context {finite : Type}.
(** [float.__repr__] and [float(text)] for finite floats. *)
Variable finite_repr : finite -> str.
Variable float_of_literal : str -> pyfloat finite.
(** [str(e)] for the exceptions whose wording is the interpreter's. *)
Variable library_str : exn -> str.
#[local] Abbreviation json := (json finite).

(** [str(e)] *)
Definition str_of_exn (e : exn) : str :=
  match e with
  | KeyError key => repr_plain key
  | OSError errno strerror (Some filename) =>
      lit "[Errno " ++ dec errno ++ lit "] " ++ lit strerror ++ lit ": "
        ++ repr_plain filename
  | OSError errno strerror None =>
      lit "[Errno " ++ dec errno ++ lit "] " ++ lit strerror
  | _ => library_str e
  end.

(** [json.load(f)] *)
Definition json_load (f : list N) : result json :=
  let* s := read f in
  loads float_of_literal s.

(** Lines 5-6. *)
Definition load_stops : io json :=
  do f <- open_r "stops.txt";
  lift (json_load f).

(** Lines 19-20. *)
Definition dump_lite (lite_data : list json) : io unit :=
  do _ <- open_w "stops_lite.json";
  write_chunks "stops_lite.json"
    (dump_chunks finite_repr (lit ",") (lit ":") (JList lite_data)).

(** Lines 22-23. *)
Definition report : io unit :=
  do original <- getsize "stops.txt";
  do _ <- print (lit "Optimization complete. Original size: "
                   ++ format_mb original ++ lit "MB");
  do new <- getsize "stops_lite.json";
  print (lit "New size: " ++ format_mb new ++ lit "MB").

(** The body of the [try] statement, lines 5-23. *)
Definition try_body : io unit :=
  do data <- load_stops;
  do lite_data <- lift (minimize data);
  do _ <- dump_lite lite_data;
  report.

(** The whole script: every exception modelled is an [Exception], so the
    handler of lines 25-26 takes it. *)
Definition optimize_data : io unit :=
  fun w =>
    match try_body w with
    | (w', Ok _) => (w', Ok tt)
    | (w', Raise e) => print (lit "Error: " ++ str_of_exn e) w'
    end.
End Script.

(** ** Floats kept as their literals *)

(** An instance of the float operations on which the script can be run:
    a finite float is the literal [repr] gives for it, and [float] of such
    a literal is that float. *)
Module Literal.
Definition finite : Type := str.
Definition finite_repr (x : finite) : str := x.
Definition float_of_literal (t : str) : pyfloat finite := FFinite t.
Definition library_str (e : exn) : str :=
  match e with
  | UnicodeDecodeError _ => lit "UnicodeDecodeError"
  | UnicodeEncodeError _ => lit "UnicodeEncodeError"
  | JSONDecodeError _ => lit "JSONDecodeError"
  | RecursionError => lit "RecursionError"
  | TypeError _ => lit "TypeError"
  | AttributeError => lit "AttributeError"
  | _ => []
  end.
Definition run : io unit :=
  optimize_data finite_repr float_of_literal library_str.
End Literal.

(** ** The examples of the specification *)

Module Examples.
Import Literal.

Definition str_field (key value : string) : str * json finite :=
  (lit key, JStr (lit value)).

Definition float_field (key value : string) : str * json finite :=
  (lit key, JFloat (FFinite (lit value))).

Definition main_st : json finite :=
  JDict [str_field "stop_id" "42"; str_field "name" "Main St";
         float_field "lat" "40.1"; float_field "lon" "-73.9";
         str_field "locality" "Springfield"].

Definition elm_ave : json finite :=
  JDict [str_field "stop_id" "7"; str_field "name" "Elm Ave";
         float_field "lat" "41.0"; float_field "lon" "-72.0"].

(** A record whose [locality] is [null]. *)
Definition no_locality : json finite :=
  JDict [str_field "stop_id" "7"; str_field "name" "Elm Ave";
         float_field "lat" "41.0"; float_field "lon" "-72.0";
         (lit "locality", JNull)].

(** A world holding the input file alone. *)
Definition world_of (input : list N) : world :=
  World {[ "stops.txt"%string := File true true input ]} true 4096 [10] [].



(** Double quotes are written as single ones in the texts below. *)
Definition text (s : string) : str :=
  List.map (fun c => if c =? 39 then quote else c) (lit s).

(** The input of the second example, and the same without [lat]. *)
Definition elm_ave_txt : str :=
  text "[{'stop_id':'7','name':'Elm Ave','lat':41.0,'lon':-72.0}]".




End Examples.

(** ** Further examples *)

Module EdgeExamples.
Import Literal Examples.

(** What lines 11-17 make of the two records of the examples. *)
Definition lite_main_st : json finite :=
  JDict [str_field "i" "42"; str_field "n" "Main St";
         float_field "l" "40.1"; float_field "o" "-73.9";
         str_field "c" "Springfield"].

Definition lite_elm_ave : json finite :=
  JDict [str_field "i" "7"; str_field "n" "Elm Ave";
         float_field "l" "41.0"; float_field "o" "-72.0";
         str_field "c" ""].

(** A record without [name] and [lat]. *)
Definition id_only : json finite :=
  JDict [str_field "stop_id" "9"; float_field "lon" "-9.1"].




(** The world after one run on the second example, and after another. *)
Definition ran_once : world :=
  fst (try_body finite_repr float_of_literal (world_of elm_ave_txt)).

Definition ran_twice : world :=
  fst (try_body finite_repr float_of_literal ran_once).
End EdgeExamples.

(** * Properties *)

(** ** Strings and dictionaries *)

Lemma str_eqb_eq (a b : str) : str_eqb a b = true <-> a = b.
Proof.
  revert b; induction a as [|x a IH]; intros [|y b]; simpl; try easy.
  rewrite andb_true_iff, N.eqb_eq, IH. split.
  - intros [-> ->]; reflexivity.
  - intros [= -> ->]; auto.
Qed.

Lemma str_eqb_refl (a : str) : str_eqb a a = true.
Proof. apply str_eqb_eq; reflexivity. Qed.

(** ** The projection of one record *)

Section ProjectorFacts.
Context {finite : Type}.
#[local] Abbreviation json := (json finite).

Lemma getitem_field (stop : json) (key : string) :
  has_field key stop ->
  exists v, getitem stop key = Ok v /\ field key stop = Some v.
Proof.
  destruct stop; simpl; try contradiction.
  intros [v Hv]. exists v. rewrite Hv. auto.
Qed.

Lemma lite_record_inv (stop r : json) :
  lite_record stop = Ok r ->
  exists d i n l o,
    stop = JDict d /\
    dict_get (lit "stop_id") d = Some i /\
    dict_get (lit "name") d = Some n /\
    dict_get (lit "lat") d = Some l /\
    dict_get (lit "lon") d = Some o /\
    r = JDict [(lit "i", i); (lit "n", n); (lit "l", l); (lit "o", o);
               (lit "c", default (JStr []) (dict_get (lit "locality") d))].
Proof.
  unfold lite_record, getitem, get.
  destruct stop as [| | | | | |d]; try discriminate.
  destruct (dict_get (lit "stop_id") d) as [i|] eqn:Hi; [|discriminate].
  destruct (dict_get (lit "name") d) as [n|] eqn:Hn; [|discriminate].
  destruct (dict_get (lit "lat") d) as [l|] eqn:Hl; [|discriminate].
  destruct (dict_get (lit "lon") d) as [o|] eqn:Ho; [|discriminate].
  intros H. exists d, i, n, l, o.
  destruct (dict_get (lit "locality") d) as [c|]; simpl in H;
    injection H as <-; repeat split; (assumption || reflexivity).
Qed.

Lemma stop_record_lite_record (stop : json) :
  stop_record stop -> exists r, lite_record stop = Ok r.
Proof.
  intros (Hi & Hn & Hl & Ho).
  destruct stop as [| | | | | |d]; simpl in *; try contradiction.
  destruct Hi as [i Hi], Hn as [n Hn], Hl as [l Hl], Ho as [o Ho].
  unfold lite_record; simpl. rewrite Hi, Hn, Hl, Ho; simpl.
  destruct (dict_get (lit "locality") d); simpl; eauto.
Qed.

(** C1: for a record that has the four required fields, the output
    record exists and its values at [i], [n], [l], [o] are the input
    record's values at [stop_id], [name], [lat], [lon], unchanged. *)
Theorem lite_record_renames (stop : json) :
  stop_record stop ->
  exists r,
    lite_record stop = Ok r /\
    field "i" r = field "stop_id" stop /\
    field "n" r = field "name" stop /\
    field "l" r = field "lat" stop /\
    field "o" r = field "lon" stop.
Proof.
  intros Hrec. destruct (stop_record_lite_record stop Hrec) as [r Hr].
  exists r. split; [exact Hr|].
  destruct (lite_record_inv _ _ Hr) as (d & i & n & l & o & -> & Hi & Hn & Hl & Ho & ->).
  simpl. rewrite Hi, Hn, Hl, Ho. auto.
Qed.

(** C3, amended: whenever [locality] is present, [null] included, [c] is
    its value; when it is absent, [c] is the empty string. *)
Theorem lite_record_locality (stop r : json) :
  lite_record stop = Ok r ->
  (forall v, field "locality" stop = Some v -> field "c" r = Some v) /\
  (field "locality" stop = None -> field "c" r = Some (JStr (lit ""))).
Proof.
  intros Hr.
  destruct (lite_record_inv _ _ Hr) as (d & i & n & l & o & -> & _ & _ & _ & _ & ->).
  simpl. split.
  - intros v ->. reflexivity.
  - intros ->. reflexivity.
Qed.

(** ** The loop *)

Lemma project_loop_ok (stops rs lite_data : list json) :
  Forall2 (fun stop r => lite_record stop = Ok r) stops rs ->
  project_loop stops lite_data = Ok (lite_data ++ rs).
Proof.
  intros H; revert lite_data.
  induction H as [|stop r stops rs Hr _ IH]; intros lite_data; simpl.
  - rewrite app_nil_r; reflexivity.
  - rewrite Hr; simpl. rewrite IH, <- app_assoc. reflexivity.
Qed.

Lemma project_loop_inv (stops lite_data out : list json) :
  project_loop stops lite_data = Ok out ->
  exists rs,
    out = lite_data ++ rs /\
    Forall2 (fun stop r => lite_record stop = Ok r) stops rs.
Proof.
  revert lite_data; induction stops as [|stop stops IH];
    intros lite_data; simpl.
  - intros [= <-]. exists []. rewrite app_nil_r. auto.
  - destruct (lite_record stop) as [r|e] eqn:Hr; simpl; [|discriminate].
    intros H. destruct (IH _ H) as (rs & -> & Hrs).
    exists (r :: rs). rewrite <- app_assoc. auto.
Qed.

(** C2: a sequence of [N] valid stop records is projected to a sequence
    of [N] records, the [k]-th of which is the projection of the [k]-th
    input record. *)
Theorem minimize_length_order (stops : list json) :
  Forall stop_record stops ->
  exists lite_data,
    minimize (JList stops) = Ok lite_data /\
    length lite_data = length stops /\
    forall (k : nat) (stop : json),
      stops !! k = Some stop ->
      exists r, lite_data !! k = Some r /\ lite_record stop = Ok r.
Proof.
  intros Hvalid.
  assert (exists rs, Forall2 (fun stop r => lite_record stop = Ok r) stops rs)
    as [rs Hrs].
  { induction Hvalid as [|stop stops Hstop _ [rs IH]].
    - exists []. constructor.
    - destruct (stop_record_lite_record stop Hstop) as [r Hr].
      exists (r :: rs). constructor; assumption. }
  exists rs. unfold minimize; simpl. rewrite (project_loop_ok _ _ _ Hrs). simpl.
  split; [reflexivity|]. split.
  - symmetry. eapply Forall2_length; eassumption.
  - intros k stop Hk.
    destruct (Forall2_lookup_l _ _ _ _ _ Hrs Hk) as (r & Hr & Hproj).
    exists r; auto.
Qed.
End ProjectorFacts.

(** The record of the first example has the four fields, so C1 applies
    to it. *)
Lemma lite_record_renames_witness :
  exists r,
    lite_record Examples.main_st = Ok r /\
    field "i" r = field "stop_id" Examples.main_st /\
    field "n" r = field "name" Examples.main_st /\
    field "l" r = field "lat" Examples.main_st /\
    field "o" r = field "lon" Examples.main_st.
Proof.
  apply (lite_record_renames Examples.main_st).
  repeat split; eexists; reflexivity.
Defined.

Lemma minimize_length_order_witness :
  exists lite_data,
    minimize (JList [Examples.main_st; Examples.elm_ave]) = Ok lite_data /\
    length lite_data = 2%nat /\
    forall (k : nat) (stop : json Literal.finite),
      [Examples.main_st; Examples.elm_ave] !! k = Some stop ->
      exists r, lite_data !! k = Some r /\ lite_record stop = Ok r.
Proof.
  apply (minimize_length_order [Examples.main_st; Examples.elm_ave]).
  repeat constructor; eexists; reflexivity.
Defined.

Lemma lite_record_locality_witness :
  (forall v, field "locality" Examples.no_locality = Some v ->
             field "c" (JDict [Examples.str_field "i" "7";
                               Examples.str_field "n" "Elm Ave";
                               Examples.float_field "l" "41.0";
                               Examples.float_field "o" "-72.0";
                               (lit "c", JNull)]) = Some v) /\
  (field "locality" Examples.no_locality = None ->
   field "c" (JDict [Examples.str_field "i" "7";
                     Examples.str_field "n" "Elm Ave";
                     Examples.float_field "l" "41.0";
                     Examples.float_field "o" "-72.0";
                     (lit "c", JNull)]) = Some (JStr (lit ""))).
Proof.
  apply (lite_record_locality Examples.no_locality). reflexivity.
Defined.

(** C3 as stated fails: a [locality] that is [null] is copied to [c], it
    is not replaced by the empty string. *)
Lemma locality_null_counterexample :
  ~ (forall stop r : json Literal.finite,
       lite_record stop = Ok r ->
       (forall v, field "locality" stop = Some v -> v <> JNull ->
                  field "c" r = Some v) /\
       (field "locality" stop = None \/ field "locality" stop = Some JNull ->
        field "c" r = Some (JStr (lit "")))).
Proof.
  intros claim.
  destruct (claim Examples.no_locality _ eq_refl) as [_ Hnull].
  specialize (Hnull (or_intror eq_refl)). discriminate Hnull.
Qed.

(** ** Failures before the output file is opened *)

Section ScriptFacts.
Context {finite : Type}.
Variable finite_repr : finite -> str.
Variable float_of_literal : str -> pyfloat finite.
Variable library_str : exn -> str.
#[local] Abbreviation json := (json finite).
#[local] Abbreviation load := (load_stops float_of_literal).
#[local] Abbreviation body := (try_body finite_repr float_of_literal).
#[local] Abbreviation run :=
  (optimize_data finite_repr float_of_literal library_str).

Lemma open_r_world (path : string) (w : world) : fst (open_r path w) = w.
Proof.
  unfold open_r. destruct (files w !! path) as [f|]; [|reflexivity].
  destruct (readable f); reflexivity.
Qed.

Lemma load_world (w : world) : fst (load w) = w.
Proof.
  unfold load_stops, io_bind, lift.
  pose proof (open_r_world "stops.txt" w) as H.
  destruct (open_r "stops.txt" w) as [w' [s|e]]; simpl in *; congruence.
Qed.




(** ** A record without a required field *)



End ScriptFacts.



(** ** What a run may change *)

Lemma writes_only_lift {A} (path : string) (r : result A) :
  writes_only path (lift r).
Proof. intros w p _. reflexivity. Qed.

Lemma writes_only_bind {A B} (path : string) (m : io A) (k : A -> io B) :
  writes_only path m -> (forall a, writes_only path (k a)) ->
  writes_only path (io_bind m k).
Proof.
  intros Hm Hk w p Hp. unfold io_bind.
  specialize (Hm w p Hp). destruct (m w) as [w1 [a|e]]; simpl in *.
  - rewrite (Hk a w1 p Hp). exact Hm.
  - exact Hm.
Qed.

Lemma writes_only_open_r (path from : string) :
  writes_only path (open_r from).
Proof. intros w p _. rewrite open_r_world. reflexivity. Qed.

Lemma writes_only_open_w (path : string) : writes_only path (open_w path).
Proof.
  intros w p Hp. unfold open_w.
  destruct (files w !! path) as [f|].
  - destruct (writable f); simpl; [|reflexivity].
    apply lookup_insert_ne; congruence.
  - destruct (creatable w); simpl; [|reflexivity].
    apply lookup_insert_ne; congruence.
Qed.

Lemma writes_only_write_chunks (path : string) (chunks : list str) :
  writes_only path (write_chunks path chunks).
Proof.
  intros w p Hp. unfold write_chunks.
  destruct (encode_chunks (linesep w) chunks) as [bytes e].
  assert (match files w !! path with
          | Some f =>
              <[path := File (readable f) (writable f)
                          (content f ++ take (N.to_nat (room w)) bytes)]>
                (files w)
          | None => files w
          end !! p = files w !! p) as Hfs.
  { destruct (files w !! path); [|reflexivity].
    apply lookup_insert_ne; congruence. }
  destruct (N.of_nat (length bytes) <=? room w); [destruct e|]; exact Hfs.
Qed.

Lemma writes_only_getsize (path from : string) :
  writes_only path (getsize from).
Proof.
  intros w p _. unfold getsize. destruct (files w !! from); reflexivity.
Qed.

Lemma writes_only_print (path : string) (line : str) :
  writes_only path (print line).
Proof. intros w p _. reflexivity. Qed.

Create HintDb frame.
#[local] Hint Resolve writes_only_lift writes_only_open_r
  writes_only_open_w writes_only_write_chunks writes_only_getsize
  writes_only_print : frame.

Ltac frame := repeat (apply writes_only_bind; [|intros ?]); auto with frame.

Section Frame.
Context {finite : Type}.
Variable finite_repr : finite -> str.
Variable float_of_literal : str -> pyfloat finite.
Variable library_str : exn -> str.

Lemma writes_only_try_body :
  writes_only "stops_lite.json" (try_body finite_repr float_of_literal).
Proof.
  unfold try_body, load_stops, dump_lite, report. frame.
Qed.

(** C10: in every run, whether it succeeds or fails, each file other than
    [stops_lite.json] is after the run what it was before; [stops.txt] in
    particular keeps its bytes (and its permissions). *)
Theorem input_untouched (w : world) :
  (forall p : string,
     p <> "stops_lite.json"%string ->
     files (fst (optimize_data finite_repr float_of_literal library_str w)) !! p
     = files w !! p) /\
  files (fst (optimize_data finite_repr float_of_literal library_str w))
    !! "stops.txt"%string
  = files w !! "stops.txt"%string.
Proof.
  assert (writes_only "stops_lite.json"
            (optimize_data finite_repr float_of_literal library_str)) as H.
  { intros w0 p Hp. unfold optimize_data.
    pose proof (writes_only_try_body w0 p Hp) as Hbody.
    destruct (try_body finite_repr float_of_literal w0) as [w1 [[]|e]];
      exact Hbody. }
  split.
  - intros p Hp. apply H, Hp.
  - apply H. discriminate.
Qed.
End Frame.

Lemma input_untouched_witness :
  files (fst (Literal.run (Examples.world_of Examples.elm_ave_txt)))
    !! "stops.txt"%string
  = files (Examples.world_of Examples.elm_ave_txt) !! "stops.txt"%string.
Proof.
  apply (proj1 (input_untouched Literal.finite_repr Literal.float_of_literal
                  Literal.library_str
                  (Examples.world_of Examples.elm_ave_txt))).
  discriminate.
Defined.

(** ** Numerals *)

Lemma is_digit_spec (c : N) : is_digit c = true <-> 48 <= c <= 57.
Proof. unfold is_digit. rewrite andb_true_iff, !N.leb_le. tauto. Qed.

Lemma int_of_digits_snoc (ds : str) (c : N) :
  int_of_digits (ds ++ [c]) = 10 * int_of_digits ds + (c - 48).
Proof. unfold int_of_digits. rewrite fold_left_app. reflexivity. Qed.

Lemma div_mod_10 (n : N) : n = 10 * (n / 10) + n mod 10 /\ n mod 10 < 10.
Proof.
  split; [apply N.div_mod; lia | apply N.mod_upper_bound; lia].
Qed.

(** Division by ten with the quotient and the remainder as unknowns. *)
Ltac by_div_mod_10 n :=
  let Hdm := fresh "Hdm" in
  let Hr := fresh "Hr" in
  destruct (div_mod_10 n) as [Hdm Hr];
  generalize dependent (n mod 10); generalize dependent (n / 10);
  intros; lia.

Lemma dec_digits_S (fuel : nat) (n : N) (acc : str) :
  dec_digits (S fuel) n acc =
    if n <? 10 then (48 + n mod 10) :: acc
    else dec_digits fuel (n / 10) ((48 + n mod 10) :: acc).
Proof. reflexivity. Qed.

Lemma dec_digits_spec (fuel : nat) (n : N) (acc : str) :
  n < 10 ^ N.of_nat (S fuel) ->
  exists c ds,
    dec_digits (S fuel) n acc = (c :: ds) ++ acc /\
    digits (c :: ds) /\ int_of_digits (c :: ds) = n /\
    (c = 48 -> n = 0 /\ ds = []).
Proof.
  revert n acc. induction fuel as [|fuel IH]; intros n acc Hn.
  - change (10 ^ N.of_nat 1) with 10 in Hn.
    exists (48 + n mod 10), []. rewrite dec_digits_S.
    apply N.ltb_lt in Hn as Hn'. rewrite Hn'.
    rewrite (N.mod_small n 10) by assumption.
    repeat split.
    + repeat constructor. apply is_digit_spec. lia.
    + unfold int_of_digits; simpl. lia.
    + lia.
  - rewrite dec_digits_S. destruct (n <? 10) eqn:Hlt.
    + apply N.ltb_lt in Hlt. rewrite (N.mod_small n 10) by assumption.
      exists (48 + n), []. repeat split.
      * repeat constructor. apply is_digit_spec. lia.
      * unfold int_of_digits; simpl. lia.
      * lia.
    + apply N.ltb_ge in Hlt.
      assert (n / 10 < 10 ^ N.of_nat (S fuel)) as Hq.
      { apply N.Div0.div_lt_upper_bound.
        rewrite <- N.pow_succ_r'. rewrite <- Nat2N.inj_succ. exact Hn. }
      destruct (IH (n / 10) ((48 + n mod 10) :: acc) Hq)
        as (c & ds & Heq & Hds & Hval & Hzero).
      exists c, (ds ++ [48 + n mod 10]). rewrite Heq.
      change (c :: ds ++ [48 + n mod 10]) with ((c :: ds) ++ [48 + n mod 10]).
      split; [|split; [|split]].
      * rewrite <- app_assoc. reflexivity.
      * apply Forall_app; split; [exact Hds|].
        repeat constructor. apply is_digit_spec. by_div_mod_10 n.
      * rewrite int_of_digits_snoc, Hval. by_div_mod_10 n.
      * intros Hc. destruct (Hzero Hc) as [Hz _]. exfalso. by_div_mod_10 n.
Qed.

Lemma dec_spec (n : N) :
  exists c ds,
    dec n = c :: ds /\ digits (c :: ds) /\ int_of_digits (c :: ds) = n /\
    (c = 48 -> n = 0 /\ ds = []).
Proof.
  unfold dec.
  destruct (dec_digits_spec (N.to_nat (N.size n)) n []) as (c & ds & H & H').
  - rewrite Nat2N.inj_succ, N2Nat.id, N.pow_succ_r'.
    pose proof (N.size_gt n).
    assert (2 ^ N.size n <= 10 ^ N.size n) by (apply N.pow_le_mono_l; lia).
    lia.
  - exists c, ds. rewrite H, app_nil_r. auto.
Qed.

Lemma integer_shape_int_repr (z : Z) : integer_shape (int_repr z).
Proof.
  destruct z as [|p|p]; simpl.
  - exists [], 48, []. repeat split; auto. constructor.
  - destruct (dec_spec (N.pos p)) as (c & ds & -> & Hd & _ & Hz).
    exists [], c, ds. inversion Hd; subst. repeat split; auto.
    intros Hc. apply Hz, Hc.
  - destruct (dec_spec (N.pos p)) as (c & ds & -> & Hd & _ & Hz).
    exists [ch "-"], c, ds. inversion Hd; subst. repeat split; auto.
    intros Hc. apply Hz, Hc.
Qed.

Lemma parse_int_int_repr (z : Z) : parse_int (int_repr z) = z.
Proof.
  destruct z as [|p|p]; simpl.
  - reflexivity.
  - destruct (dec_spec (N.pos p)) as (c & ds & Heq & Hd & Hval & _).
    rewrite Heq. unfold parse_int.
    inversion Hd as [|? ? Hc _]; subst. apply is_digit_spec in Hc.
    replace (c =? ch "-") with false
      by (symmetry; apply N.eqb_neq; change (ch "-") with 45; lia).
    rewrite Hval. reflexivity.
  - destruct (dec_spec (N.pos p)) as (c & ds & Heq & Hd & Hval & _).
    rewrite Heq. unfold parse_int.
    change (ch "-" =? ch "-") with true. cbv iota. rewrite Hval. reflexivity.
Qed.

(** ** The number pattern *)

(** Character constants as numbers. *)
Ltac chars :=
  repeat match goal with
         | |- context [ch ?a] =>
             let v := eval vm_compute in (ch a) in change (ch a) with v
         | H : context [ch ?a] |- _ =>
             let v := eval vm_compute in (ch a) in change (ch a) with v in H
         end;
  change quote with 34 in *; change backslash with 92 in *.

(** Boolean tests as propositions. *)
Ltac b2p :=
  unfold scalar in *;
  unfold is_digit, is_ws, is_cont, printable, is_surrogate,
    is_high_surrogate, is_low_surrogate in *;
  unfold in_range in *;
  repeat match goal with
         | H : _ |- _ =>
             first [ rewrite andb_true_iff in H | rewrite andb_false_iff in H
                   | rewrite orb_true_iff in H | rewrite orb_false_iff in H
                   | rewrite negb_true_iff in H | rewrite negb_false_iff in H
                   | rewrite N.eqb_eq in H | rewrite N.eqb_neq in H
                   | rewrite N.leb_le in H | rewrite N.leb_gt in H
                   | rewrite N.ltb_lt in H | rewrite N.ltb_ge in H ]
         end;
  repeat first [ rewrite andb_true_iff | rewrite andb_false_iff
               | rewrite orb_true_iff | rewrite orb_false_iff
               | rewrite negb_true_iff | rewrite negb_false_iff
               | rewrite N.eqb_eq | rewrite N.eqb_neq
               | rewrite N.leb_le | rewrite N.leb_gt
               | rewrite N.ltb_lt | rewrite N.ltb_ge ].

(** Settle a boolean test of the goal from the arithmetic at hand. *)
Ltac test b :=
  let E := fresh "E" in
  destruct b eqn:E; try (exfalso; chars; b2p; lia).

Lemma span_digits_app (d t : str) :
  digits d -> stops_digits t -> span_digits (d ++ t) = (d, t).
Proof.
  intros Hd Ht. induction Hd as [|c d Hc _ IH]; simpl.
  - destruct t as [|c t]; [reflexivity|]. simpl in *. rewrite Ht. reflexivity.
  - rewrite Hc, IH. reflexivity.
Qed.

Lemma span_digits_shape (s d r : str) :
  span_digits s = (d, r) -> s = d ++ r /\ digits d /\ stops_digits r.
Proof.
  revert d r. induction s as [|c s IH]; simpl; intros d r.
  - intros [= <- <-]. repeat split. constructor.
  - destruct (is_digit c) eqn:Hc.
    + destruct (span_digits s) as [d' r']. intros [= <- <-].
      destruct (IH d' r' eq_refl) as (-> & Hd & Hr).
      repeat split; [constructor; assumption|assumption].
    + intros [= <- <-]. repeat split; [constructor|exact Hc].
Qed.

Lemma match_integer_app (i t : str) :
  integer_shape i -> stops_digits t -> match_integer (i ++ t) = Some (i, t).
Proof.
  intros (sign & c & d & -> & Hsign & Hc & Hd & Hzero) Ht.
  assert (match_integer ((c :: d) ++ t) = Some (c :: d, t)) as Hplain.
  { unfold match_integer. simpl. test (c =? ch "-").
    destruct (c =? ch "0") eqn:E0.
    - apply N.eqb_eq in E0. rewrite (Hzero E0). reflexivity.
    - rewrite Hc, span_digits_app by assumption. reflexivity. }
  destruct Hsign as [-> | ->]; [exact Hplain|].
  unfold match_integer in *. simpl in *.
  test (c =? ch "-"). destruct (c =? ch "0").
  - injection Hplain as <- <-. reflexivity.
  - rewrite Hc in *. destruct (span_digits (d ++ t)) as [d' r'].
    injection Hplain as <- <-. reflexivity.
Qed.

Lemma match_integer_shape (s i r : str) :
  match_integer s = Some (i, r) -> s = i ++ r /\ integer_shape i.
Proof.
  assert (forall sign s1,
            (sign = [] \/ sign = [ch "-"]) ->
            match s1 with
            | c :: s2 =>
                if c =? ch "0" then Some (sign ++ [c], s2)
                else if is_digit c
                     then let (d, r) := span_digits s2 in Some (sign ++ c :: d, r)
                     else None
            | [] => None
            end = Some (i, r) ->
            sign ++ s1 = i ++ r /\ integer_shape i) as Hbody.
  { intros sign [|c s2] Hsign; [discriminate|].
    destruct (c =? ch "0") eqn:E0.
    - intros [= <- <-]. apply N.eqb_eq in E0. subst c. split.
      + rewrite <- app_assoc. reflexivity.
      + exists sign, (ch "0"), []. repeat split; auto. constructor.
    - destruct (is_digit c) eqn:Hc; [|discriminate].
      destruct (span_digits s2) as [d r'] eqn:Hspan. intros [= <- <-].
      destruct (span_digits_shape _ _ _ Hspan) as (-> & Hd & _). split.
      + rewrite <- app_assoc. reflexivity.
      + exists sign, c, d. repeat split; auto.
        intros ->. discriminate E0. }
  unfold match_integer. destruct s as [|c s'].
  - discriminate.
  - destruct (c =? ch "-") eqn:Em.
    + apply N.eqb_eq in Em. subst c. apply (Hbody [ch "-"] s'). auto.
    + apply (Hbody [] (c :: s')). auto.
Qed.

Lemma match_frac_app (f t : str) :
  frac_shape f -> stops_digits t ->
  (f = [] -> match t with c :: _ => c <> ch "." | [] => True end) ->
  match_frac (f ++ t) = (f, t).
Proof.
  intros [-> | (c & d & -> & Hd)] Ht Hdot.
  - destruct t as [|c t]; [reflexivity|]. simpl.
    specialize (Hdot eq_refl). apply N.eqb_neq in Hdot. rewrite Hdot.
    reflexivity.
  - unfold match_frac. simpl app. change (ch "." =? ch ".") with true.
    cbv iota. change (c :: d ++ t) with ((c :: d) ++ t).
    rewrite span_digits_app by assumption. reflexivity.
Qed.

Lemma match_frac_shape (s f r : str) :
  match_frac s = (f, r) -> s = f ++ r /\ frac_shape f.
Proof.
  unfold match_frac. destruct s as [|c s'].
  - intros [= <- <-]. split; [reflexivity|left; reflexivity].
  - destruct (c =? ch ".") eqn:E.
    + apply N.eqb_eq in E. subst c.
      destruct (span_digits s') as [[|c d] r'] eqn:Hspan.
      * intros [= <- <-]. split; [reflexivity|left; reflexivity].
      * intros [= <- <-].
        destruct (span_digits_shape _ _ _ Hspan) as (-> & Hd & _).
        split; [reflexivity|]. right. exists c, d. auto.
    + intros [= <- <-]. split; [reflexivity|left; reflexivity].
Qed.

Lemma match_exp_app (e t : str) :
  exp_shape e -> stops_digits t ->
  (e = [] -> match t with
             | c :: _ => c <> ch "e" /\ c <> ch "E"
             | [] => True
             end) ->
  match_exp (e ++ t) = (e, t).
Proof.
  intros [-> | (x & sign & c & d & -> & Hx & Hsign & Hd)] Ht He.
  - destruct t as [|c t]; [reflexivity|]. simpl.
    destruct (He eq_refl) as [H1 H2].
    apply N.eqb_neq in H1, H2. rewrite H1, H2. reflexivity.
  - inversion Hd as [|? ? Hc Hd']; subst.
    assert (span_digits (c :: d ++ t) = (c :: d, t)) as Hspan
        by (apply (span_digits_app (c :: d)); assumption).
    assert ((x =? ch "e") || (x =? ch "E") = true) as Hx'
        by (destruct Hx as [-> | ->]; reflexivity).
    unfold match_exp.
    destruct Hsign as [-> | [-> | ->]]; simpl app; cbv beta iota; rewrite Hx'.
    + test ((c =? ch "-") || (c =? ch "+")). rewrite Hspan. reflexivity.
    + change ((ch "-" =? ch "-") || (ch "-" =? ch "+")) with true.
      cbv beta iota. rewrite Hspan. reflexivity.
    + change ((ch "+" =? ch "-") || (ch "+" =? ch "+")) with true.
      cbv beta iota. rewrite Hspan. reflexivity.
Qed.

Lemma match_exp_shape (s e r : str) :
  match_exp s = (e, r) -> s = e ++ r /\ exp_shape e.
Proof.
  unfold match_exp. destruct s as [|x s'].
  - intros [= <- <-]. split; [reflexivity|left; reflexivity].
  - destruct ((x =? ch "e") || (x =? ch "E")) eqn:Ex.
    + assert (forall sign s'',
                (sign = [] \/ sign = [ch "-"] \/ sign = [ch "+"]) ->
                s' = sign ++ s'' ->
                match span_digits s'' with
                | ([], _) => ([], x :: s')
                | (d, r) => (x :: sign ++ d, r)
                end = (e, r) ->
                x :: s' = e ++ r /\ exp_shape e) as Hbody.
      { intros sign s'' Hsign ->.
        destruct (span_digits s'') as [[|c d] r'] eqn:Hspan.
        - intros [= <- <-]. split; [reflexivity|left; reflexivity].
        - intros [= <- <-].
          destruct (span_digits_shape _ _ _ Hspan) as (-> & Hd & _). split.
          + simpl. rewrite <- app_assoc. reflexivity.
          + right. exists x, sign, c, d. repeat split; auto.
            apply orb_true_iff in Ex as [Ex | Ex];
              apply N.eqb_eq in Ex; auto. }
      destruct s' as [|c' t].
      * apply (Hbody [] []); auto.
      * destruct ((c' =? ch "-") || (c' =? ch "+")) eqn:Es.
        -- apply orb_true_iff in Es as [Es | Es]; apply N.eqb_eq in Es;
             subst c'.
           ++ apply (Hbody [ch "-"] t); auto.
           ++ apply (Hbody [ch "+"] t); auto.
        -- apply (Hbody [] (c' :: t)); auto.
    + intros [= <- <-]. split; [reflexivity|left; reflexivity].
Qed.

Lemma delimited_stops_digits (rest : str) : delimited rest -> stops_digits rest.
Proof.
  destruct rest as [|c rest]; simpl; [trivial|].
  intros [-> | [-> | ->]]; reflexivity.
Qed.

Lemma match_number_app (i f e rest : str) :
  integer_shape i -> frac_shape f -> exp_shape e -> delimited rest ->
  match_number (i ++ f ++ e ++ rest) = Some (i, f, e, rest).
Proof.
  intros Hi Hf He Hrest.
  pose proof (delimited_stops_digits rest Hrest) as Hstop.
  assert (stops_digits (e ++ rest)) as Hse.
  { destruct He as [-> | (x & sign & c & d & -> & Hx & _)]; [exact Hstop|].
    destruct Hx as [-> | ->]; reflexivity. }
  assert (stops_digits (f ++ e ++ rest)) as Hsf.
  { destruct Hf as [-> | (c & d & -> & _)]; [exact Hse|reflexivity]. }
  unfold match_number.
  rewrite (match_integer_app i _ Hi Hsf).
  rewrite (match_frac_app f _ Hf Hse).
  - rewrite (match_exp_app e _ He Hstop); [reflexivity|].
    intros _. destruct rest as [|c rest]; [trivial|].
    simpl in Hrest. chars. split; lia.
  - intros _.
    destruct He as [-> | (x & sign & c & d & -> & Hx & _)].
    + destruct rest as [|c rest]; [trivial|]. simpl in *. chars. lia.
    + simpl. chars. lia.
Qed.

Lemma match_number_shape (s i f e r : str) :
  match_number s = Some (i, f, e, r) ->
  s = i ++ f ++ e ++ r /\ integer_shape i /\ frac_shape f /\ exp_shape e.
Proof.
  unfold match_number.
  destruct (match_integer s) as [[i' s1]|] eqn:Hi; [|discriminate].
  destruct (match_frac s1) as [f' s2] eqn:Hf.
  destruct (match_exp s2) as [e' s3] eqn:He.
  intros [= <- <- <- <-].
  destruct (match_integer_shape _ _ _ Hi) as (-> & Hi').
  destruct (match_frac_shape _ _ _ Hf) as (-> & Hf').
  destruct (match_exp_shape _ _ _ He) as (-> & He').
  auto.
Qed.

(** What the decoder hands to [float] is a float literal. *)
Lemma float_literal_matched (s i f e r : str) :
  match_number s = Some (i, f, e, r) ->
  negb (is_nil f && is_nil e) = true ->
  float_literal (i ++ f ++ e) = true.
Proof.
  intros Hm Hfe.
  destruct (match_number_shape _ _ _ _ _ Hm) as (_ & Hi & Hf & He).
  unfold float_literal.
  pose proof (match_number_app i f e [] Hi Hf He I) as H.
  rewrite app_nil_r in H. rewrite H. exact Hfe.
Qed.

(** A float literal is matched whole wherever a value may stand. *)
Lemma float_literal_app (t rest : str) :
  float_literal t = true -> delimited rest ->
  exists i f e,
    t = i ++ f ++ e /\ negb (is_nil f && is_nil e) = true /\
    integer_shape i /\ frac_shape f /\ exp_shape e /\
    match_number (t ++ rest) = Some (i, f, e, rest).
Proof.
  unfold float_literal.
  destruct (match_number t) as [[[[i f] e] [|c r]]|] eqn:Hm;
    try discriminate.
  intros Hfe Hrest.
  destruct (match_number_shape _ _ _ _ _ Hm) as (Ht & Hi & Hf & He).
  rewrite app_nil_r in Ht. subst t.
  exists i, f, e. repeat split; try assumption.
  rewrite <- !app_assoc. apply match_number_app; assumption.
Qed.


(** ** Escapes *)

Lemma all_from_spec (fuel : nat) (n : N) (p : N -> bool) :
  all_from fuel n p = true ->
  forall m, n <= m < n + N.of_nat fuel -> p m = true.
Proof.
  revert n. induction fuel as [|fuel IH]; intros n H m Hm.
  - lia.
  - simpl in H. apply andb_true_iff in H as [Hn Hrest].
    destruct (N.eq_dec m n) as [-> | Hne]; [exact Hn|].
    apply (IH (N.succ n) Hrest). lia.
Qed.

Lemma all_from_N (k n : N) (p : N -> bool) :
  all_from (N.to_nat k) n p = true ->
  forall m, n <= m < n + k -> p m = true.
Proof.
  intros H m Hm. apply (all_from_spec _ _ _ H). rewrite N2Nat.id. exact Hm.
Qed.

(** The four digits [hex4] writes are read back as the number. *)
Lemma decode_hex4 (n : N) :
  n < 65536 ->
  match hex4 n with
  | [x3; x2; x1; x0] => decode_uXXXX x3 x2 x1 x0 = Some n
  | _ => False
  end.
Proof.
  intros Hn.
  assert (all_from (N.to_nat 65536) 0
            (fun n => match hex4 n with
                      | [x3; x2; x1; x0] =>
                          match decode_uXXXX x3 x2 x1 x0 with
                          | Some m => m =? n
                          | None => false
                          end
                      | _ => false
                      end) = true) as Hall by (vm_compute; reflexivity).
  pose proof (all_from_N _ _ _ Hall n ltac:(lia)) as H. clear Hall.
  cbv beta in H. unfold hex4 in *.
  destruct (decode_uXXXX _ _ _ _) as [m|]; [|discriminate].
  apply N.eqb_eq in H. congruence.
Qed.

(** The two escapes written for a character beyond the basic plane are a
    high and a low surrogate that join to the character. *)
Lemma surrogate_pair (c : N) :
  65536 <= c < 1114112 ->
  let n := c - 65536 in
  let s1 := N.lor 55296 (N.land (N.shiftr n 10) 1023) in
  let s2 := N.lor 56320 (N.land n 1023) in
  s1 < 65536 /\ s2 < 65536 /\
  is_high_surrogate s1 = true /\ is_low_surrogate s2 = true /\
  65536 + N.lor (N.shiftl (s1 - 55296) 10) (s2 - 56320) = c.
Proof.
  intros Hc.
  assert (all_from (N.to_nat 1048576) 65536
            (fun c =>
               let n := c - 65536 in
               let s1 := N.lor 55296 (N.land (N.shiftr n 10) 1023) in
               let s2 := N.lor 56320 (N.land n 1023) in
               (s1 <? 65536) && (s2 <? 65536)
               && is_high_surrogate s1 && is_low_surrogate s2
               && (65536 + N.lor (N.shiftl (s1 - 55296) 10) (s2 - 56320) =? c))
          = true) as Hall by (vm_compute; reflexivity).
  pose proof (all_from_N _ _ _ Hall c ltac:(lia)) as H. clear Hall.
  cbv beta zeta in *.
  rewrite !andb_true_iff, !N.ltb_lt, N.eqb_eq in H. tauto.
Qed.

Lemma scanstring_quote (s : str) : scanstring (quote :: s) = Some ([], s).
Proof. reflexivity. Qed.

Lemma scanstring_plain (c : N) (s : str) :
  c <> quote -> c <> backslash -> 32 <= c ->
  scanstring (c :: s) = append c (scanstring s).
Proof.
  intros Hq Hb Hc. simpl.
  apply N.eqb_neq in Hq, Hb. rewrite Hq, Hb.
  apply N.ltb_ge in Hc. rewrite Hc. reflexivity.
Qed.

Lemma scanstring_unescape (esc c : N) (s : str) :
  unescape esc = Some c ->
  scanstring (backslash :: esc :: s) = append c (scanstring s).
Proof.
  intros He. simpl.
  destruct (esc =? ch "u") eqn:Eu.
  - apply N.eqb_eq in Eu. subst esc. discriminate He.
  - rewrite He. reflexivity.
Qed.

Lemma scanstring_u (x3 x2 x1 x0 uni : N) (t : str) :
  decode_uXXXX x3 x2 x1 x0 = Some uni ->
  (is_high_surrogate uni = true -> low_escape_next t = false) ->
  scanstring (backslash :: ch "u" :: x3 :: x2 :: x1 :: x0 :: t)
  = append uni (scanstring t).
Proof.
  intros Hd Hlow. cbn [scanstring].
  change (backslash =? quote) with false.
  change (backslash =? backslash) with true.
  change (ch "u" =? ch "u") with true. cbv iota. rewrite Hd.
  destruct (is_high_surrogate uni); [|reflexivity].
  specialize (Hlow eq_refl).
  destruct t as [|b [|u [|y3 [|y2 [|y1 [|y0 s4]]]]]]; try reflexivity.
  unfold low_escape_next in Hlow.
  destruct (b =? backslash); [|reflexivity].
  destruct (u =? ch "u"); [|reflexivity]. simpl in *.
  destruct (decode_uXXXX y3 y2 y1 y0) as [uni2|]; [|discriminate].
  rewrite Hlow. reflexivity.
Qed.

Lemma scanstring_pair (x3 x2 x1 x0 y3 y2 y1 y0 uni uni2 : N) (t : str) :
  decode_uXXXX x3 x2 x1 x0 = Some uni ->
  decode_uXXXX y3 y2 y1 y0 = Some uni2 ->
  is_high_surrogate uni = true -> is_low_surrogate uni2 = true ->
  scanstring (backslash :: ch "u" :: x3 :: x2 :: x1 :: x0
                :: backslash :: ch "u" :: y3 :: y2 :: y1 :: y0 :: t)
  = append (65536 + N.lor (N.shiftl (uni - 55296) 10) (uni2 - 56320))
      (scanstring t).
Proof.
  intros Hd Hd2 Hh Hl. cbn [scanstring].
  change (backslash =? quote) with false.
  change (backslash =? backslash) with true.
  change (ch "u" =? ch "u") with true. cbv iota.
  rewrite Hd, Hh. cbn [andb]. rewrite Hd2, Hl. reflexivity.
Qed.

(** The branches of [escape_char], the tests settled. *)
Ltac escape_cases c :=
  unfold escape_char;
  destruct (c =? backslash) eqn:Eb;
    [apply N.eqb_eq in Eb; subst c|];
  [|destruct (c =? quote) eqn:Eq;
    [apply N.eqb_eq in Eq; subst c|]];
  [| |destruct (c =? 8) eqn:E8;
    [apply N.eqb_eq in E8; subst c|]];
  [| | |destruct (c =? 12) eqn:E12;
    [apply N.eqb_eq in E12; subst c|]];
  [| | | |destruct (c =? 10) eqn:E10;
    [apply N.eqb_eq in E10; subst c|]];
  [| | | | |destruct (c =? 13) eqn:E13;
    [apply N.eqb_eq in E13; subst c|]];
  [| | | | | |destruct (c =? 9) eqn:E9;
    [apply N.eqb_eq in E9; subst c|]];
  [| | | | | | |destruct ((32 <=? c) && (c <=? 126)) eqn:Ep];
  [| | | | | | | |destruct (c <? 65536) eqn:Eu].

Lemma scanstring_escape_char (c : N) (t : str) :
  c < 1114112 ->
  (is_high_surrogate c = true -> low_escape_next t = false) ->
  scanstring (escape_char c ++ t) = append c (scanstring t).
Proof.
  intros Hc Hlow. escape_cases c.
  - apply scanstring_unescape. reflexivity.
  - apply scanstring_unescape. reflexivity.
  - apply scanstring_unescape. reflexivity.
  - apply scanstring_unescape. reflexivity.
  - apply scanstring_unescape. reflexivity.
  - apply scanstring_unescape. reflexivity.
  - apply scanstring_unescape. reflexivity.
  - apply scanstring_plain; chars; b2p; lia.
  - apply N.ltb_lt in Eu. pose proof (decode_hex4 c Eu) as Hd.
    unfold hex4 in *. apply scanstring_u; assumption.
  - apply N.ltb_ge in Eu.
    destruct (surrogate_pair c ltac:(lia)) as (H1 & H2 & Hh & Hl & Hj).
    cbv zeta in *.
    pose proof (decode_hex4 _ H1) as Hd1. pose proof (decode_hex4 _ H2) as Hd2.
    unfold hex4 in *. cbn [app].
    rewrite (scanstring_pair _ _ _ _ _ _ _ _ _ _ t Hd1 Hd2 Hh Hl).
    rewrite Hj. reflexivity.
Qed.

Lemma low_escape_next_u (x3 x2 x1 x0 uni : N) (t : str) :
  decode_uXXXX x3 x2 x1 x0 = Some uni ->
  low_escape_next (backslash :: ch "u" :: x3 :: x2 :: x1 :: x0 :: t)
  = is_low_surrogate uni.
Proof. intros Hd. cbn [low_escape_next]. rewrite Hd. reflexivity. Qed.

Lemma low_escape_next_escape_char (c : N) (t : str) :
  c < 1114112 -> is_low_surrogate c = false ->
  low_escape_next (escape_char c ++ t) = false.
Proof.
  intros Hc Hlow. escape_cases c.
  - reflexivity.
  - reflexivity.
  - reflexivity.
  - reflexivity.
  - reflexivity.
  - reflexivity.
  - reflexivity.
  - cbn [app low_escape_next]. rewrite Eb. reflexivity.
  - apply N.ltb_lt in Eu. pose proof (decode_hex4 c Eu) as Hd.
    unfold hex4 in *. cbn [app].
    rewrite (low_escape_next_u _ _ _ _ _ _ Hd). exact Hlow.
  - apply N.ltb_ge in Eu.
    destruct (surrogate_pair c ltac:(lia)) as (H1 & _ & Hh & _).
    cbv zeta in *. pose proof (decode_hex4 _ H1) as Hd1.
    unfold hex4 in *. cbn [app].
    rewrite (low_escape_next_u _ _ _ _ _ _ Hd1).
    clear - Hh. unfold is_high_surrogate, is_low_surrogate, in_range in *.
    apply andb_true_iff in Hh as [_ Hh]. apply N.leb_le in Hh.
    apply andb_false_iff. left. apply N.leb_gt. lia.
Qed.

Lemma low_escape_next_quote (rest : str) :
  low_escape_next (quote :: rest) = false.
Proof. reflexivity. Qed.

(** [scanstring] reads back what [encode_basestring_ascii] writes. *)
Lemma scanstring_escape (s rest : str) :
  str_ok s = true ->
  scanstring (flat_map escape_char s ++ quote :: rest) = Some (s, rest).
Proof.
  induction s as [|c s IH]; intros Hok.
  - apply scanstring_quote.
  - simpl in Hok. apply andb_true_iff in Hok as [Hok Hs].
    apply andb_true_iff in Hok as [Hc Hpair]. apply N.ltb_lt in Hc.
    simpl flat_map. rewrite <- app_assoc.
    rewrite scanstring_escape_char.
    + rewrite (IH Hs). reflexivity.
    + exact Hc.
    + intros Hh. rewrite Hh in Hpair. simpl in Hpair.
      destruct s as [|c2 s'].
      * apply low_escape_next_quote.
      * simpl flat_map. rewrite <- app_assoc.
        apply low_escape_next_escape_char.
        -- simpl in Hs. apply andb_true_iff in Hs as [Hs _].
           apply andb_true_iff in Hs as [Hs _]. apply N.ltb_lt in Hs. exact Hs.
        -- apply negb_true_iff. exact Hpair.
Qed.

(** ** The text of a value *)

Lemma join_str_cons (sep a b : str) (l : list str) :
  join_str sep (a :: b :: l) = a ++ sep ++ join_str sep (b :: l).
Proof. reflexivity. Qed.

Lemma join_chunks_cons (sep : chunk) (a b : list chunk) (l : list (list chunk)) :
  join_chunks sep (a :: b :: l) = a ++ sep :: join_chunks sep (b :: l).
Proof. reflexivity. Qed.

Lemma concat_join_chunks (sep : chunk) (items : list (list chunk)) :
  concat (List.map snd (join_chunks sep items))
  = join_str (snd sep) (List.map (fun cs => concat (List.map snd cs)) items).
Proof.
  induction items as [|x items IH]; [reflexivity|].
  destruct items as [|y items]; [reflexivity|].
  rewrite join_chunks_cons, map_app, concat_app.
  cbn [List.map concat] in *. rewrite join_str_cons.
  f_equal. f_equal. exact IH.
Qed.

Section TextFacts.
Context {finite : Type}.
Variable finite_repr : finite -> str.
#[local] Abbreviation json := (json finite).
#[local] Abbreviation enc := (compact finite_repr).

Lemma compact_list (x : json) (l : list json) :
  enc (JList (x :: l))
  = ch "[" :: join_str (lit ",") (List.map enc (x :: l)) ++ [ch "]"].
Proof.
  unfold compact, dumps, dump_chunks.
  change (iterencode finite_repr (lit ",") (lit ":") (JList (x :: l)))
    with ((Bracket, lit "[")
            :: join_chunks (ItemSep, lit ",")
                 (List.map (iterencode finite_repr (lit ",") (lit ":")) (x :: l))
            ++ [(Bracket, lit "]")]).
  set (items := List.map _ (x :: l)).
  cbn [List.map concat snd]. rewrite map_app, concat_app, concat_join_chunks.
  subst items. rewrite List.map_map. reflexivity.
Qed.

Lemma compact_dict (kv : str * json) (d : list (str * json)) :
  enc (JDict (kv :: d))
  = ch "{"
      :: join_str (lit ",")
           (List.map (fun kv => encode_basestring_ascii (fst kv)
                                  ++ ch ":" :: enc (snd kv)) (kv :: d))
      ++ [ch "}"].
Proof.
  unfold compact, dumps, dump_chunks.
  change (iterencode finite_repr (lit ",") (lit ":") (JDict (kv :: d)))
    with ((Bracket, lit "{")
            :: join_chunks (ItemSep, lit ",")
                 (List.map (fun kv : str * json =>
                              let (key, value) := kv in
                              (Key, encode_basestring_ascii key)
                                :: (KeySep, lit ":")
                                :: iterencode finite_repr (lit ",") (lit ":") value)
                           (kv :: d))
            ++ [(Bracket, lit "}")]).
  set (items := List.map _ (kv :: d)).
  cbn [List.map concat snd]. rewrite map_app, concat_app, concat_join_chunks.
  subst items. rewrite List.map_map.
  replace (List.map _ (kv :: d))
    with (List.map (fun kv : str * json =>
                      encode_basestring_ascii (fst kv)
                        ++ ch ":" :: concat (List.map snd
                             (iterencode finite_repr (lit ",") (lit ":") (snd kv))))
                   (kv :: d)).
  - reflexivity.
  - apply List.map_ext. intros [k v]. reflexivity.
Qed.

Lemma join_items_text (items : list json) (rest : str) :
  join_str (lit ",") (List.map enc items) ++ rest = items_text finite_repr items rest.
Proof.
  induction items as [|x items IH]; [reflexivity|].
  destruct items as [|y items]; [reflexivity|].
  cbn [List.map] in *. rewrite join_str_cons, <- !app_assoc, IH.
  reflexivity.
Qed.

Lemma join_members_text (items : list (str * json)) (rest : str) :
  join_str (lit ",")
    (List.map (fun kv => encode_basestring_ascii (fst kv)
                           ++ ch ":" :: enc (snd kv)) items) ++ rest
  = members_text finite_repr items rest.
Proof.
  assert (forall kv t,
            (encode_basestring_ascii (fst kv) ++ ch ":" :: enc (snd kv)) ++ t
            = member_text finite_repr kv t) as Hmember.
  { intros kv t. unfold member_text, encode_basestring_ascii.
    cbn [app]. rewrite <- !app_assoc. reflexivity. }
  induction items as [|x items IH]; [reflexivity|].
  destruct items as [|y items].
  - cbn [List.map join_str members_text]. apply Hmember.
  - change (members_text finite_repr (x :: y :: items) rest)
      with (member_text finite_repr x
              (ch "," :: members_text finite_repr (y :: items) rest)).
    rewrite <- IH, <- Hmember. cbn [List.map]. rewrite join_str_cons.
    rewrite <- !app_assoc. reflexivity.
Qed.

Lemma compact_list_text (x : json) (l : list json) (rest : str) :
  enc (JList (x :: l)) ++ rest
  = ch "[" :: items_text finite_repr (x :: l) (ch "]" :: rest).
Proof.
  rewrite compact_list. cbn [app]. rewrite <- app_assoc, join_items_text.
  reflexivity.
Qed.

Lemma compact_dict_text (kv : str * json) (d : list (str * json)) (rest : str) :
  enc (JDict (kv :: d)) ++ rest
  = ch "{" :: members_text finite_repr (kv :: d) (ch "}" :: rest).
Proof.
  rewrite compact_dict. cbn [app]. rewrite <- app_assoc, join_members_text.
  reflexivity.
Qed.
End TextFacts.

(** ** Reading back what was written *)

Lemma dict_set_fresh {V} (k : str) (v : V) (d : list (str * V)) :
  k ∉ List.map fst d -> dict_set k v d = d ++ [(k, v)].
Proof.
  induction d as [|[k' v'] d IH]; simpl; [reflexivity|].
  rewrite not_elem_of_cons. intros [Hne Hn].
  destruct (str_eqb k' k) eqn:E.
  - apply str_eqb_eq in E. congruence.
  - rewrite IH by assumption. reflexivity.
Qed.

Lemma fold_dict_set_nodup {V} (pairs acc : list (str * V)) :
  NoDup (List.map fst (acc ++ pairs)) ->
  fold_left (fun d kv => dict_set (fst kv) (snd kv) d) pairs acc = acc ++ pairs.
Proof.
  revert acc. induction pairs as [|[k v] pairs IH]; intros acc Hnd; simpl.
  - rewrite app_nil_r. reflexivity.
  - assert (k ∉ List.map fst acc) as Hk.
    { rewrite List.map_app in Hnd. apply NoDup_app in Hnd as (_ & Hdisj & _).
      intros Hin. apply (Hdisj k Hin). simpl. apply elem_of_cons. auto. }
    rewrite (dict_set_fresh k v acc Hk). rewrite IH.
    + rewrite <- app_assoc. reflexivity.
    + rewrite <- app_assoc. exact Hnd.
Qed.

Lemma dict_of_pairs_nodup {V} (d : list (str * V)) :
  NoDup (List.map fst d) -> dict_of_pairs d = d.
Proof. intros Hnd. apply (fold_dict_set_nodup d []). exact Hnd. Qed.

Lemma skip_ws_head (c : N) (s : str) :
  is_ws c = false -> skip_ws (c :: s) = c :: s.
Proof. intros H. simpl. rewrite H. reflexivity. Qed.

Lemma starts_with_head (a h : N) (p s : str) :
  a <> h -> starts_with (a :: p) (h :: s) = None.
Proof. intros H. simpl. apply N.eqb_neq in H. rewrite H. reflexivity. Qed.

(** String constants as lists of numbers. *)
Ltac lits :=
  repeat match goal with
         | |- context [lit ?a] =>
             let v := eval vm_compute in (lit a) in change (lit a) with v
         end.

Section RoundTrip.
Context {finite : Type}.
Variable finite_repr : finite -> str.
Variable float_of_literal : str -> pyfloat finite.
#[local] Abbreviation json := (json finite).
#[local] Abbreviation enc := (compact finite_repr).
#[local] Abbreviation wf := (well_formed finite_repr float_of_literal).
#[local] Abbreviation scan := (scan_once float_of_literal).

Lemma well_formed_list (l : list json) : wf (JList l) <-> Forall wf l.
Proof.
  induction l as [|x l IH]; simpl.
  - split; [constructor|trivial].
  - rewrite List.Forall_cons_iff. simpl in IH. rewrite <- IH. reflexivity.
Qed.

Lemma well_formed_dict (d : list (str * json)) :
  wf (JDict d) <->
  NoDup (List.map fst d) /\
  Forall (fun kv => str_ok (fst kv) = true /\ wf (snd kv)) d.
Proof.
  simpl. apply and_iff_compat_l.
  induction d as [|[k x] d IH]; simpl.
  - split; [constructor|trivial].
  - rewrite List.Forall_cons_iff. simpl. rewrite <- IH. tauto.
Qed.

Lemma compact_atoms :
  enc JNull = lit "null" /\
  enc (JBool true) = lit "true" /\
  enc (JBool false) = lit "false" /\
  enc (JList []) = lit "[]" /\
  enc (JDict []) = lit "{}" /\
  (forall z, enc (JInt z) = int_repr z) /\
  (forall f, enc (JFloat f) = floatstr finite_repr f) /\
  (forall s, enc (JStr s) = encode_basestring_ascii s).
Proof.
  unfold compact, dumps, dump_chunks.
  repeat split; intros; cbn [iterencode List.map snd concat];
    try rewrite app_nil_r; reflexivity.
Qed.

(** A number is read whole up to a delimiter. *)
Lemma scan_number (i f e rest : str) (fuel : nat) :
  integer_shape i -> frac_shape f -> exp_shape e -> delimited rest ->
  scan (S fuel) (i ++ f ++ e ++ rest)
  = match f, e with
    | [], [] => Scanned (JInt (parse_int i)) rest
    | _, _ => Scanned (JFloat (float_of_literal (i ++ f ++ e))) rest
    end.
Proof.
  intros Hi Hf He Hrest.
  pose proof (match_number_app i f e rest Hi Hf He Hrest) as Hm.
  destruct Hi as (sign & c & d & -> & Hsign & Hc & _).
  assert (exists h t, (sign ++ c :: d) ++ f ++ e ++ rest = h :: t /\
                      (is_digit h = true \/ h = ch "-")) as (h & t & Heq & Hh).
  { destruct Hsign as [-> | ->]; simpl; eauto. }
  rewrite Heq in *. cbn [scan_once].
  test (h =? quote). test (h =? ch "{"). test (h =? ch "[").
  unfold scan_literal. lits.
  rewrite !starts_with_head by (chars; destruct Hh as [Hh | ->]; b2p; lia).
  rewrite Hm. reflexivity.
Qed.

Lemma integer_shape_head (i : str) :
  integer_shape i ->
  exists h t, i = h :: t /\ (is_digit h = true \/ h = ch "-").
Proof.
  intros (sign & c & d & -> & [-> | ->] & Hc & _); simpl; eauto.
Qed.

(** The text of a value starts with a character that is no white space
    and does not close an array. *)
Lemma compact_head (v : json) :
  wf v -> exists c t, enc v = c :: t /\ is_ws c = false /\ c <> ch "]".
Proof.
  destruct compact_atoms as (Hnull & Htrue & Hfalse & Hnil & Hempty & Hint
                             & Hfloat & Hstr).
  assert (forall i t, integer_shape i ->
                      exists c t', i ++ t = c :: t' /\ is_ws c = false
                                   /\ c <> ch "]") as Hnum.
  { intros i t Hi. destruct (integer_shape_head i Hi) as (h & t' & -> & Hh).
    exists h, (t' ++ t). split; [reflexivity|].
    destruct Hh as [Hh | ->]; [|split; [reflexivity|discriminate]].
    split; [|intros ->; discriminate Hh].
    unfold is_ws. chars. b2p. lia. }
  destruct v as [|[|]|z|[| | |x]|s|[|x l]|[|kv d]]; intros Hwf.
  - rewrite Hnull. eexists _, _. split; [reflexivity|]. split; [reflexivity|discriminate].
  - rewrite Htrue. eexists _, _. split; [reflexivity|]. split; [reflexivity|discriminate].
  - rewrite Hfalse. eexists _, _. split; [reflexivity|]. split; [reflexivity|discriminate].
  - rewrite Hint. rewrite <- (app_nil_r (int_repr z)).
    apply Hnum, integer_shape_int_repr.
  - rewrite Hfloat. eexists _, _. split; [reflexivity|]. split; [reflexivity|discriminate].
  - rewrite Hfloat. eexists _, _. split; [reflexivity|]. split; [reflexivity|discriminate].
  - rewrite Hfloat. eexists _, _. split; [reflexivity|]. split; [reflexivity|discriminate].
  - rewrite Hfloat. simpl in *. destruct Hwf as [Hlit _].
    destruct (float_literal_app _ [] Hlit I) as (i & f & e & -> & _ & Hi & _).
    apply Hnum, Hi.
  - rewrite Hstr. eexists _, _. split; [reflexivity|]. split; [reflexivity|discriminate].
  - rewrite Hnil. eexists _, _. split; [reflexivity|]. split; [reflexivity|discriminate].
  - rewrite compact_list. eexists _, _. split; [reflexivity|]. split; [reflexivity|discriminate].
  - rewrite Hempty. eexists _, _. split; [reflexivity|]. split; [reflexivity|discriminate].
  - rewrite compact_dict. eexists _, _. split; [reflexivity|]. split; [reflexivity|discriminate].
Qed.

Lemma items_text_head (x : json) (items : list json) (rest : str) :
  wf x ->
  exists c t, items_text finite_repr (x :: items) rest = c :: t /\
              is_ws c = false /\ c <> ch "]".
Proof.
  intros Hwf. destruct (compact_head x Hwf) as (c & t & Heq & Hc).
  destruct items as [|y items]; cbn [items_text]; rewrite Heq;
    eexists _, _; (split; [reflexivity|exact Hc]).
Qed.

(** One step of the three mutual functions. *)
Lemma array_items_S (fuel : nat) (s : str) (values : list json) :
  array_items float_of_literal (S fuel) s values
  = scan_bind (scan fuel s)
      (fun value s1 =>
         match skip_ws s1 with
         | c :: s2 =>
             if c =? ch "]" then Scanned (JList (values ++ [value])) s2
             else if c =? ch ","
                  then array_items float_of_literal fuel (skip_ws s2)
                         (values ++ [value])
                  else Rejected
         | [] => Rejected
         end).
Proof. reflexivity. Qed.

Lemma object_items_S (fuel : nat) (s : str) (pairs : list (str * json)) :
  object_items float_of_literal (S fuel) s pairs
  = match scanstring s with
    | None => Rejected
    | Some (key, s1) =>
        match skip_ws s1 with
        | c :: s2 =>
            if c =? ch ":" then
              scan_bind (scan fuel (skip_ws s2))
                (fun value s3 =>
                   match skip_ws s3 with
                   | c' :: s4 =>
                       if c' =? ch "}"
                       then Scanned (JDict (dict_of_pairs (pairs ++ [(key, value)]))) s4
                       else if c' =? ch "," then
                         match skip_ws s4 with
                         | q :: s5 =>
                             if q =? quote
                             then object_items float_of_literal fuel s5
                                    (pairs ++ [(key, value)])
                             else Rejected
                         | [] => Rejected
                         end
                       else Rejected
                   | [] => Rejected
                   end)
            else Rejected
        | [] => Rejected
        end
    end.
Proof. reflexivity. Qed.

Lemma scan_once_array (fuel : nat) (c : N) (s : str) :
  is_ws c = false -> c <> ch "]" ->
  scan (S fuel) (ch "[" :: c :: s)
  = array_items float_of_literal fuel (c :: s) [].
Proof.
  intros Hws Hc. cbn [scan_once].
  change (ch "[" =? quote) with false. change (ch "[" =? ch "{") with false.
  change (ch "[" =? ch "[") with true. cbv iota.
  rewrite skip_ws_head by assumption.
  apply N.eqb_neq in Hc. rewrite Hc. reflexivity.
Qed.

Lemma scan_once_object (fuel : nat) (s : str) :
  scan (S fuel) (ch "{" :: quote :: s)
  = object_items float_of_literal fuel s [].
Proof. reflexivity. Qed.

Lemma scan_once_string (fuel : nat) (s : str) :
  scan (S fuel) (quote :: s)
  = match scanstring s with
    | Some (v, rest) => Scanned (JStr v) rest
    | None => Rejected
    end.
Proof. reflexivity. Qed.

#[local] Abbreviation reads_back v :=
  (wf v ->
   forall (rest : str) (fuel : nat),
     delimited rest -> Nat.le (depth v) fuel ->
     scan fuel (enc v ++ rest) = Scanned v rest).

Lemma array_items_text (items : list json) :
  Forall (fun x => reads_back x) items -> Forall wf items -> items <> [] ->
  forall (acc : list json) (rest : str) (fuel : nat),
    (fold_right (fun x n => S (depth x + n)) O items <= fuel)%nat ->
    array_items float_of_literal fuel
      (items_text finite_repr items (ch "]" :: rest)) acc
    = Scanned (JList (acc ++ items)) rest.
Proof.
  induction items as [|x items IH]; [congruence|].
  intros HQ Hwf _ acc rest fuel Hfuel.
  apply List.Forall_cons_iff in HQ as [Hx HQ].
  apply List.Forall_cons_iff in Hwf as [Hwx Hwf].
  cbn [fold_right] in Hfuel. destruct fuel as [|fuel]; [lia|].
  rewrite array_items_S. destruct items as [|y items].
  - cbn [items_text].
    rewrite (Hx Hwx (ch "]" :: rest) fuel); [|simpl; auto|simpl in Hfuel; lia].
    reflexivity.
  - change (items_text finite_repr (x :: y :: items) (ch "]" :: rest))
      with (enc x ++ ch "," :: items_text finite_repr (y :: items) (ch "]" :: rest)).
    rewrite (Hx Hwx _ fuel); [|simpl; auto|lia].
    cbn [scan_bind]. rewrite skip_ws_head by reflexivity.
    change (ch "," =? ch "]") with false. change (ch "," =? ch ",") with true.
    cbv iota.
    apply List.Forall_cons_iff in Hwf as Hwf'. destruct Hwf' as [Hwy _].
    destruct (items_text_head y items (ch "]" :: rest) Hwy)
      as (c & t & Heq & Hc & _).
    rewrite Heq, (skip_ws_head c t Hc), <- Heq.
    rewrite (IH HQ Hwf ltac:(discriminate) (acc ++ [x]) rest fuel); [|lia].
    rewrite <- app_assoc. reflexivity.
Qed.

Lemma member_text_scan (k : str) (v : json) (t : str) :
  str_ok k = true ->
  exists body,
    member_text finite_repr (k, v) t = quote :: body /\
    scanstring body = Some (k, ch ":" :: enc v ++ t).
Proof.
  intros Hk. unfold member_text. cbn [fst snd].
  eexists. split; [reflexivity|]. apply scanstring_escape, Hk.
Qed.

Lemma object_items_text (items : list (str * json)) :
  Forall (fun kv => reads_back (snd kv)) items ->
  Forall (fun kv => str_ok (fst kv) = true /\ wf (snd kv)) items ->
  forall (kv : str * json) (acc : list (str * json)) (body rest : str)
         (fuel : nat),
    reads_back (snd kv) -> str_ok (fst kv) = true -> wf (snd kv) ->
    members_text finite_repr (kv :: items) (ch "}" :: rest) = quote :: body ->
    (fold_right (fun kv n => S (depth (snd kv) + n)) O (kv :: items) <= fuel)%nat ->
    object_items float_of_literal fuel body acc
    = Scanned (JDict (dict_of_pairs (acc ++ kv :: items))) rest.
Proof.
  induction items as [|kv2 items IH];
    intros HQ Hwf [k v] acc body rest fuel Hv Hk Hwv Hbody Hfuel;
    cbn [fst snd fold_right] in *;
    (destruct fuel as [|fuel]; [lia|]); rewrite object_items_S.
  - cbn [members_text] in Hbody.
    destruct (member_text_scan k v (ch "}" :: rest) Hk) as (body' & Heq & Hscan).
    rewrite Heq in Hbody. injection Hbody as <-. rewrite Hscan.
    rewrite skip_ws_head by reflexivity.
    change (ch ":" =? ch ":") with true. cbv iota.
    destruct (compact_head v Hwv) as (c & t & Hc & Hws & _).
    rewrite Hc. cbn [app]. rewrite (skip_ws_head c _ Hws).
    change (c :: t ++ ch "}" :: rest) with ((c :: t) ++ ch "}" :: rest).
    rewrite <- Hc.
    rewrite (Hv Hwv _ fuel); [|simpl; auto|lia].
    reflexivity.
  - change (members_text finite_repr ((k, v) :: kv2 :: items) (ch "}" :: rest))
      with (member_text finite_repr (k, v)
              (ch "," :: members_text finite_repr (kv2 :: items) (ch "}" :: rest)))
      in Hbody.
    destruct (member_text_scan k v
                (ch "," :: members_text finite_repr (kv2 :: items) (ch "}" :: rest)) Hk)
      as (body' & Heq & Hscan).
    rewrite Heq in Hbody. injection Hbody as <-. rewrite Hscan.
    rewrite skip_ws_head by reflexivity.
    change (ch ":" =? ch ":") with true. cbv iota.
    destruct (compact_head v Hwv) as (c & t & Hc & Hws & _).
    rewrite Hc. cbn [app]. rewrite (skip_ws_head c _ Hws).
    match goal with
    | |- context [scan fuel (c :: t ++ ?r)] =>
        change (c :: t ++ r) with ((c :: t) ++ r)
    end.
    rewrite <- Hc.
    rewrite (Hv Hwv _ fuel); [|simpl; auto|lia].
    cbn [scan_bind]. rewrite skip_ws_head by reflexivity.
    change (ch "," =? ch "}") with false. change (ch "," =? ch ",") with true.
    cbv iota.
    apply List.Forall_cons_iff in HQ as [Hv2 HQ].
    apply List.Forall_cons_iff in Hwf as [[Hk2 Hwv2] Hwf].
    destruct kv2 as [k2 v2]. cbn [fst snd] in *.
    assert (exists body2,
              members_text finite_repr ((k2, v2) :: items) (ch "}" :: rest)
              = quote :: body2) as [body2 Hbody2].
    { destruct items; cbn [members_text]; unfold member_text; eauto. }
    rewrite Hbody2. rewrite skip_ws_head by reflexivity.
    change (quote =? quote) with true. cbv iota.
    rewrite (IH HQ Hwf (k2, v2) (acc ++ [(k, v)]) body2 rest fuel Hv2 Hk2 Hwv2 Hbody2);
      [|cbn [fst snd fold_right]; lia].
    rewrite <- app_assoc. reflexivity.
Qed.

(** The scanner reads back every well-formed value from its text. *)
Lemma scan_once_compact (v : json) : reads_back v.
Proof.
  destruct compact_atoms as (Hnull & Htrue & Hfalse & Hnil & Hempty & Hint
                             & Hfloat & Hstr).
  induction v as [|b|z|f|s|l IH|d IH] using json_induction;
    intros Hwf rest fuel Hrest Hfuel;
    (destruct fuel as [|fuel]; [simpl in Hfuel; unfold Nat.le in Hfuel; lia|]).
  - rewrite Hnull. reflexivity.
  - destruct b; [rewrite Htrue|rewrite Hfalse]; reflexivity.
  - rewrite Hint.
    pose proof (scan_number (int_repr z) [] [] rest fuel
                  (integer_shape_int_repr z) (or_introl eq_refl)
                  (or_introl eq_refl) Hrest) as H.
    cbn [app] in H. rewrite H, parse_int_int_repr. reflexivity.
  - rewrite Hfloat. destruct f as [| | |x]; try reflexivity.
    simpl in Hwf. destruct Hwf as [Hlit Hback]. cbn [floatstr].
    destruct (float_literal_app _ rest Hlit Hrest)
      as (i & f & e & Heq & Hfe & Hi & Hf & He & _).
    rewrite Heq, <- !app_assoc.
    rewrite (scan_number i f e rest fuel Hi Hf He Hrest).
    rewrite <- Heq, Hback.
    destruct f, e; try reflexivity. discriminate Hfe.
  - rewrite Hstr. unfold encode_basestring_ascii. cbn [app].
    rewrite <- app_assoc. cbn [app]. rewrite scan_once_string.
    rewrite scanstring_escape by exact Hwf. reflexivity.
  - destruct l as [|x l]; [rewrite Hnil; reflexivity|].
    apply well_formed_list in Hwf.
    rewrite compact_list_text.
    apply List.Forall_cons_iff in Hwf as Hwf'. destruct Hwf' as [Hwx _].
    destruct (items_text_head x l (ch "]" :: rest) Hwx)
      as (c & t & Heq & Hws & Hc).
    rewrite Heq, (scan_once_array fuel c t Hws Hc), <- Heq.
    apply (array_items_text (x :: l) IH Hwf ltac:(discriminate) [] rest fuel).
    cbn [depth] in Hfuel. unfold Nat.le in Hfuel. lia.
  - destruct d as [|[k v] d]; [rewrite Hempty; reflexivity|].
    apply well_formed_dict in Hwf as [Hnd Hwf].
    rewrite compact_dict_text.
    apply List.Forall_cons_iff in IH as [Hv IH].
    apply List.Forall_cons_iff in Hwf as [[Hk Hwv] Hwf]. cbn [fst snd] in *.
    assert (exists body,
              members_text finite_repr ((k, v) :: d) (ch "}" :: rest)
              = quote :: body) as [body Hbody].
    { destruct d; cbn [members_text]; unfold member_text; eauto. }
    rewrite Hbody, scan_once_object.
    rewrite (object_items_text d IH Hwf (k, v) [] body rest fuel Hv Hk Hwv Hbody).
    + cbn [app]. rewrite dict_of_pairs_nodup by exact Hnd. reflexivity.
    + cbn [depth] in Hfuel. unfold Nat.le in Hfuel. lia.
Qed.
End RoundTrip.

(** ** The characters written *)

Lemma hex_digit_printable (d : N) : d < 16 -> printable (hex_digit d) = true.
Proof.
  intros Hd. unfold hex_digit, printable, in_range.
  destruct (d <? 10) eqn:E; b2p; lia.
Qed.

Lemma mod_16_lt (n : N) : n mod 16 < 16.
Proof. apply N.mod_upper_bound. lia. Qed.

Lemma hex4_printable (n : N) (t : str) :
  Forall (fun c => printable c = true) t ->
  Forall (fun c => printable c = true) (backslash :: ch "u" :: hex4 n ++ t).
Proof.
  intros Ht. unfold hex4. cbn [app].
  repeat (apply List.Forall_cons;
          [first [reflexivity | apply hex_digit_printable, mod_16_lt]|]).
  exact Ht.
Qed.

Lemma escape_char_printable (c : N) :
  Forall (fun c => printable c = true) (escape_char c).
Proof.
  escape_cases c; try (repeat constructor; fail).
  - repeat constructor. exact Ep.
  - rewrite <- (app_nil_r (hex4 c)). apply hex4_printable. constructor.
  - cbv zeta. rewrite <- app_comm_cons. rewrite <- app_comm_cons.
    apply hex4_printable.
    rewrite <- (app_nil_r (hex4 _)). apply hex4_printable. constructor.
Qed.

Lemma solid_string (s : str) : solid (encode_basestring_ascii s).
Proof.
  unfold encode_basestring_ascii. split; [|split].
  - apply List.Forall_cons; [reflexivity|].
    apply Forall_app. split.
    + induction s as [|c s IH]; [constructor|].
      cbn [flat_map]. apply Forall_app. split;
        [apply escape_char_printable|exact IH].
    + repeat constructor.
  - exists quote. split; reflexivity.
  - exists quote. split; [|reflexivity].
    change (quote :: flat_map escape_char s ++ [quote])
      with ((quote :: flat_map escape_char s) ++ [quote]).
    apply last_snoc.
Qed.

Lemma digits_printable (d : str) :
  digits d -> Forall (fun c => printable c = true) d.
Proof.
  apply List.Forall_impl. intros c Hc. unfold printable. b2p. lia.
Qed.

Lemma digits_last (pre d : str) (c : N) :
  digits (c :: d) ->
  exists x, last (pre ++ c :: d) = Some x /\ is_ws x = false.
Proof.
  intros Hd.
  assert (exists x, last (c :: d) = Some x /\ is_digit x = true) as (x & Hx & Hdx).
  { revert c Hd. induction d as [|c' d IH]; intros c Hd.
    - exists c. split; [reflexivity|]. inversion Hd; assumption.
    - inversion Hd; subst.
      destruct (IH c' ltac:(assumption)) as (x & Hx & Hdx).
      exists x. split; [|exact Hdx]. rewrite last_cons, Hx. reflexivity. }
  exists x. split.
  - rewrite last_app, Hx. reflexivity.
  - unfold is_ws. b2p. lia.
Qed.

(** A number, written whole, is solid. *)
Lemma solid_number (i f e : str) :
  integer_shape i -> frac_shape f -> exp_shape e -> solid (i ++ f ++ e).
Proof.
  intros Hi Hf He.
  pose proof Hi as (sign & c & d & Hieq & Hsign & Hc & Hd & _).
  assert (digits (c :: d)) as Hcd by (constructor; assumption).
  split; [|split].
  - apply Forall_app. split; [|apply Forall_app; split].
    + subst i. apply Forall_app. split.
      * destruct Hsign as [-> | ->]; repeat constructor.
      * apply digits_printable, Hcd.
    + destruct Hf as [-> | (c' & d' & -> & Hd')]; [constructor|].
      apply List.Forall_cons; [reflexivity|]. apply digits_printable, Hd'.
    + destruct He as [-> | (x & sg & c' & d' & -> & Hx & Hsg & Hd')];
        [constructor|].
      apply List.Forall_cons; [destruct Hx as [-> | ->]; reflexivity|].
      apply Forall_app. split.
      * destruct Hsg as [-> | [-> | ->]]; repeat constructor.
      * apply digits_printable, Hd'.
  - destruct (integer_shape_head i Hi) as (h & t & -> & Hh).
    exists h. split; [reflexivity|].
    destruct Hh as [Hh | ->]; [|reflexivity]. unfold is_ws. b2p. lia.
  - destruct He as [-> | (x & sg & c' & d' & -> & _ & _ & Hd')].
    + rewrite app_nil_r.
      destruct Hf as [-> | (c' & d' & -> & Hd')].
      * rewrite app_nil_r. subst i. apply digits_last, Hcd.
      * change (i ++ ch "." :: c' :: d') with (i ++ [ch "."] ++ c' :: d').
        rewrite app_assoc. apply digits_last, Hd'.
    + change (x :: sg ++ c' :: d') with ((x :: sg) ++ c' :: d').
      rewrite !app_assoc. apply digits_last, Hd'.
Qed.

Lemma solid_int_repr (z : Z) : solid (int_repr z).
Proof.
  pose proof (solid_number (int_repr z) [] [] (integer_shape_int_repr z)
                (or_introl eq_refl) (or_introl eq_refl)) as H.
  rewrite !app_nil_r in H. exact H.
Qed.

Lemma solid_lit (s : string) :
  forallb printable (lit s) = true ->
  match head (lit s), last (lit s) with
  | Some a, Some b => negb (is_ws a) && negb (is_ws b)
  | _, _ => false
  end = true ->
  solid (lit s).
Proof.
  intros Hp Hends. split; [|split].
  - apply Forall_forall. intros c Hc. apply list_elem_of_In in Hc.
    rewrite forallb_forall in Hp. apply Hp, Hc.
  - destruct (head (lit s)) as [a|]; [|discriminate].
    destruct (last (lit s)) as [b|]; [|discriminate].
    exists a. split; [reflexivity|].
    apply andb_true_iff in Hends as [Ha _]. apply negb_true_iff, Ha.
  - destruct (head (lit s)) as [a|]; [|discriminate].
    destruct (last (lit s)) as [b|]; [|discriminate].
    exists b. split; [reflexivity|].
    apply andb_true_iff in Hends as [_ Hb]. apply negb_true_iff, Hb.
Qed.

(** ** The chunks written *)

Lemma join_chunks_Forall (P : chunk -> Prop) (sep : chunk)
      (items : list (list chunk)) :
  P sep -> Forall (Forall P) items -> Forall P (join_chunks sep items).
Proof.
  intros Hsep Hitems. induction Hitems as [|x items Hx Hitems IH].
  - constructor.
  - destruct items as [|y items]; [exact Hx|].
    rewrite join_chunks_cons. apply Forall_app. split; [exact Hx|].
    apply List.Forall_cons; [exact Hsep|exact IH].
Qed.

Lemma framed_app (a b : list chunk) : framed a -> framed b -> framed (a ++ b).
Proof.
  intros [(c & Hc & Hcs) _] [_ (c' & Hc' & Hcs')]. split.
  - exists c. split; [|exact Hcs]. destruct a; [discriminate|exact Hc].
  - exists c'. split; [|exact Hcs']. rewrite last_app, Hc'. reflexivity.
Qed.

Lemma framed_sep (a b : list chunk) (sep : chunk) :
  framed a -> framed b -> framed (a ++ sep :: b).
Proof.
  intros [(c & Hc & Hcs) _] [(c0 & Hc0 & _) (c' & Hc' & Hcs')]. split.
  - exists c. split; [|exact Hcs]. destruct a; [discriminate|exact Hc].
  - exists c'. split; [|exact Hcs'].
    rewrite last_app, last_cons, Hc'. reflexivity.
Qed.

Lemma join_chunks_framed (sep : chunk) (items : list (list chunk)) :
  items <> [] -> Forall framed items -> framed (join_chunks sep items).
Proof.
  intros Hne Hitems. induction Hitems as [|x items Hx Hitems IH].
  - congruence.
  - destruct items as [|y items]; [exact Hx|].
    rewrite join_chunks_cons. apply framed_sep; [exact Hx|].
    apply IH. discriminate.
Qed.

Lemma framed_brackets (a b : str) (cs : list chunk) :
  framed ((Bracket, a) :: cs ++ [(Bracket, b)]).
Proof.
  split.
  - exists (Bracket, a). split; reflexivity.
  - exists (Bracket, b). split; [|reflexivity].
    change ((Bracket, a) :: cs ++ [(Bracket, b)])
      with (((Bracket, a) :: cs) ++ [(Bracket, b)]).
    apply last_snoc.
Qed.

Section ChunkFacts.
Context {finite : Type}.
Variable finite_repr : finite -> str.
Variable float_of_literal : str -> pyfloat finite.
#[local] Abbreviation json := (json finite).
#[local] Abbreviation wf := (well_formed finite_repr float_of_literal).
#[local] Abbreviation chunks := (iterencode finite_repr (lit ",") (lit ":")).

Lemma atom_chunk (r : role) (t : str) :
  is_separator r = false -> solid t -> compact_chunk (r, t).
Proof.
  intros Hr Ht. split; [exact Ht|].
  split; cbn [fst snd]; intros Heq; subst r; discriminate Hr.
Qed.

Lemma solid_floatstr (f : pyfloat finite) :
  float_ok finite_repr float_of_literal f -> solid (floatstr finite_repr f).
Proof.
  destruct f as [| | |x]; simpl.
  - intros _. apply solid_lit; reflexivity.
  - intros _. apply solid_lit; reflexivity.
  - intros _. apply solid_lit; reflexivity.
  - intros [Hlit _].
    destruct (float_literal_app _ [] Hlit I) as (i & f & e & -> & _ & Hi & Hf & He & _).
    apply solid_number; assumption.
Qed.

(** Every chunk written for a well-formed value is compact, and the
    chunks of a value are framed. *)
Lemma iterencode_compact (v : json) :
  wf v -> Forall compact_chunk (chunks v) /\ framed (chunks v).
Proof.
  assert (forall r t, is_separator r = false -> solid t ->
                      Forall compact_chunk [(r, t)] /\ framed [(r, t)])
    as Hatom.
  { intros r t Hr Ht. split.
    - constructor; [apply atom_chunk; assumption|constructor].
    - split; exists (r, t); split; solve [reflexivity | exact Hr]. }
  induction v as [|b|z|f|s|l IH|d IH] using json_induction; intros Hwf.
  - apply Hatom; [reflexivity|apply solid_lit; reflexivity].
  - destruct b; apply Hatom; solve [reflexivity | apply solid_lit; reflexivity].
  - apply Hatom; [reflexivity|apply solid_int_repr].
  - apply Hatom; [reflexivity|apply solid_floatstr, Hwf].
  - apply Hatom; [reflexivity|apply solid_string].
  - destruct l as [|x l].
    { apply Hatom; [reflexivity|apply solid_lit; reflexivity]. }
    apply (well_formed_list finite_repr float_of_literal) in Hwf.
    change (chunks (JList (x :: l)))
      with ((Bracket, lit "[")
              :: join_chunks (ItemSep, lit ",") (List.map chunks (x :: l))
              ++ [(Bracket, lit "]")]).
    split; [|apply framed_brackets].
    apply List.Forall_cons;
      [apply atom_chunk; [reflexivity|apply solid_lit; reflexivity]|].
    apply Forall_app. split.
    + apply join_chunks_Forall.
      * split; [apply solid_lit; reflexivity|]. split; [reflexivity|discriminate].
      * apply Forall_fmap. rewrite Forall_forall in IH, Hwf.
        apply Forall_forall. intros y Hy. apply IH; auto.
    + constructor; [|constructor].
      apply atom_chunk; [reflexivity|apply solid_lit; reflexivity].
  - destruct d as [|kv d].
    { apply Hatom; [reflexivity|apply solid_lit; reflexivity]. }
    apply (well_formed_dict finite_repr float_of_literal) in Hwf as [_ Hwf].
    change (chunks (JDict (kv :: d)))
      with ((Bracket, lit "{")
              :: join_chunks (ItemSep, lit ",")
                   (List.map (fun kv : str * json =>
                                let (key, value) := kv in
                                (Key, encode_basestring_ascii key)
                                  :: (KeySep, lit ":") :: chunks value)
                             (kv :: d))
              ++ [(Bracket, lit "}")]).
    split; [|apply framed_brackets].
    apply List.Forall_cons;
      [apply atom_chunk; [reflexivity|apply solid_lit; reflexivity]|].
    apply Forall_app. split.
    + apply join_chunks_Forall.
      * split; [apply solid_lit; reflexivity|]. split; [reflexivity|discriminate].
      * apply Forall_fmap. rewrite Forall_forall in IH, Hwf.
        apply Forall_forall. intros [k y] Hy. cbv beta iota.
        apply List.Forall_cons;
          [apply atom_chunk; [reflexivity|apply solid_string]|].
        apply List.Forall_cons.
        -- split; [apply solid_lit; reflexivity|].
           split; [discriminate|reflexivity].
        -- destruct (IH (k, y) Hy (proj2 (Hwf (k, y) Hy))) as [H _]. exact H.
    + constructor; [|constructor].
      apply atom_chunk; [reflexivity|apply solid_lit; reflexivity].
Qed.
End ChunkFacts.



Section CompactFacts.
Context {finite : Type}.
Variable finite_repr : finite -> str.
Variable float_of_literal : str -> pyfloat finite.
#[local] Abbreviation json := (json finite).
#[local] Abbreviation enc := (compact finite_repr).
#[local] Abbreviation wf := (well_formed finite_repr float_of_literal).
#[local] Abbreviation chunks := (iterencode finite_repr (lit ",") (lit ":")).


(** The text written is printable ASCII. *)
Lemma compact_printable (v : json) :
  wf v -> Forall (fun c => printable c = true) (enc v).
Proof.
  intros Hwf.
  destruct (iterencode_compact finite_repr float_of_literal v Hwf) as [Hall _].
  unfold compact, dumps, dump_chunks.
  induction Hall as [|c cs [(Hp & _) _] _ IH]; [constructor|].
  cbn [List.map concat]. apply Forall_app. split; assumption.
Qed.

Lemma items_text_length (l : list json) (rest : str) :
  length (items_text finite_repr l rest)
  = (length (items_text finite_repr l []) + length rest)%nat.
Proof.
  induction l as [|x l IH]; [reflexivity|].
  destruct l as [|y l].
  - cbn [items_text]. rewrite !length_app. simpl. lia.
  - change (items_text finite_repr (x :: y :: l) rest)
      with (enc x ++ ch "," :: items_text finite_repr (y :: l) rest).
    change (items_text finite_repr (x :: y :: l) [])
      with (enc x ++ ch "," :: items_text finite_repr (y :: l) []).
    rewrite !length_app. cbn [length]. rewrite IH. lia.
Qed.

Lemma members_text_length (d : list (str * json)) (rest : str) :
  length (members_text finite_repr d rest)
  = (length (members_text finite_repr d []) + length rest)%nat.
Proof.
  assert (forall kv t,
            length (member_text finite_repr kv t)
            = (length (member_text finite_repr kv []) + length t)%nat) as Hm.
  { intros kv t. unfold member_text. cbn [length].
    rewrite !length_app. cbn [length]. rewrite !length_app. simpl. lia. }
  induction d as [|x d IH]; [reflexivity|].
  destruct d as [|y d].
  - cbn [members_text]. apply Hm.
  - change (members_text finite_repr (x :: y :: d) rest)
      with (member_text finite_repr x
              (ch "," :: members_text finite_repr (y :: d) rest)).
    change (members_text finite_repr (x :: y :: d) [])
      with (member_text finite_repr x
              (ch "," :: members_text finite_repr (y :: d) [])).
    rewrite Hm, (Hm x (_ :: _)). cbn [length]. rewrite IH. lia.
Qed.

Lemma fold_depth_items (l : list json) :
  Forall (fun x => Nat.le (depth x) (length (enc x))) l ->
  Nat.le (fold_right (fun x n => S (depth x + n)) O l)
         (S (length (items_text finite_repr l []))).
Proof.
  unfold Nat.le. induction 1 as [|x l Hx _ IH]; [simpl; lia|].
  destruct l as [|y l].
  - cbn [fold_right items_text]. rewrite length_app. simpl. lia.
  - change (items_text finite_repr (x :: y :: l) [])
      with (enc x ++ ch "," :: items_text finite_repr (y :: l) []).
    cbn [fold_right] in *. rewrite length_app. cbn [length] in *. lia.
Qed.

Lemma fold_depth_members (d : list (str * json)) :
  Forall (fun kv => Nat.le (depth (snd kv)) (length (enc (snd kv)))) d ->
  Nat.le (fold_right (fun kv n => S (depth (snd kv) + n)) O d)
         (S (length (members_text finite_repr d []))).
Proof.
  assert (forall kv t,
            (length (enc (snd kv)) + length t
             <= length (member_text finite_repr kv t))%nat) as Hm.
  { intros kv t. unfold member_text. cbn [length].
    rewrite !length_app. cbn [length]. rewrite !length_app. lia. }
  unfold Nat.le. induction 1 as [|x d Hx _ IH]; [simpl; lia|].
  destruct d as [|y d].
  - cbn [fold_right members_text]. pose proof (Hm x []). simpl in *. lia.
  - change (members_text finite_repr (x :: y :: d) [])
      with (member_text finite_repr x
              (ch "," :: members_text finite_repr (y :: d) [])).
    pose proof (Hm x (ch "," :: members_text finite_repr (y :: d) [])) as H1.
    cbn [fold_right length] in *. lia.
Qed.

(** The scanner needs no more calls than the text has characters. *)
Lemma depth_le_length (v : json) :
  wf v -> Nat.le (depth v) (length (enc v)).
Proof.
  assert (forall v : json, wf v -> Nat.le 1 (length (enc v))) as Hpos.
  { intros v0 Hwf0.
    destruct (compact_head finite_repr float_of_literal v0 Hwf0)
      as (c & t & -> & _).
    unfold Nat.le. simpl. lia. }
  induction v as [|b|z|f|s|l IH|d IH] using json_induction; intros Hwf;
    try (apply (Hpos _ Hwf)).
  - destruct l as [|x l]; [apply (Hpos _ Hwf)|].
    pose proof (compact_list_text finite_repr x l []) as Heq.
    rewrite app_nil_r in Heq. rewrite Heq.
    apply (well_formed_list finite_repr float_of_literal) in Hwf.
    assert (Forall (fun x => Nat.le (depth x) (length (enc x))) (x :: l)) as Hall.
    { rewrite Forall_forall in IH, Hwf. apply Forall_forall. auto. }
    pose proof (fold_depth_items _ Hall) as Hsum.
    unfold Nat.le in *. cbn [depth length].
    rewrite items_text_length. cbn [length]. lia.
  - destruct d as [|kv d]; [apply (Hpos _ Hwf)|].
    pose proof (compact_dict_text finite_repr kv d []) as Heq.
    rewrite app_nil_r in Heq. rewrite Heq.
    apply (well_formed_dict finite_repr float_of_literal) in Hwf as [_ Hwf].
    assert (Forall (fun kv => Nat.le (depth (snd kv)) (length (enc (snd kv))))
              (kv :: d)) as Hall.
    { rewrite Forall_forall in IH, Hwf. apply Forall_forall.
      intros y Hy. apply (IH y Hy). apply (Hwf y Hy). }
    pose proof (fold_depth_members _ Hall) as Hsum.
    unfold Nat.le in *. cbn [depth length].
    rewrite members_text_length. cbn [length]. lia.
Qed.

(** [json.loads] gives back every well-formed value from the text the
    script's [json.dump] writes for it. *)
Lemma loads_compact (v : json) :
  wf v -> loads float_of_literal (enc v) = Ok v.
Proof.
  intros Hwf.
  pose proof (compact_printable v Hwf) as Hp.
  pose proof (depth_le_length v Hwf) as Hdepth.
  pose proof (scan_once_compact finite_repr float_of_literal v Hwf []
                (2 * length (enc v) + 1) I) as Hscan.
  rewrite app_nil_r in Hscan.
  destruct (compact_head finite_repr float_of_literal v Hwf)
    as (c & t & Heq & Hws & _).
  unfold loads. rewrite Heq in *. cbv beta iota.
  apply List.Forall_cons_iff in Hp as [Hc _].
  test (c =? 65279). unfold decode.
  rewrite (skip_ws_head c t Hws), Hscan; [reflexivity|].
  unfold Nat.le in *. lia.
Qed.
End CompactFacts.

(** ** What the decoder returns *)

Lemma length_induction (P : str -> Prop) :
  (forall s, (forall s', (length s' < length s)%nat -> P s') -> P s) ->
  forall s, P s.
Proof.
  intros Hstep s.
  assert (forall n s, (length s < n)%nat -> P s) as H.
  { induction n as [|n IH]; intros s0 Hlt; [lia|].
    apply Hstep. intros s' Hs'. apply IH. lia. }
  apply (H (S (length s))). lia.
Qed.

Lemma append_Some (c : N) (r : option (str * str)) (v rest : str) :
  append c r = Some (v, rest) ->
  exists v', v = c :: v' /\ r = Some (v', rest).
Proof.
  destruct r as [[v' rest']|]; simpl; [|discriminate].
  intros [= <- <-]. eauto.
Qed.

(** [scanstring] computes the relation [scanned]. *)
Lemma scanstring_scanned (s v rest : str) :
  scanstring s = Some (v, rest) -> scanned s v rest.
Proof.
  revert v rest. induction s as [s IH] using length_induction.
  intros v rest. destruct s as [|c s1]; [discriminate|].
  cbn [scanstring].
  destruct (c =? quote) eqn:Eq.
  { apply N.eqb_eq in Eq. subst c. intros [= <- <-]. constructor. }
  destruct (c =? backslash) eqn:Eb.
  2:{ destruct (c <? 32) eqn:Ec; [discriminate|].
      intros H. apply append_Some in H as (v' & -> & H).
      apply N.eqb_neq in Eq, Eb. apply N.ltb_ge in Ec.
      constructor; try assumption. apply IH; [simpl; lia|exact H]. }
  apply N.eqb_eq in Eb. subst c.
  destruct s1 as [|esc s2]; [discriminate|].
  destruct (esc =? ch "u") eqn:Eu.
  2:{ destruct (unescape esc) as [c'|] eqn:Hesc; [|discriminate].
      intros H. apply append_Some in H as (v' & -> & H).
      apply scanned_escape; [exact Hesc|]. apply IH; [simpl; lia|exact H]. }
  apply N.eqb_eq in Eu. subst esc.
  destruct s2 as [|x3 [|x2 [|x1 [|x0 s3]]]]; try discriminate.
  destruct (decode_uXXXX x3 x2 x1 x0) as [uni|] eqn:Hd; [|discriminate].
  assert (forall v rest,
            (is_high_surrogate uni = true -> low_escape_next s3 = false) ->
            append uni (scanstring s3) = Some (v, rest) ->
            scanned (backslash :: ch "u" :: x3 :: x2 :: x1 :: x0 :: s3) v rest)
    as Hsingle.
  { intros v0 rest0 Hlow H. apply append_Some in H as (v' & -> & H).
    apply scanned_u; [exact Hd|exact Hlow|].
    apply IH; [simpl; lia|exact H]. }
  destruct (is_high_surrogate uni) eqn:Hh;
    [|apply Hsingle; discriminate].
  destruct s3 as [|b [|u [|y3 [|y2 [|y1 [|y0 s4]]]]]];
    try (apply Hsingle; reflexivity).
  - apply Hsingle. intros _. cbn. apply andb_false_r.
  - apply Hsingle. intros _. cbn. rewrite !andb_false_r. reflexivity.
  - apply Hsingle. intros _. cbn. rewrite !andb_false_r. reflexivity.
  - apply Hsingle. intros _. cbn. rewrite !andb_false_r. reflexivity.
  - apply Hsingle. intros _. cbn. rewrite !andb_false_r. reflexivity.
  - destruct ((b =? backslash) && (u =? ch "u")) eqn:Ebu.
    2:{ apply Hsingle. intros _. cbn [low_escape_next].
        apply andb_false_iff in Ebu as [-> | ->]; [reflexivity|].
        apply andb_false_r. }
    apply andb_true_iff in Ebu as [Eb' Eu']. apply N.eqb_eq in Eb', Eu'.
    subst b u.
    destruct (decode_uXXXX y3 y2 y1 y0) as [uni2|] eqn:Hd2; [|discriminate].
    destruct (is_low_surrogate uni2) eqn:Hl.
    + intros H. apply append_Some in H as (v' & -> & H).
      apply (scanned_pair x3 x2 x1 x0 y3 y2 y1 y0 uni uni2); try assumption.
      apply IH; [simpl; lia|exact H].
    + apply Hsingle. intros _. cbn [low_escape_next].
      change (backslash =? backslash) with true.
      change (ch "u" =? ch "u") with true. rewrite Hd2. exact Hl.
Qed.

Lemma log2_lt_20 (a : N) : a < 1048576 -> N.log2 a < 20.
Proof.
  intros Ha. destruct (N.eq_dec a 0) as [-> | Hne]; [reflexivity|].
  apply N.log2_lt_pow2; [lia|exact Ha].
Qed.

Lemma lor_lt_20 (a b : N) : a < 1048576 -> b < 1048576 -> N.lor a b < 1048576.
Proof.
  intros Ha Hb. destruct (N.eq_dec (N.lor a b) 0) as [-> | Hne]; [lia|].
  change 1048576 with (2 ^ 20). apply N.log2_lt_pow2; [lia|].
  rewrite N.log2_lor. apply N.max_lub_lt; apply log2_lt_20; assumption.
Qed.

Lemma hex_val_lt (c d : N) : hex_val c = Some d -> d < 16.
Proof.
  unfold hex_val.
  destruct (is_digit c) eqn:E1; [intros [= <-]; b2p; lia|].
  destruct (in_range 97 102 c) eqn:E2; [intros [= <-]; b2p; lia|].
  destruct (in_range 65 70 c) eqn:E3; [intros [= <-]; b2p; lia|].
  discriminate.
Qed.

Lemma decode_uXXXX_lt (x3 x2 x1 x0 uni : N) :
  decode_uXXXX x3 x2 x1 x0 = Some uni -> uni < 65536.
Proof.
  unfold decode_uXXXX.
  destruct (hex_val x3) as [a|] eqn:H3; [|discriminate].
  destruct (hex_val x2) as [b|] eqn:H2; [|discriminate].
  destruct (hex_val x1) as [c|] eqn:H1; [|discriminate].
  destruct (hex_val x0) as [d|] eqn:H0; [|discriminate].
  intros [= <-].
  apply hex_val_lt in H3, H2, H1, H0. lia.
Qed.

Lemma joined_range (uni uni2 : N) :
  is_high_surrogate uni = true -> is_low_surrogate uni2 = true ->
  65536 <= 65536 + N.lor (N.shiftl (uni - 55296) 10) (uni2 - 56320) < 1114112.
Proof.
  intros Hh Hl. b2p.
  assert (N.lor (N.shiftl (uni - 55296) 10) (uni2 - 56320) < 1048576);
    [|lia].
  apply lor_lt_20; [|lia].
  rewrite N.shiftl_mul_pow2. change (2 ^ 10) with 1024. lia.
Qed.

Lemma str_ok_cons (c : N) (v : str) :
  c < 1114112 -> (is_high_surrogate c = true -> low_head v = false) ->
  str_ok v = true -> str_ok (c :: v) = true.
Proof.
  intros Hc Hpair Hv. cbn [str_ok]. rewrite Hv, andb_true_r.
  apply andb_true_iff. split; [apply N.ltb_lt, Hc|].
  destruct (is_high_surrogate c); [|reflexivity].
  specialize (Hpair eq_refl). destruct v; simpl in *; [reflexivity|].
  rewrite Hpair. reflexivity.
Qed.

Lemma unescape_small (esc c : N) : unescape esc = Some c -> c < 128.
Proof.
  unfold unescape.
  repeat match goal with
         | |- (if ?b then _ else _) = _ -> _ =>
             destruct b; [intros [= <-]; chars; lia|]
         end.
  discriminate.
Qed.

(** A scanned string is well formed, and a low surrogate at its head was
    written as an escape. *)
Lemma scanned_ok (s v rest : str) :
  scanned s v rest -> text_ok s ->
  str_ok v = true /\ text_ok rest /\
  (low_head v = true -> low_escape_next s = true).
Proof.
  unfold text_ok.
  induction 1 as [s
                 |c s v rest Hq Hb Hc _ IH
                 |esc c s v rest Hesc _ IH
                 |x3 x2 x1 x0 uni s v rest Hd Hlow _ IH
                 |x3 x2 x1 x0 y3 y2 y1 y0 uni uni2 s v rest Hd Hd2 Hh Hl _ IH];
    intros Hs.
  - apply List.Forall_cons_iff in Hs as [_ Hs].
    split; [reflexivity|]. split; [exact Hs|discriminate].
  - apply List.Forall_cons_iff in Hs as [Hsc Hs].
    destruct (IH Hs) as (Hv & Hrest & _).
    split; [|split; [exact Hrest|]].
    + apply str_ok_cons; [b2p; lia| |exact Hv].
      intros Hh. exfalso. b2p. lia.
    + simpl. intros Hl. exfalso. b2p. lia.
  - do 2 apply List.Forall_cons_iff in Hs as [_ Hs].
    destruct (IH Hs) as (Hv & Hrest & _).
    pose proof (unescape_small _ _ Hesc) as Hsmall.
    split; [|split; [exact Hrest|]].
    + apply str_ok_cons; [lia| |exact Hv].
      intros Hh. exfalso. b2p. lia.
    + simpl. intros Hl. exfalso. b2p. lia.
  - do 6 apply List.Forall_cons_iff in Hs as [_ Hs].
    destruct (IH Hs) as (Hv & Hrest & Hhead).
    pose proof (decode_uXXXX_lt _ _ _ _ _ Hd) as Hlt.
    split; [|split; [exact Hrest|]].
    + apply str_ok_cons; [lia| |exact Hv].
      intros Hh. specialize (Hlow Hh).
      destruct (low_head v); [|reflexivity].
      rewrite (Hhead eq_refl) in Hlow. discriminate Hlow.
    + cbn [low_head]. intros Hl. rewrite (low_escape_next_u _ _ _ _ _ s Hd). exact Hl.
  - do 12 apply List.Forall_cons_iff in Hs as [_ Hs].
    destruct (IH Hs) as (Hv & Hrest & _).
    pose proof (joined_range _ _ Hh Hl) as Hj.
    split; [|split; [exact Hrest|]].
    + apply str_ok_cons; [lia| |exact Hv].
      intros Hh'. exfalso. clear - Hh' Hj. b2p. lia.
    + simpl. intros Hl'. exfalso. clear - Hl' Hj. b2p. lia.
Qed.

Lemma scanstring_ok (s v rest : str) :
  text_ok s -> scanstring s = Some (v, rest) ->
  str_ok v = true /\ text_ok rest.
Proof.
  intros Hs H. apply scanstring_scanned in H.
  destruct (scanned_ok _ _ _ H Hs) as (Hv & Hrest & _). auto.
Qed.

Lemma text_ok_skip_ws (s : str) : text_ok s -> text_ok (skip_ws s).
Proof.
  unfold text_ok. induction 1 as [|c s Hc Hs IH]; simpl; [constructor|].
  destruct (is_ws c); [exact IH|constructor; assumption].
Qed.

Lemma text_ok_starts_with (p s rest : str) :
  starts_with p s = Some rest -> text_ok s -> text_ok rest.
Proof.
  unfold text_ok. revert s. induction p as [|a p IH]; intros s; simpl.
  - intros [= <-]. trivial.
  - destruct s as [|b s]; [discriminate|].
    destruct (a =? b); [|discriminate].
    intros H Hs. apply List.Forall_cons_iff in Hs as [_ Hs]. eauto.
Qed.

Lemma text_ok_match_number (s i f e rest : str) :
  match_number s = Some (i, f, e, rest) -> text_ok s -> text_ok rest.
Proof.
  intros H Hs. apply match_number_shape in H as (-> & _).
  unfold text_ok in *. rewrite !Forall_app in Hs. tauto.
Qed.

Lemma dict_set_cases {V} (k : str) (v : V) (d : list (str * V)) :
  ((k ∈ List.map fst d) /\ List.map fst (dict_set k v d) = List.map fst d) \/
  ((k ∉ List.map fst d) /\ dict_set k v d = d ++ [(k, v)]).
Proof.
  induction d as [|[k' v'] d IH]; simpl.
  - right. split; [apply not_elem_of_nil|reflexivity].
  - destruct (str_eqb k' k) eqn:E.
    + apply str_eqb_eq in E. subst k'. left.
      split; [apply elem_of_cons; auto|reflexivity].
    + assert (k' <> k) as Hne.
      { intros ->. rewrite str_eqb_refl in E. discriminate. }
      destruct IH as [[Hin Heq] | [Hnot Heq]].
      * left. split; [apply elem_of_cons; auto|]. simpl. rewrite Heq.
        reflexivity.
      * right. split; [|rewrite Heq; reflexivity].
        apply not_elem_of_cons. split; [congruence|exact Hnot].
Qed.

Lemma dict_set_Forall {V} (P : str * V -> Prop) (k : str) (v : V)
      (d : list (str * V)) :
  (forall k', k' = k -> P (k', v)) ->
  Forall P d -> Forall P (dict_set k v d).
Proof.
  intros Hkv. induction 1 as [|[k' v'] d Hx Hd IH]; simpl.
  - constructor; [apply Hkv; reflexivity|constructor].
  - destruct (str_eqb k' k) eqn:E.
    + apply str_eqb_eq in E. constructor; [apply (Hkv k' E)|exact Hd].
    + constructor; assumption.
Qed.

Lemma dict_set_NoDup {V} (k : str) (v : V) (d : list (str * V)) :
  NoDup (List.map fst d) -> NoDup (List.map fst (dict_set k v d)).
Proof.
  intros Hnd. destruct (dict_set_cases k v d) as [[_ ->] | [Hnot ->]];
    [exact Hnd|].
  rewrite List.map_app. apply NoDup_app. split; [exact Hnd|]. split.
  - intros x Hx Hin. simpl in Hin. apply elem_of_cons in Hin as [-> | Hin].
    + contradiction.
    + apply not_elem_of_nil in Hin. exact Hin.
  - simpl. apply NoDup_cons. split; [apply not_elem_of_nil|constructor].
Qed.

Lemma dict_of_pairs_ok {V} (P : str * V -> Prop) (pairs : list (str * V)) :
  Forall P pairs ->
  NoDup (List.map fst (dict_of_pairs pairs)) /\ Forall P (dict_of_pairs pairs).
Proof.
  unfold dict_of_pairs.
  assert (forall acc : list (str * V),
            NoDup (List.map fst acc) -> Forall P acc -> Forall P pairs ->
            NoDup (List.map fst
                     (fold_left (fun d kv => dict_set (fst kv) (snd kv) d)
                                pairs acc)) /\
            Forall P (fold_left (fun d kv => dict_set (fst kv) (snd kv) d)
                                pairs acc)) as H.
  { induction pairs as [|[k v] pairs IH]; intros acc Hnd Hacc Hpairs; simpl.
    - auto.
    - apply List.Forall_cons_iff in Hpairs as [Hkv Hpairs].
      apply IH; [apply dict_set_NoDup, Hnd| |exact Hpairs].
      apply dict_set_Forall; [|exact Hacc].
      intros k' ->. exact Hkv. }
  intros Hpairs. apply H; [constructor|constructor|exact Hpairs].
Qed.

Section DecoderFacts.
Context {finite : Type}.
Variable finite_repr : finite -> str.
Variable float_of_literal : str -> pyfloat finite.
(** [repr(float(t))] is a float literal that [float] reads back as the
    same float, whatever float literal [t] is. *)
Hypothesis float_repr_reads_back :
  forall t, float_literal t = true ->
            float_ok finite_repr float_of_literal (float_of_literal t).
#[local] Abbreviation json := (json finite).
#[local] Abbreviation wf := (well_formed finite_repr float_of_literal).
#[local] Abbreviation scan := (scan_once float_of_literal).
#[local] Abbreviation member_ok :=
  (fun kv : str * json => str_ok (fst kv) = true /\ wf (snd kv)).

Lemma scan_literal_ok (s : str) (v : json) (rest : str) :
  text_ok s -> scan_literal float_of_literal s = Scanned v rest ->
  wf v /\ text_ok rest.
Proof.
  intros Hs. unfold scan_literal.
  destruct (starts_with (lit "null") s) eqn:H1.
  { intros [= <- <-]. split; [exact I|eapply text_ok_starts_with; eauto]. }
  destruct (starts_with (lit "true") s) eqn:H2.
  { intros [= <- <-]. split; [exact I|eapply text_ok_starts_with; eauto]. }
  destruct (starts_with (lit "false") s) eqn:H3.
  { intros [= <- <-]. split; [exact I|eapply text_ok_starts_with; eauto]. }
  destruct (match_number s) as [[[[i f] e] r]|] eqn:Hm.
  { pose proof (text_ok_match_number _ _ _ _ _ Hm Hs) as Hr.
    destruct f as [|c f]; [destruct e as [|c e]|];
      intros [= <- <-]; (split; [|exact Hr]).
    - exact I.
    - apply float_repr_reads_back.
      apply (float_literal_matched _ _ _ _ _ Hm). reflexivity.
    - apply float_repr_reads_back.
      apply (float_literal_matched _ _ _ _ _ Hm). reflexivity. }
  destruct (starts_with (lit "NaN") s) eqn:H4.
  { intros [= <- <-]. split; [exact I|eapply text_ok_starts_with; eauto]. }
  destruct (starts_with (lit "Infinity") s) eqn:H5.
  { intros [= <- <-]. split; [exact I|eapply text_ok_starts_with; eauto]. }
  destruct (starts_with (lit "-Infinity") s) eqn:H6.
  { intros [= <- <-]. split; [exact I|eapply text_ok_starts_with; eauto]. }
  discriminate.
Qed.

(** Whatever the scanner returns from a text read from a file is well
    formed. *)
Lemma scan_ok (fuel : nat) :
  (forall s v rest,
     text_ok s -> scan fuel s = Scanned v rest -> wf v /\ text_ok rest) /\
  (forall s acc v rest,
     text_ok s -> Forall wf acc ->
     array_items float_of_literal fuel s acc = Scanned v rest ->
     wf v /\ text_ok rest) /\
  (forall s pairs v rest,
     text_ok s -> Forall member_ok pairs ->
     object_items float_of_literal fuel s pairs = Scanned v rest ->
     wf v /\ text_ok rest).
Proof.
  induction fuel as [|fuel (IHs & IHa & IHo)].
  { repeat split; intros; discriminate. }
  split; [|split].
  - intros [|c s'] v rest Hs; [discriminate|]. cbn [scan_once].
    pose proof Hs as Hs'. apply List.Forall_cons_iff in Hs' as [_ Hs'].
    destruct (c =? quote).
    { destruct (scanstring s') as [[v0 r0]|] eqn:Hscan; [|discriminate].
      intros [= <- <-]. apply (scanstring_ok _ _ _ Hs' Hscan). }
    destruct (c =? ch "{").
    { pose proof (text_ok_skip_ws _ Hs') as Hsk.
      destruct (skip_ws s') as [|c2 s2]; [discriminate|].
      apply List.Forall_cons_iff in Hsk as [_ Hs2].
      destruct (c2 =? ch "}").
      { intros [= <- <-]. split; [|exact Hs2]. simpl. split; [constructor|exact I]. }
      destruct (c2 =? quote); [|discriminate].
      apply IHo; [exact Hs2|constructor]. }
    destruct (c =? ch "[").
    { pose proof (text_ok_skip_ws _ Hs') as Hsk.
      destruct (skip_ws s') as [|c2 s2]; [discriminate|].
      destruct (c2 =? ch "]").
      { apply List.Forall_cons_iff in Hsk as [_ Hs2].
        intros [= <- <-]. split; [exact I|exact Hs2]. }
      apply IHa; [exact Hsk|constructor]. }
    apply scan_literal_ok, Hs.
  - intros s acc v rest Hs Hacc. rewrite array_items_S.
    destruct (scan fuel s) as [value s1| |] eqn:Hscan; try discriminate.
    destruct (IHs _ _ _ Hs Hscan) as [Hvalue Hs1]. cbn [scan_bind].
    pose proof (text_ok_skip_ws _ Hs1) as Hsk.
    destruct (skip_ws s1) as [|c s2]; [discriminate|].
    apply List.Forall_cons_iff in Hsk as [_ Hs2].
    assert (Forall wf (acc ++ [value])) as Hacc'.
    { apply Forall_app. split; [exact Hacc|]. constructor; [exact Hvalue|constructor]. }
    destruct (c =? ch "]").
    { intros [= <- <-]. split; [|exact Hs2].
      apply (well_formed_list finite_repr float_of_literal), Hacc'. }
    destruct (c =? ch ","); [|discriminate].
    apply IHa; [apply text_ok_skip_ws, Hs2|exact Hacc'].
  - intros s pairs v rest Hs Hpairs. rewrite object_items_S.
    destruct (scanstring s) as [[key s1]|] eqn:Hkey; [|discriminate].
    destruct (scanstring_ok _ _ _ Hs Hkey) as [Hk Hs1].
    pose proof (text_ok_skip_ws _ Hs1) as Hsk.
    destruct (skip_ws s1) as [|c s2]; [discriminate|].
    apply List.Forall_cons_iff in Hsk as [_ Hs2].
    destruct (c =? ch ":"); [|discriminate].
    destruct (scan fuel (skip_ws s2)) as [value s3| |] eqn:Hscan;
      try discriminate.
    destruct (IHs _ _ _ (text_ok_skip_ws _ Hs2) Hscan) as [Hvalue Hs3].
    cbn [scan_bind].
    pose proof (text_ok_skip_ws _ Hs3) as Hsk3.
    destruct (skip_ws s3) as [|c' s4]; [discriminate|].
    apply List.Forall_cons_iff in Hsk3 as [_ Hs4].
    assert (Forall member_ok (pairs ++ [(key, value)])) as Hpairs'.
    { apply Forall_app. split; [exact Hpairs|].
      constructor; [split; assumption|constructor]. }
    destruct (c' =? ch "}").
    { intros [= <- <-]. split; [|exact Hs4].
      apply (well_formed_dict finite_repr float_of_literal).
      apply dict_of_pairs_ok, Hpairs'. }
    destruct (c' =? ch ","); [|discriminate].
    pose proof (text_ok_skip_ws _ Hs4) as Hsk4.
    destruct (skip_ws s4) as [|q s5]; [discriminate|].
    apply List.Forall_cons_iff in Hsk4 as [_ Hs5].
    destruct (q =? quote); [|discriminate].
    apply IHo; [exact Hs5|exact Hpairs'].
Qed.

Lemma loads_ok (s : str) (v : json) :
  text_ok s -> loads float_of_literal s = Ok v -> wf v.
Proof.
  intros Hs. unfold loads.
  assert (decode float_of_literal s = Ok v -> wf v) as Hdecode.
  { unfold decode.
    destruct (scan _ (skip_ws s)) as [obj rest| |] eqn:Hscan; try discriminate.
    destruct (skip_ws rest); [|discriminate]. intros [= <-].
    destruct (scan_ok (2 * length s + 1)) as (IHs & _).
    apply (IHs _ _ _ (text_ok_skip_ws _ Hs) Hscan). }
  destruct s as [|c s']; [exact Hdecode|].
  destruct (c =? 65279); [discriminate|exact Hdecode].
Qed.
End DecoderFacts.

(** ** Text files *)

Lemma fmap_cons_Some (c : N) (r : option str) (s : str) :
  cons c <$> r = Some s -> exists s', s = c :: s' /\ r = Some s'.
Proof. destruct r as [s'|]; simpl; [intros [= <-]; eauto|discriminate]. Qed.

(** The utf-8 codec yields no surrogate and nothing out of range. *)
Lemma utf8_decode_ok (bs : list N) (s : str) :
  utf8_decode bs = Some s -> text_ok s.
Proof.
  revert s. pattern bs. apply length_induction. clear bs. intros bs IH s.
  destruct bs as [|b0 bs1]; [intros [= <-]; constructor|].
  cbn [utf8_decode].
  destruct (b0 <? 128) eqn:E1.
  { intros H. apply fmap_cons_Some in H as (s' & -> & H).
    constructor; [b2p; lia|]. apply (IH bs1); [simpl; lia|exact H]. }
  destruct (in_range 194 223 b0) eqn:E2.
  { destruct bs1 as [|b1 bs2]; [discriminate|].
    destruct (is_cont b1) eqn:C1; [|discriminate].
    intros H. apply fmap_cons_Some in H as (s' & -> & H).
    constructor; [b2p; lia|]. apply (IH bs2); [simpl; lia|exact H]. }
  destruct (in_range 224 239 b0) eqn:E3.
  { destruct bs1 as [|b1 [|b2 bs3]]; try discriminate.
    destruct (in_range _ _ b1 && is_cont b2) eqn:C; [|discriminate].
    intros H. apply fmap_cons_Some in H as (s' & -> & H).
    constructor; [|apply (IH bs3); [simpl; lia|exact H]].
    apply andb_true_iff in C as [C1 C2].
    destruct (b0 =? 224) eqn:E224; destruct (b0 =? 237) eqn:E237; b2p; lia. }
  destruct (in_range 240 244 b0) eqn:E4; [|discriminate].
  destruct bs1 as [|b1 [|b2 [|b3 bs4]]]; try discriminate.
  destruct (in_range _ _ b1 && is_cont b2 && is_cont b3) eqn:C; [|discriminate].
  intros H. apply fmap_cons_Some in H as (s' & -> & H).
  constructor; [|apply (IH bs4); [simpl; lia|exact H]].
  apply andb_true_iff in C as [C C3]. apply andb_true_iff in C as [C1 C2].
  destruct (b0 =? 240) eqn:E240; destruct (b0 =? 244) eqn:E244; b2p; lia.
Qed.

Lemma universal_newlines_ok (s : str) :
  text_ok s -> text_ok (universal_newlines s).
Proof.
  induction s as [s IH] using length_induction. intros Hs.
  destruct s as [|c rest]; [constructor|].
  apply List.Forall_cons_iff in Hs as [Hc Hrest]. cbn [universal_newlines].
  destruct (c =? 13).
  - constructor; [reflexivity|].
    destruct rest as [|c' rest']; [constructor|].
    destruct (c' =? 10).
    + apply List.Forall_cons_iff in Hrest as [_ Hrest'].
      apply IH; [simpl; lia|exact Hrest'].
    + apply IH; [simpl; lia|exact Hrest].
  - constructor; [exact Hc|]. apply IH; [simpl; lia|exact Hrest].
Qed.

(** Printable ASCII goes through the codec and the newline translations
    unchanged. *)
Lemma printable_codec (linesep t : str) :
  Forall (fun c => printable c = true) t ->
  translate_newlines linesep t = t /\ utf8_encode t = Some t /\
  utf8_decode t = Some t /\ universal_newlines t = t.
Proof.
  induction 1 as [|c t Hc _ (IH1 & IH2 & IH3 & IH4)]; [auto|].
  assert (32 <= c <= 126) as Hr by (b2p; lia).
  repeat split.
  - unfold translate_newlines in *. cbn [flat_map]. rewrite IH1.
    test (c =? 10). reflexivity.
  - cbn [utf8_encode]. rewrite IH2. unfold utf8_encode_char.
    test (c <? 128). reflexivity.
  - cbn [utf8_decode]. test (c <? 128). rewrite IH3. reflexivity.
  - cbn [universal_newlines]. test (c =? 13). rewrite IH4. reflexivity.
Qed.

Lemma encode_chunks_printable (linesep : str) (chunks : list str) :
  Forall (Forall (fun c => printable c = true)) chunks ->
  encode_chunks linesep chunks = (concat chunks, None).
Proof.
  induction 1 as [|chunk chunks Hc _ IH]; [reflexivity|].
  cbn [encode_chunks concat].
  destruct (printable_codec linesep chunk Hc) as (-> & -> & _).
  rewrite IH. reflexivity.
Qed.

(** ** The projection keeps values well formed *)

Section PipelineFacts.
Context {finite : Type}.
Variable finite_repr : finite -> str.
Variable float_of_literal : str -> pyfloat finite.
Hypothesis float_repr_reads_back :
  forall t, float_literal t = true ->
            float_ok finite_repr float_of_literal (float_of_literal t).
#[local] Abbreviation json := (json finite).
#[local] Abbreviation wf := (well_formed finite_repr float_of_literal).
#[local] Abbreviation enc := (compact finite_repr).
#[local] Abbreviation load := (load_stops float_of_literal).
#[local] Abbreviation body := (try_body finite_repr float_of_literal).

Lemma json_load_ok (f : list N) (data : json) :
  json_load float_of_literal f = Ok data -> wf data.
Proof.
  unfold json_load, read.
  destruct (utf8_decode f) as [s|] eqn:Hs; [|discriminate]. simpl.
  apply (loads_ok finite_repr float_of_literal float_repr_reads_back).
  apply universal_newlines_ok, (utf8_decode_ok f), Hs.
Qed.

Lemma load_inv (w : world) (data : json) :
  snd (load w) = Ok data ->
  exists fin,
    files w !! "stops.txt" = Some fin /\ readable fin = true /\
    json_load float_of_literal (content fin) = Ok data.
Proof.
  unfold load_stops, io_bind, open_r, lift.
  destruct (files w !! "stops.txt") as [fin|]; [|discriminate].
  destruct (readable fin) eqn:Hr; [|discriminate]. simpl.
  intros H. exists fin. auto.
Qed.

Lemma dict_get_Forall {V} (P : str * V -> Prop) (k : str) (v : V)
      (d : list (str * V)) :
  Forall P d -> dict_get k d = Some v -> exists k', P (k', v).
Proof.
  induction 1 as [|[k' v'] d Hx _ IH]; simpl; [discriminate|].
  destruct (str_eqb k' k); [intros [= <-]; eauto|exact IH].
Qed.

Lemma lite_record_wf (stop r : json) :
  wf stop -> lite_record stop = Ok r -> wf r.
Proof.
  intros Hwf Hr.
  destruct (lite_record_inv _ _ Hr)
    as (d & i & n & l & o & -> & Hi & Hn & Hl & Ho & ->).
  apply (well_formed_dict finite_repr float_of_literal) in Hwf as [_ Hd].
  assert (forall k v, dict_get k d = Some v -> wf v) as Hget.
  { intros k v Hk. destruct (dict_get_Forall _ _ _ _ Hd Hk) as [k' [_ Hv]].
    exact Hv. }
  apply (well_formed_dict finite_repr float_of_literal). split.
  - apply NoDup_ListNoDup. repeat constructor; simpl; intros H;
      repeat destruct H as [H | H]; try discriminate H; exact H.
  - repeat (apply List.Forall_cons; [split; [reflexivity|]|]);
      try (eapply Hget; eassumption); [|constructor].
    cbn [snd]. destruct (dict_get (lit "locality") d) as [c|] eqn:Hc.
    + apply (Hget _ _ Hc).
    + reflexivity.
Qed.

Lemma iter_wf (data : json) (stops : list json) :
  wf data -> iter data = Ok stops -> Forall wf stops.
Proof.
  destruct data as [| | | |s|l|d]; try discriminate; intros Hwf [= <-].
  - simpl in Hwf. apply Forall_fmap.
    induction s as [|c s IH]; [constructor|].
    simpl in Hwf. apply andb_true_iff in Hwf as [Hc Hs].
    apply andb_true_iff in Hc as [Hc _].
    constructor; [|exact (IH Hs)].
    cbn. rewrite Hc, orb_true_r. reflexivity.
  - apply (well_formed_list finite_repr float_of_literal), Hwf.
  - apply (well_formed_dict finite_repr float_of_literal) in Hwf as [_ Hwf].
    apply Forall_fmap. revert Hwf. apply List.Forall_impl.
    intros [k v] [Hk _]. exact Hk.
Qed.

Lemma minimize_wf (data : json) (lite_data : list json) :
  wf data -> minimize data = Ok lite_data -> wf (JList lite_data).
Proof.
  intros Hwf. unfold minimize.
  destruct (iter data) as [stops|] eqn:Hiter; [|discriminate]. simpl.
  intros Hloop. apply project_loop_inv in Hloop as (rs & -> & Hrs).
  pose proof (iter_wf _ _ Hwf Hiter) as Hstops. clear Hiter.
  apply (well_formed_list finite_repr float_of_literal). simpl.
  induction Hrs as [|stop r stops rs Hr _ IH]; [constructor|].
  apply List.Forall_cons_iff in Hstops as [Hstop Hstops].
  constructor; [exact (lite_record_wf _ _ Hstop Hr)|exact (IH Hstops)].
Qed.

(** What the script projects from what it loads is well formed. *)
Lemma projected_wf (w : world) (data : json) (lite_data : list json) :
  snd (load w) = Ok data -> minimize data = Ok lite_data ->
  wf (JList lite_data).
Proof.
  intros Hload Hmin. destruct (load_inv _ _ Hload) as (fin & _ & _ & Hjson).
  exact (minimize_wf _ _ (json_load_ok _ _ Hjson) Hmin).
Qed.
End PipelineFacts.

(** ** Writing and reporting *)

Section RunFacts.
Context {finite : Type}.
Variable finite_repr : finite -> str.
Variable float_of_literal : str -> pyfloat finite.
Hypothesis float_repr_reads_back :
  forall t, float_literal t = true ->
            float_ok finite_repr float_of_literal (float_of_literal t).
#[local] Abbreviation json := (json finite).
#[local] Abbreviation wf := (well_formed finite_repr float_of_literal).
#[local] Abbreviation enc := (compact finite_repr).
#[local] Abbreviation load := (load_stops float_of_literal).
#[local] Abbreviation body := (try_body finite_repr float_of_literal).

Lemma dump_chunks_printable (v : json) :
  wf v ->
  Forall (Forall (fun c => printable c = true))
         (dump_chunks finite_repr (lit ",") (lit ":") v).
Proof.
  intros Hwf.
  destruct (iterencode_compact finite_repr float_of_literal v Hwf) as [Hall _].
  unfold dump_chunks. apply Forall_fmap. revert Hall.
  apply List.Forall_impl. intros c [(Hp & _) _]. exact Hp.
Qed.

(** Lines 19-20 on well-formed data: the file is refused, or it holds the
    text as far as there was room for it. *)
Lemma dump_lite_spec (lite_data : list json) (w : world) :
  wf (JList lite_data) ->
  let text := enc (JList lite_data) in
  let status :=
    if N.of_nat (length text) <=? room w then Ok tt
    else Raise (OSError 28 "No space left on device" None) in
  let denied :=
    Raise (OSError 13 "Permission denied" (Some "stops_lite.json"%string)) in
  dump_lite finite_repr lite_data w =
    match files w !! "stops_lite.json" with
    | None =>
        if creatable w then (written "stops_lite.json" true text w, status)
        else (w, denied)
    | Some f =>
        if writable f
        then (written "stops_lite.json" (readable f) text w, status)
        else (w, denied)
    end.
Proof.
  intros Hwf text status denied.
  assert (forall r,
            write_chunks "stops_lite.json"
              (dump_chunks finite_repr (lit ",") (lit ":") (JList lite_data))
              (set_files w (<["stops_lite.json"%string := File r true []]> (files w)))
            = (written "stops_lite.json" r text w, status)) as Hwrite.
  { intros r. unfold write_chunks, set_files. cbn [files linesep room creatable stdout].
    rewrite (encode_chunks_printable _ _ (dump_chunks_printable _ Hwf)).
    rewrite lookup_insert_eq. cbn [readable writable content app].
    rewrite insert_insert_eq.
    change (concat (dump_chunks finite_repr (lit ",") (lit ":") (JList lite_data)))
      with text.
    unfold written, status.
    destruct (N.of_nat (length text) <=? room w); reflexivity. }
  unfold dump_lite, io_bind, open_w.
  destruct (files w !! "stops_lite.json") as [f|].
  - destruct (writable f); [apply Hwrite|reflexivity].
  - destruct (creatable w); [apply Hwrite|reflexivity].
Qed.

(** Lines 22-23 once the whole text is written. *)
Lemma report_spec (w : world) (fin : file) (r : bool) (text : list N) :
  files w !! "stops.txt" = Some fin ->
  N.of_nat (length text) <= room w ->
  report (written "stops_lite.json" r text w)
  = (printed (printed (written "stops_lite.json" r text w)
                (original_line (N.of_nat (length (content fin)))))
       (new_line (N.of_nat (length text))),
     Ok tt).
Proof.
  intros Hfin Hroom.
  assert (take (N.to_nat (room w)) text = text) as Htake.
  { apply take_ge. lia. }
  unfold report, io_bind, getsize, written. rewrite Htake.
  cbn [files print fst].
  rewrite lookup_insert_ne by discriminate. rewrite Hfin.
  cbn [files print fst]. rewrite lookup_insert_eq. reflexivity.
Qed.

(** The body of the [try] statement, once the data is loaded and
    projected. *)
Lemma try_body_dump (w : world) (data : json) (lite_data : list json) :
  snd (load w) = Ok data -> minimize data = Ok lite_data ->
  body w =
    match dump_lite finite_repr lite_data w with
    | (w1, Ok _) => report w1
    | (w1, Raise e) => (w1, Raise e)
    end.
Proof.
  intros Hload Hmin. pose proof (load_world float_of_literal w) as Hw.
  unfold try_body, io_bind, lift.
  destruct (load w) as [w0 res]. simpl in *. subst. rewrite Hmin.
  reflexivity.
Qed.
End RunFacts.

Section Outcomes.
Context {finite : Type}.
Variable finite_repr : finite -> str.
Variable float_of_literal : str -> pyfloat finite.
Hypothesis float_repr_reads_back :
  forall t, float_literal t = true ->
            float_ok finite_repr float_of_literal (float_of_literal t).
#[local] Abbreviation json := (json finite).
#[local] Abbreviation wf := (well_formed finite_repr float_of_literal).
#[local] Abbreviation enc := (compact finite_repr).
#[local] Abbreviation load := (load_stops float_of_literal).
#[local] Abbreviation body := (try_body finite_repr float_of_literal).

Lemma written_outcome (w : world) (fin : file) (r : bool) (text : list N) :
  files w !! "stops.txt" = Some fin ->
  match
    (written "stops_lite.json" r text w,
     if N.of_nat (length text) <=? room w
     then Ok tt
     else Raise (OSError 28 "No space left on device" None))
  with
  | (w1, Ok _) => report w1
  | (w1, Raise e) => (w1, Raise e)
  end
  = if N.of_nat (length text) <=? room w
    then (printed (printed (written "stops_lite.json" r text w)
                     (original_line (N.of_nat (length (content fin)))))
            (new_line (N.of_nat (length text))),
          Ok tt)
    else (written "stops_lite.json" r text w,
          Raise (OSError 28 "No space left on device" None)).
Proof.
  intros Hfin.
  destruct (N.of_nat (length text) <=? room w) eqn:Hroom; [|reflexivity].
  apply N.leb_le in Hroom. apply (report_spec w fin r _ Hfin Hroom).
Qed.

(** The ways the body of the [try] statement can end: before the output
    file is touched, or with the output file holding the new text as far
    as there was room for it, the report printed when all of it went in. *)
Lemma try_body_outcome (w : world) :
  (exists e, body w = (w, Raise e)) \/
  (exists data lite_data fin r,
     snd (load w) = Ok data /\ minimize data = Ok lite_data /\
     files w !! "stops.txt" = Some fin /\
     body w =
       if N.of_nat (length (enc (JList lite_data))) <=? room w
       then (printed (printed (written "stops_lite.json" r
                                 (enc (JList lite_data)) w)
                        (original_line (N.of_nat (length (content fin)))))
               (new_line (N.of_nat (length (enc (JList lite_data))))),
             Ok tt)
       else (written "stops_lite.json" r (enc (JList lite_data)) w,
             Raise (OSError 28 "No space left on device" None))).
Proof.
  pose proof (load_world float_of_literal w) as Hw.
  destruct (snd (load w)) as [data|e] eqn:Hload.
  2:{ left. exists e. unfold try_body, io_bind.
      destruct (load w) as [w0 res]. simpl in *. subst. reflexivity. }
  destruct (minimize data) as [lite_data|e] eqn:Hmin.
  2:{ left. exists e. unfold try_body, io_bind, lift.
      destruct (load w) as [w0 res]. simpl in *. subst. rewrite Hmin.
      reflexivity. }
  pose proof (projected_wf finite_repr float_of_literal float_repr_reads_back
                w data lite_data Hload Hmin) as Hwf.
  destruct (load_inv float_of_literal w data Hload) as (fin & Hfin & _ & _).
  rewrite (try_body_dump finite_repr float_of_literal w data lite_data Hload Hmin).
  rewrite (dump_lite_spec finite_repr float_of_literal lite_data w Hwf).
  cbv zeta.
  destruct (files w !! "stops_lite.json") as [f|].
  - destruct (writable f); [|left; eauto].
    right. exists data, lite_data, fin, (readable f).
    repeat split; try assumption. apply written_outcome, Hfin.
  - destruct (creatable w); [|left; eauto].
    right. exists data, lite_data, fin, true.
    repeat split; try assumption. apply written_outcome, Hfin.
Qed.
End Outcomes.

(** ** Formatting sizes *)

Lemma round_half_even_near (num den : N) :
  0 < den ->
  2 * num <= 2 * (round_half_even num den * den) + den /\
  2 * (round_half_even num den * den) <= 2 * num + den.
Proof.
  intros Hden. unfold round_half_even.
  assert (num = den * (num / den) + num mod den /\ num mod den < den)
    as [Hdiv Hmod].
  { split; [apply N.div_mod; lia|apply N.mod_upper_bound; lia]. }
  generalize dependent (num mod den). generalize dependent (num / den).
  intros q r Hdiv Hmod.
  destruct ((den <? 2 * r) || ((2 * r =? den) && N.odd q)) eqn:E.
  - apply orb_true_iff in E as [E | E].
    + apply N.ltb_lt in E. nia.
    + apply andb_true_iff in E as [E _]. apply N.eqb_eq in E. nia.
  - apply orb_false_iff in E as [E _]. apply N.ltb_ge in E. nia.
Qed.

Lemma nearest_float_exact (n : N) : n < 2 ^ 53 -> nearest_float n = n.
Proof.
  intros Hn. unfold nearest_float.
  destruct (N.size n <=? 53) eqn:E; [reflexivity|].
  apply N.leb_gt in E. exfalso.
  pose proof (N.size_le n) as Hsize.
  assert (2 ^ 54 <= 2 ^ N.size n) by (apply N.pow_le_mono_r; lia).
  change (2 ^ 54) with (2 * 2 ^ 53) in *.
  rewrite N.succ_double_spec in Hsize. lia.
Qed.

(** [format_mb] writes the number of hundredths of a megabyte nearest to
    the size, as an integer part, a dot and two digits. *)
Lemma format_mb_spec (size : N) :
  size < 2 ^ 53 ->
  exists h,
    format_mb size
    = dec (h / 100) ++ [ch "."; 48 + (h / 10) mod 10; 48 + h mod 10] /\
    2 * (100 * size) <= 2 * (h * 1048576) + 1048576 /\
    2 * (h * 1048576) <= 2 * (100 * size) + 1048576.
Proof.
  intros Hsize. unfold format_mb. rewrite (nearest_float_exact size Hsize).
  exists (round_half_even (size * 100) (1024 * 1024)).
  split; [reflexivity|].
  pose proof (round_half_even_near (size * 100) (1024 * 1024)
                ltac:(reflexivity)) as H.
  change (1024 * 1024) with 1048576 in *. lia.
Qed.

(** ** The output file and the report *)

Section Artifact.
Context {finite : Type}.
Variable finite_repr : finite -> str.
Variable float_of_literal : str -> pyfloat finite.
Variable library_str : exn -> str.
Hypothesis float_repr_reads_back :
  forall t, float_literal t = true ->
            float_ok finite_repr float_of_literal (float_of_literal t).
#[local] Abbreviation json := (json finite).
#[local] Abbreviation wf := (well_formed finite_repr float_of_literal).
#[local] Abbreviation enc := (compact finite_repr).
#[local] Abbreviation load := (load_stops float_of_literal).
#[local] Abbreviation body := (try_body finite_repr float_of_literal).
#[local] Abbreviation run :=
  (optimize_data finite_repr float_of_literal library_str).

(** A run whose [try] block ends normally: what was loaded and projected,
    and the world it leaves. *)
Lemma try_body_success (w w' : world) :
  body w = (w', Ok tt) ->
  exists data lite_data fin r,
    snd (load w) = Ok data /\ minimize data = Ok lite_data /\
    wf (JList lite_data) /\
    files w !! "stops.txt" = Some fin /\
    files w' = <["stops_lite.json"%string :=
                   File r true (enc (JList lite_data))]> (files w) /\
    stdout w' = stdout w
                  ++ [original_line (N.of_nat (length (content fin)));
                      new_line (N.of_nat (length (enc (JList lite_data))))].
Proof.
  intros Hbody.
  destruct (try_body_outcome finite_repr float_of_literal
              float_repr_reads_back w)
    as [[e He] | (data & lite_data & fin & r & Hload & Hmin & Hfin & Hout)].
  { rewrite He in Hbody. discriminate Hbody. }
  rewrite Hout in Hbody.
  destruct (N.of_nat (length (enc (JList lite_data))) <=? room w) eqn:Hroom;
    [|discriminate Hbody].
  apply N.leb_le in Hroom. injection Hbody as <-.
  exists data, lite_data, fin, r.
  split; [exact Hload|]. split; [exact Hmin|].
  split; [exact (projected_wf finite_repr float_of_literal
                   float_repr_reads_back w data lite_data Hload Hmin)|].
  split; [exact Hfin|].
  unfold printed, print, written. cbn [fst files stdout].
  rewrite take_ge by lia. rewrite <- app_assoc. split; reflexivity.
Qed.

(** C4: after a run whose [try] block ends normally, [json.load] on the
    bytes of [stops_lite.json] returns exactly the sequence the run
    projected from its input. *)
Theorem output_reads_back (w w' : world) :
  body w = (w', Ok tt) ->
  exists data lite_data fout,
    snd (load w) = Ok data /\ minimize data = Ok lite_data /\
    files w' !! "stops_lite.json" = Some fout /\
    json_load float_of_literal (content fout) = Ok (JList lite_data).
Proof.
  intros Hbody.
  destruct (try_body_success w w' Hbody)
    as (data & lite_data & fin & r & Hload & Hmin & Hwf & _ & Hfiles & _).
  exists data, lite_data, (File r true (enc (JList lite_data))).
  split; [exact Hload|]. split; [exact Hmin|].
  split; [rewrite Hfiles; apply lookup_insert_eq|].
  cbn [content]. unfold json_load, read.
  destruct (printable_codec [] _ (compact_printable finite_repr
                                    float_of_literal _ Hwf))
    as (_ & _ & -> & ->).
  apply (loads_compact finite_repr float_of_literal _ Hwf).
Qed.

(** C8: a run whose [try] block ends normally prints the two lines of the
    report and nothing else, the first with the size in bytes of
    [stops.txt], the second with that of [stops_lite.json]; a size below
    2^53 is shown as the nearest number of hundredths of 1024 * 1024
    bytes, with two digits after the dot. *)
Theorem report_printed (w w' : world) :
  body w = (w', Ok tt) ->
  exists fin fout,
    files w !! "stops.txt" = Some fin /\
    files w' !! "stops_lite.json" = Some fout /\
    run w = (w', Ok tt) /\
    stdout w'
    = stdout w
        ++ [lit "Optimization complete. Original size: "
              ++ format_mb (N.of_nat (length (content fin))) ++ lit "MB";
            lit "New size: "
              ++ format_mb (N.of_nat (length (content fout))) ++ lit "MB"] /\
    forall size,
      size < 2 ^ 53 ->
      exists h,
        format_mb size
        = dec (h / 100) ++ [ch "."; 48 + (h / 10) mod 10; 48 + h mod 10] /\
        2 * (100 * size) <= 2 * (h * 1048576) + 1048576 /\
        2 * (h * 1048576) <= 2 * (100 * size) + 1048576.
Proof.
  intros Hbody.
  destruct (try_body_success w w' Hbody)
    as (data & lite_data & fin & r & _ & _ & _ & Hfin & Hfiles & Hout).
  exists fin, (File r true (enc (JList lite_data))).
  split; [exact Hfin|].
  split; [rewrite Hfiles; apply lookup_insert_eq|].
  split; [unfold optimize_data; rewrite Hbody; reflexivity|].
  split; [exact Hout|]. apply format_mb_spec.
Qed.


End Artifact.

(** ** The examples *)

(** Floats kept as their literals satisfy what is assumed of floats. *)
Lemma literal_reads_back (t : str) :
  float_literal t = true ->
  float_ok Literal.finite_repr Literal.float_of_literal
    (Literal.float_of_literal t).
Proof. intros H. split; [exact H|reflexivity]. Qed.

Lemma output_reads_back_witness :
  exists data lite_data fout,
    snd (load_stops Literal.float_of_literal
           (Examples.world_of Examples.elm_ave_txt)) = Ok data /\
    minimize data = Ok lite_data /\
    files (fst (try_body Literal.finite_repr Literal.float_of_literal
                  (Examples.world_of Examples.elm_ave_txt)))
      !! "stops_lite.json" = Some fout /\
    json_load Literal.float_of_literal (content fout) = Ok (JList lite_data).
Proof.
  apply (output_reads_back Literal.finite_repr Literal.float_of_literal
           literal_reads_back (Examples.world_of Examples.elm_ave_txt)).
  vm_compute. reflexivity.
Defined.

Lemma report_printed_witness :
  exists fin fout,
    files (Examples.world_of Examples.elm_ave_txt) !! "stops.txt" = Some fin /\
    files (fst (try_body Literal.finite_repr Literal.float_of_literal
                  (Examples.world_of Examples.elm_ave_txt)))
      !! "stops_lite.json" = Some fout /\
    Literal.run (Examples.world_of Examples.elm_ave_txt)
    = (fst (try_body Literal.finite_repr Literal.float_of_literal
              (Examples.world_of Examples.elm_ave_txt)), Ok tt) /\
    stdout (fst (try_body Literal.finite_repr Literal.float_of_literal
                   (Examples.world_of Examples.elm_ave_txt)))
    = stdout (Examples.world_of Examples.elm_ave_txt)
        ++ [lit "Optimization complete. Original size: "
              ++ format_mb (N.of_nat (length (content fin))) ++ lit "MB";
            lit "New size: "
              ++ format_mb (N.of_nat (length (content fout))) ++ lit "MB"] /\
    forall size,
      size < 2 ^ 53 ->
      exists h,
        format_mb size
        = dec (h / 100) ++ [ch "."; 48 + (h / 10) mod 10; 48 + h mod 10] /\
        2 * (100 * size) <= 2 * (h * 1048576) + 1048576 /\
        2 * (h * 1048576) <= 2 * (100 * size) + 1048576.
Proof.
  apply (report_printed Literal.finite_repr Literal.float_of_literal
           Literal.library_str literal_reads_back
           (Examples.world_of Examples.elm_ave_txt)).
  vm_compute. reflexivity.
Defined.





(** * Further properties of the script *)

(** ** The projection, record by record *)

Section ProjectionEdges.
Context {finite : Type}.
#[local] Abbreviation json := (json finite).

(** X1: for an object, line 12-15 raise [KeyError] for the first of
    [stop_id], [name], [lat], [lon] that the object lacks, and the record
    is projected when it lacks none; [locality] is never asked for with a
    subscript. *)
Theorem lite_record_first_missing (d : list (str * json)) :
  match List.filter (fun key => match dict_get (lit key) d with
                               | Some _ => false
                               | None => true
                               end)
                    required with
  | [] => exists r, lite_record (JDict d) = Ok r
  | key :: _ => lite_record (JDict d) = Raise (KeyError key)
  end.
Proof.
  unfold required, lite_record, getitem, get. cbn [List.filter].
  destruct (dict_get (lit "stop_id") d) as [i|];
    destruct (dict_get (lit "name") d) as [n|];
    destruct (dict_get (lit "lat") d) as [l|];
    destruct (dict_get (lit "lon") d) as [o|]; cbn [bind]; try reflexivity.
  destruct (dict_get (lit "locality") d); cbn [bind]; eauto.
Qed.

(** X2: every record of the projected sequence is an object with the five
    keys [i], [n], [l], [o], [c], in this order, and no other, whatever
    else the input record holds. *)
Theorem lite_data_keys (data : json) (lite_data : list json) :
  minimize data = Ok lite_data ->
  Forall (fun r => exists d,
              r = JDict d /\
              List.map fst d = [lit "i"; lit "n"; lit "l"; lit "o"; lit "c"])
         lite_data.
Proof.
  unfold minimize. destruct (iter data) as [stops|]; [|discriminate].
  simpl. intros Hloop. apply project_loop_inv in Hloop as (rs & -> & Hrs).
  simpl. induction Hrs as [|stop r stops rs Hr _ IH]; [constructor|].
  constructor; [|exact IH].
  destruct (lite_record_inv _ _ Hr) as (d & i & n & l & o & _ & _ & _ & _ & _ & ->).
  eexists. split; reflexivity.
Qed.

(** X3: the loop stops at the first record that cannot be projected and
    raises its exception; the records after it are not looked at. *)
Theorem minimize_first_failure (before after : list json) (bad : json)
        (e : exn) :
  Forall (fun stop => exists r, lite_record stop = Ok r) before ->
  lite_record bad = Raise e ->
  minimize (JList (before ++ bad :: after)) = Raise e.
Proof.
  intros Hbefore Hbad. unfold minimize. simpl.
  generalize (@nil json) as lite_data.
  induction Hbefore as [|stop before [r Hr] _ IH]; intros lite_data; simpl.
  - rewrite Hbad. reflexivity.
  - rewrite Hr. simpl. apply IH.
Qed.

(** X4: projecting two arrays one after the other is projecting their
    concatenation. *)
Theorem minimize_app (a b lite_a lite_b : list json) :
  minimize (JList a) = Ok lite_a -> minimize (JList b) = Ok lite_b ->
  minimize (JList (a ++ b)) = Ok (lite_a ++ lite_b).
Proof.
  unfold minimize. simpl. intros Ha Hb.
  apply project_loop_inv in Ha as (ra & -> & Hra).
  apply project_loop_inv in Hb as (rb & -> & Hrb).
  simpl. apply (project_loop_ok (a ++ b) (ra ++ rb) []).
  apply Forall2_app; assumption.
Qed.
End ProjectionEdges.

(** ** Runs that end with an error line *)

Section RunEdges.
Context {finite : Type}.
Variable finite_repr : finite -> str.
Variable float_of_literal : str -> pyfloat finite.
Variable library_str : exn -> str.
#[local] Abbreviation json := (json finite).
#[local] Abbreviation load := (load_stops float_of_literal).
#[local] Abbreviation body := (try_body finite_repr float_of_literal).
#[local] Abbreviation run :=
  (optimize_data finite_repr float_of_literal library_str).



End RunEdges.

(** ** Runs as a whole *)

Section WholeRuns.
Context {finite : Type}.
Variable finite_repr : finite -> str.
Variable float_of_literal : str -> pyfloat finite.
Variable library_str : exn -> str.
Hypothesis float_repr_reads_back :
  forall t, float_literal t = true ->
            float_ok finite_repr float_of_literal (float_of_literal t).
#[local] Abbreviation json := (json finite).
#[local] Abbreviation wf := (well_formed finite_repr float_of_literal).
#[local] Abbreviation enc := (compact finite_repr).
#[local] Abbreviation load := (load_stops float_of_literal).
#[local] Abbreviation body := (try_body finite_repr float_of_literal).
#[local] Abbreviation run :=
  (optimize_data finite_repr float_of_literal library_str).

(** X8: every run ends normally and prints either the one line
    [Error: ...] of an exception or the two lines of the report, never
    both and nothing else. *)
Theorem run_prints (w : world) :
  snd (run w) = Ok tt /\
  ((exists e,
      stdout (fst (run w))
      = stdout w ++ [lit "Error: " ++ str_of_exn library_str e]) \/
   (exists original new,
      stdout (fst (run w))
      = stdout w ++ [original_line original; new_line new])).
Proof.
  unfold optimize_data.
  destruct (try_body_outcome finite_repr float_of_literal
              float_repr_reads_back w)
    as [[e He] | (data & lite_data & fin & r & _ & _ & _ & Hout)].
  - rewrite He. split; [reflexivity|]. left. exists e. reflexivity.
  - rewrite Hout.
    destruct (N.of_nat (length (enc (JList lite_data))) <=? room w).
    + split; [reflexivity|]. right. eexists _, _.
      unfold printed, print, written. cbn [fst stdout].
      rewrite <- app_assoc. reflexivity.
    + split; [reflexivity|]. left. eexists. reflexivity.
Qed.

(** X9: when the loaded value has no items (an empty array, but also an
    empty object or an empty string) and the [try] block ends normally,
    the output file holds the two characters of an empty array. *)
Theorem empty_input_written (w w' : world) (data : json) :
  snd (load w) = Ok data -> iter data = Ok [] ->
  body w = (w', Ok tt) ->
  exists fout,
    files w' !! "stops_lite.json" = Some fout /\ content fout = lit "[]".
Proof.
  intros Hload Hiter Hbody.
  destruct (try_body_success finite_repr float_of_literal
              float_repr_reads_back w w' Hbody)
    as (data0 & lite_data & fin & r & Hload0 & Hmin & _ & _ & Hfiles & _).
  rewrite Hload in Hload0. injection Hload0 as <-.
  unfold minimize in Hmin. rewrite Hiter in Hmin. injection Hmin as <-.
  eexists. split; [rewrite Hfiles; apply lookup_insert_eq|reflexivity].
Qed.

(** X10: running the script again after a run that succeeded, with room
    left for the text, writes the same bytes to [stops_lite.json], leaves
    the other files alone and prints the same two lines once more. *)
Theorem second_run_same (w w1 w2 : world) :
  body w = (w1, Ok tt) -> body w1 = (w2, Ok tt) ->
  (exists f1 f2,
     files w1 !! "stops_lite.json" = Some f1 /\
     files w2 !! "stops_lite.json" = Some f2 /\
     content f2 = content f1) /\
  (forall p : string,
     p <> "stops_lite.json"%string -> files w2 !! p = files w1 !! p) /\
  exists first second,
    stdout w1 = stdout w ++ [first; second] /\
    stdout w2 = stdout w1 ++ [first; second].
Proof.
  intros H1 H2.
  destruct (try_body_success finite_repr float_of_literal
              float_repr_reads_back w w1 H1)
    as (data & lite & fin & r & Hload & Hmin & _ & Hfin & Hfiles & Hout).
  destruct (try_body_success finite_repr float_of_literal
              float_repr_reads_back w1 w2 H2)
    as (data' & lite' & fin' & r' & Hload' & Hmin' & _ & Hfin' & Hfiles' & Hout').
  assert (files w1 !! "stops.txt" = Some fin) as Hsame.
  { rewrite Hfiles, lookup_insert_ne by discriminate. exact Hfin. }
  rewrite Hsame in Hfin'. injection Hfin' as <-.
  assert (snd (load w1) = snd (load w)) as Hl.
  { unfold load_stops, io_bind, open_r, lift. rewrite Hsame, Hfin.
    destruct (readable fin); reflexivity. }
  rewrite Hl, Hload in Hload'. injection Hload' as <-.
  rewrite Hmin in Hmin'. injection Hmin' as <-.
  split; [|split].
  - eexists _, _. split; [rewrite Hfiles; apply lookup_insert_eq|].
    split; [rewrite Hfiles'; apply lookup_insert_eq|reflexivity].
  - intros p Hp. rewrite Hfiles'. apply lookup_insert_ne. congruence.
  - eexists _, _. split; [exact Hout|exact Hout'].
Qed.

(** X11: [json.loads] applied to the text that
    [json.dump(..., separators=(',', ':'))] writes for a value gives the
    value back, for every value of the kind [json.load] returns. *)
Theorem loads_inverts_dump (v : json) :
  wf v ->
  loads float_of_literal (dumps finite_repr (lit ",") (lit ":") v) = Ok v.
Proof. exact (loads_compact finite_repr float_of_literal v). Qed.

(** X12: whatever [json.load] returns from a file is well formed: no
    object holds a key twice, no string holds a code point out of range
    or a high surrogate right before a low one, and the [repr] of every
    finite float is a literal that [float] reads back. *)
Theorem json_load_well_formed (f : list N) (data : json) :
  json_load float_of_literal f = Ok data -> wf data.
Proof.
  exact (json_load_ok finite_repr float_of_literal float_repr_reads_back
           f data).
Qed.
End WholeRuns.

(** ** Objects with a key written twice *)

Lemma dict_get_set_eq {V} (k : str) (v : V) (d : list (str * V)) :
  dict_get k (dict_set k v d) = Some v.
Proof.
  induction d as [|[k' v'] d IH]; simpl.
  - rewrite str_eqb_refl. reflexivity.
  - destruct (str_eqb k' k) eqn:E; simpl; rewrite E; [reflexivity|exact IH].
Qed.

Lemma dict_get_set_ne {V} (k k' : str) (v : V) (d : list (str * V)) :
  k <> k' -> dict_get k' (dict_set k v d) = dict_get k' d.
Proof.
  intros Hne. induction d as [|[k0 v0] d IH]; simpl.
  - destruct (str_eqb k k') eqn:E; [|reflexivity].
    apply str_eqb_eq in E. contradiction.
  - destruct (str_eqb k0 k) eqn:E; simpl.
    + apply str_eqb_eq in E. subst k0.
      destruct (str_eqb k k') eqn:E'; [|reflexivity].
      apply str_eqb_eq in E'. contradiction.
    + destruct (str_eqb k0 k'); [reflexivity|exact IH].
Qed.

Lemma dict_get_app {V} (k : str) (a b : list (str * V)) :
  dict_get k (a ++ b)
  = match dict_get k a with
    | Some v => Some v
    | None => dict_get k b
    end.
Proof.
  induction a as [|[k' v'] a IH]; simpl; [reflexivity|].
  destruct (str_eqb k' k); [reflexivity|exact IH].
Qed.

(** X13: [dict(pairs)], which [json.load] applies to the members of every
    object, binds a key written more than once to the value written
    last. *)
Theorem dict_of_pairs_last {V} (pairs : list (str * V)) (k : str) :
  dict_get k (dict_of_pairs pairs) = dict_get k (rev pairs).
Proof.
  unfold dict_of_pairs.
  assert (forall acc : list (str * V),
            dict_get k (fold_left (fun d kv => dict_set (fst kv) (snd kv) d)
                                  pairs acc)
            = match dict_get k (rev pairs) with
              | Some v => Some v
              | None => dict_get k acc
              end) as H.
  { induction pairs as [|[k0 v0] pairs IH]; intros acc; [reflexivity|].
    cbn [fold_left rev fst snd]. rewrite IH, dict_get_app.
    destruct (dict_get k (rev pairs)) as [v|]; [reflexivity|].
    cbn [dict_get]. destruct (str_eqb k0 k) eqn:E.
    - apply str_eqb_eq in E. subst k0. apply dict_get_set_eq.
    - apply dict_get_set_ne. intros ->. rewrite str_eqb_refl in E.
      discriminate E. }
  rewrite H. destruct (dict_get k (rev pairs)); reflexivity.
Qed.

(** ** Small sizes *)

Lemma int_of_digits_dec (n : N) : int_of_digits (dec n) = n.
Proof. destruct (dec_spec n) as (c & ds & -> & _ & H & _). exact H. Qed.

(** X14: a size below 2^53 bytes is reported as [0.00] exactly when it
    is at most 5242 bytes, that is less than half a hundredth of
    1024 * 1024 bytes. *)
Theorem format_mb_zero (size : N) :
  size < 2 ^ 53 -> (format_mb size = lit "0.00" <-> size <= 5242).
Proof.
  intros Hsize. destruct (format_mb_spec size Hsize) as (h & Heq & Hlo & Hhi).
  rewrite Heq. split.
  - intros H.
    change (lit "0.00") with ([48] ++ [ch "."; 48; 48]) in H.
    apply app_inj_2 in H as [Hint Hfrac]; [|reflexivity].
    assert (h / 100 = 0) as Hq.
    { rewrite <- (int_of_digits_dec (h / 100)), Hint. reflexivity. }
    assert (h < 100) as Hh.
    { destruct (N.lt_ge_cases h 100) as [Hlt | Hge]; [exact Hlt|].
      exfalso. pose proof (N.Div0.div_le_mono 100 h 100 Hge) as Hd.
      rewrite Hq in Hd. change (100 / 100) with 1 in Hd. lia. }
    injection Hfrac as H1 H0.
    assert (h = 10 * (h / 10) + h mod 10 /\ h mod 10 < 10) as [Hdm Hm]
        by (split; [apply N.div_mod; lia|apply N.mod_upper_bound; lia]).
    assert (h / 10 < 10) as Hq10
        by (apply N.Div0.div_lt_upper_bound; lia).
    rewrite (N.mod_small (h / 10) 10 Hq10) in H1.
    generalize dependent (h mod 10). generalize dependent (h / 10).
    intros. lia.
  - intros Hle. assert (h = 0) as -> by lia. reflexivity.
Qed.

(** ** The utf-8 codec *)

Lemma div_mod_64 (n : N) : n = 64 * (n / 64) + n mod 64 /\ n mod 64 < 64.
Proof.
  split; [apply N.div_mod; discriminate|apply N.mod_upper_bound; discriminate].
Qed.

Lemma utf8_char_decode (c : N) (b rest : list N) :
  utf8_encode_char c = Some b ->
  utf8_decode (b ++ rest) = cons c <$> utf8_decode rest.
Proof.
  unfold utf8_encode_char.
  destruct (c <? 128) eqn:E1.
  { intros [= <-]. cbn [app utf8_decode]. rewrite E1. reflexivity. }
  destruct (c <? 2048) eqn:E2.
  { intros [= <-]. cbn [app utf8_decode].
    destruct (div_mod_64 c) as [Hc Hr].
    generalize dependent (c mod 64). generalize dependent (c / 64).
    intros q r Hc Hr.
    test (192 + q <? 128). test (in_range 194 223 (192 + q)).
    test (is_cont (128 + r)).
    replace ((192 + q - 192) * 64 + (128 + r - 128)) with c by (b2p; lia).
    reflexivity. }
  destruct (in_range 55296 57343 c) eqn:E3; [discriminate|].
  destruct (c <? 65536) eqn:E4.
  { intros [= <-]. cbn [app utf8_decode].
    replace (c / 4096) with (c / 64 / 64)
      by (rewrite N.Div0.div_div; reflexivity).
    destruct (div_mod_64 c) as [Hc Hr].
    destruct (div_mod_64 (c / 64)) as [Hc' Hr'].
    generalize dependent ((c / 64) mod 64).
    generalize dependent (c / 64 / 64).
    generalize dependent (c mod 64). generalize dependent (c / 64).
    intros q1 r1 Hc Hr q2 r2 Hq Hr2.
    test (224 + q2 <? 128). test (in_range 194 223 (224 + q2)).
    test (in_range 224 239 (224 + q2)).
    destruct (224 + q2 =? 224) eqn:E224; destruct (224 + q2 =? 237) eqn:E237;
      cbv iota;
      match goal with |- (if ?b then _ else _) = _ => test b end;
      (replace ((224 + q2 - 224) * 4096 + (128 + r2 - 128) * 64
                + (128 + r1 - 128)) with c by (b2p; lia));
      reflexivity. }
  destruct (c <? 1114112) eqn:E5; [|discriminate].
  intros [= <-]. cbn [app utf8_decode].
  replace (c / 262144) with (c / 64 / 64 / 64)
    by (rewrite !N.Div0.div_div; reflexivity).
  replace (c / 4096) with (c / 64 / 64)
    by (rewrite N.Div0.div_div; reflexivity).
  destruct (div_mod_64 c) as [Hc Hr].
  destruct (div_mod_64 (c / 64)) as [Hc' Hr'].
  destruct (div_mod_64 (c / 64 / 64)) as [Hc'' Hr''].
  generalize dependent ((c / 64 / 64) mod 64).
  generalize dependent (c / 64 / 64 / 64).
  generalize dependent ((c / 64) mod 64).
  generalize dependent (c / 64 / 64).
  generalize dependent (c mod 64). generalize dependent (c / 64).
  intros q1 r1 Hc Hr q2 r2 Hq Hr2 q3 r3 Hq3 Hr3.
  test (240 + q3 <? 128). test (in_range 194 223 (240 + q3)).
  test (in_range 224 239 (240 + q3)). test (in_range 240 244 (240 + q3)).
  destruct (240 + q3 =? 240) eqn:E240; destruct (240 + q3 =? 244) eqn:E244;
    cbv iota;
    match goal with |- (if ?b then _ else _) = _ => test b end;
    (replace ((240 + q3 - 240) * 262144 + (128 + r3 - 128) * 4096
              + (128 + r2 - 128) * 64 + (128 + r1 - 128))
       with c by (b2p; lia));
    reflexivity.
Qed.

Lemma utf8_encode_decode (s : str) (bs : list N) :
  utf8_encode s = Some bs -> utf8_decode bs = Some s.
Proof.
  revert bs. induction s as [|c s IH]; intros bs; cbn [utf8_encode].
  - intros [= <-]. reflexivity.
  - destruct (utf8_encode_char c) as [b|] eqn:Hc; [|discriminate].
    destruct (utf8_encode s) as [bs'|]; [|discriminate].
    intros [= <-]. rewrite (utf8_char_decode c b bs' Hc), (IH bs' eq_refl).
    reflexivity.
Qed.

Lemma utf8_encode_cons (c : N) (s : str) (b bs : list N) :
  utf8_encode_char c = Some b -> utf8_encode s = Some bs ->
  utf8_encode (c :: s) = Some (b ++ bs).
Proof. intros Hc Hs. cbn [utf8_encode]. rewrite Hc, Hs. reflexivity. Qed.

Lemma utf8_decode_encode (bs : list N) (s : str) :
  utf8_decode bs = Some s -> utf8_encode s = Some bs.
Proof.
  revert s. pattern bs. apply length_induction. clear bs. intros bs IH s.
  destruct bs as [|b0 bs1]; [intros [= <-]; reflexivity|].
  cbn [utf8_decode].
  destruct (b0 <? 128) eqn:E1.
  { intros H. apply fmap_cons_Some in H as (s' & -> & H).
    apply (utf8_encode_cons b0 s' [b0] bs1);
      [|apply (IH bs1); [simpl; lia|exact H]].
    unfold utf8_encode_char. rewrite E1. reflexivity. }
  destruct (in_range 194 223 b0) eqn:E2.
  { destruct bs1 as [|b1 bs2]; [discriminate|].
    destruct (is_cont b1) eqn:C1; [|discriminate].
    intros H. apply fmap_cons_Some in H as (s' & -> & H).
    apply (utf8_encode_cons _ s' [b0; b1] bs2);
      [|apply (IH bs2); [simpl; lia|exact H]].
    remember ((b0 - 192) * 64 + (b1 - 128)) as c eqn:Hc.
    assert (c / 64 = b0 - 192) as Hq
        by (symmetry; apply (N.div_unique c 64 _ (b1 - 128)); b2p; lia).
    assert (c mod 64 = b1 - 128) as Hm
        by (symmetry; apply (N.mod_unique c 64 (b0 - 192)); b2p; lia).
    unfold utf8_encode_char. test (c <? 128). test (c <? 2048).
    rewrite Hq, Hm. repeat match goal with
           | |- context [?k + (?b - ?k)] =>
               replace (k + (b - k)) with b by (b2p; lia)
           end.
    reflexivity. }
  destruct (in_range 224 239 b0) eqn:E3.
  { destruct bs1 as [|b1 [|b2 bs3]]; try discriminate.
    destruct (in_range _ _ b1 && is_cont b2) eqn:C; [|discriminate].
    intros H. apply fmap_cons_Some in H as (s' & -> & H).
    apply (utf8_encode_cons _ s' [b0; b1; b2] bs3);
      [|apply (IH bs3); [simpl; lia|exact H]].
    apply andb_true_iff in C as [C1 C2].
    remember ((b0 - 224) * 4096 + (b1 - 128) * 64 + (b2 - 128)) as c eqn:Hc.
    assert (128 <= b1 <= 191 /\ (b0 = 224 -> 160 <= b1)
            /\ (b0 = 237 -> b1 <= 159)) as (Hb1 & Hlo & Hhi).
    { destruct (b0 =? 224) eqn:E224; destruct (b0 =? 237) eqn:E237;
        b2p; lia. }
    assert (c / 4096 = b0 - 224) as Hq2
        by (symmetry;
            apply (N.div_unique c 4096 _ ((b1 - 128) * 64 + (b2 - 128)));
            b2p; lia).
    assert (c / 64 = (b0 - 224) * 64 + (b1 - 128)) as Hq1
        by (symmetry; apply (N.div_unique c 64 _ (b2 - 128)); b2p; lia).
    assert (c mod 64 = b2 - 128) as Hm
        by (symmetry;
            apply (N.mod_unique c 64 ((b0 - 224) * 64 + (b1 - 128)));
            b2p; lia).
    assert (((b0 - 224) * 64 + (b1 - 128)) mod 64 = b1 - 128) as Hm1
        by (symmetry; apply (N.mod_unique _ 64 (b0 - 224)); b2p; lia).
    unfold utf8_encode_char. test (c <? 128). test (c <? 2048).
    test (in_range 55296 57343 c). test (c <? 65536).
    rewrite Hq2, Hq1, Hm, Hm1. repeat match goal with
           | |- context [?k + (?b - ?k)] =>
               replace (k + (b - k)) with b by (b2p; lia)
           end.
    reflexivity. }
  destruct (in_range 240 244 b0) eqn:E4; [|discriminate].
  destruct bs1 as [|b1 [|b2 [|b3 bs4]]]; try discriminate.
  destruct (in_range _ _ b1 && is_cont b2 && is_cont b3) eqn:C; [|discriminate].
  intros H. apply fmap_cons_Some in H as (s' & -> & H).
  apply (utf8_encode_cons _ s' [b0; b1; b2; b3] bs4);
    [|apply (IH bs4); [simpl; lia|exact H]].
  apply andb_true_iff in C as [C C3]. apply andb_true_iff in C as [C1 C2].
  remember ((b0 - 240) * 262144 + (b1 - 128) * 4096 + (b2 - 128) * 64
            + (b3 - 128)) as c eqn:Hc.
  assert (128 <= b1 <= 191 /\ (b0 = 240 -> 144 <= b1)
          /\ (b0 = 244 -> b1 <= 143)) as (Hb1 & Hlo & Hhi).
  { destruct (b0 =? 240) eqn:E240; destruct (b0 =? 244) eqn:E244;
      b2p; lia. }
  assert (c / 262144 = b0 - 240) as Hq3
      by (symmetry;
          apply (N.div_unique c 262144 _
                   ((b1 - 128) * 4096 + (b2 - 128) * 64 + (b3 - 128)));
          b2p; lia).
  assert (c / 4096 = (b0 - 240) * 64 + (b1 - 128)) as Hq2
      by (symmetry;
          apply (N.div_unique c 4096 _ ((b2 - 128) * 64 + (b3 - 128)));
          b2p; lia).
  assert (c / 64 = (b0 - 240) * 4096 + (b1 - 128) * 64 + (b2 - 128)) as Hq1
      by (symmetry; apply (N.div_unique c 64 _ (b3 - 128)); b2p; lia).
  assert (c mod 64 = b3 - 128) as Hm
      by (symmetry;
          apply (N.mod_unique c 64
                   ((b0 - 240) * 4096 + (b1 - 128) * 64 + (b2 - 128)));
          b2p; lia).
  assert (((b0 - 240) * 4096 + (b1 - 128) * 64 + (b2 - 128)) mod 64
          = b2 - 128) as Hm1
      by (symmetry;
          apply (N.mod_unique _ 64 ((b0 - 240) * 64 + (b1 - 128)));
          b2p; lia).
  assert (((b0 - 240) * 64 + (b1 - 128)) mod 64 = b1 - 128) as Hm2
      by (symmetry; apply (N.mod_unique _ 64 (b0 - 240)); b2p; lia).
  unfold utf8_encode_char. test (c <? 128). test (c <? 2048).
  test (in_range 55296 57343 c). test (c <? 65536). test (c <? 1114112).
  rewrite Hq3, Hq2, Hq1, Hm, Hm1, Hm2.
  repeat match goal with
           | |- context [?k + (?b - ?k)] =>
               replace (k + (b - k)) with b by (b2p; lia)
           end.
    reflexivity.
Qed.

(** X15: the utf-8 codec of the two [open] calls: a sequence of bytes
    decodes to a text exactly when the text encodes to these bytes.  So
    the decoder takes one encoding of each text only, and no text with a
    surrogate or a code point out of range has one. *)
Theorem utf8_round_trip (bs : list N) (s : str) :
  utf8_decode bs = Some s <-> utf8_encode s = Some bs.
Proof. split; [apply utf8_decode_encode|apply utf8_encode_decode]. Qed.

(** ** Items that are no stop records *)

Section ItemEdges.
Context {finite : Type}.
Variable finite_repr : finite -> str.
Variable float_of_literal : str -> pyfloat finite.
Variable library_str : exn -> str.
#[local] Abbreviation json := (json finite).
#[local] Abbreviation load := (load_stops float_of_literal).
#[local] Abbreviation run :=
  (optimize_data finite_repr float_of_literal library_str).



(** X17: the projection cannot be applied to its own result: a record it
    made has no [stop_id], so that projecting a sequence of such records
    that is not empty raises [KeyError] for [stop_id] at its first
    record. *)
Theorem minimize_twice (data : json) (r : json) (rs : list json) :
  minimize data = Ok (r :: rs) ->
  minimize (JList (r :: rs)) = Raise (KeyError "stop_id").
Proof.
  unfold minimize. destruct (iter data) as [stops|]; [|discriminate].
  simpl. intros Hloop. apply project_loop_inv in Hloop as (rs' & Heq & Hrs).
  simpl in Heq. subst rs'.
  inversion Hrs as [|stop r0 stops' rs0 Hr _]; subst.
  destruct (lite_record_inv _ _ Hr)
    as (d & i & n & l & o & _ & _ & _ & _ & _ & ->).
  reflexivity.
Qed.
End ItemEdges.

(** ** The further properties on the examples *)

Lemma lite_data_keys_witness :
  Forall (fun r : json Literal.finite =>
            exists d,
              r = JDict d /\
              List.map fst d = [lit "i"; lit "n"; lit "l"; lit "o"; lit "c"])
         [EdgeExamples.lite_main_st; EdgeExamples.lite_elm_ave].
Proof.
  apply (lite_data_keys (JList [Examples.main_st; Examples.elm_ave])).
  reflexivity.
Defined.

Lemma minimize_first_failure_witness :
  minimize (JList ([Examples.main_st]
                     ++ EdgeExamples.id_only :: [Examples.elm_ave]))
  = Raise (KeyError "name").
Proof.
  apply (minimize_first_failure [Examples.main_st] [Examples.elm_ave]
           EdgeExamples.id_only).
  - repeat constructor. eexists. reflexivity.
  - reflexivity.
Defined.

Lemma minimize_app_witness :
  minimize (JList ([Examples.main_st] ++ [Examples.elm_ave]))
  = Ok ([EdgeExamples.lite_main_st] ++ [EdgeExamples.lite_elm_ave]).
Proof.
  apply (minimize_app [Examples.main_st] [Examples.elm_ave]); reflexivity.
Defined.




Lemma run_prints_witness :
  snd (Literal.run (Examples.world_of Examples.elm_ave_txt)) = Ok tt /\
  ((exists e,
      stdout (fst (Literal.run (Examples.world_of Examples.elm_ave_txt)))
      = stdout (Examples.world_of Examples.elm_ave_txt)
          ++ [lit "Error: " ++ str_of_exn Literal.library_str e]) \/
   (exists original new,
      stdout (fst (Literal.run (Examples.world_of Examples.elm_ave_txt)))
      = stdout (Examples.world_of Examples.elm_ave_txt)
          ++ [original_line original; new_line new])).
Proof.
  exact (run_prints Literal.finite_repr Literal.float_of_literal
           Literal.library_str literal_reads_back
           (Examples.world_of Examples.elm_ave_txt)).
Defined.

Lemma empty_input_written_witness :
  exists fout,
    files (fst (try_body Literal.finite_repr Literal.float_of_literal
                  (Examples.world_of (lit "[]"))))
      !! "stops_lite.json" = Some fout /\
    content fout = lit "[]".
Proof.
  apply (empty_input_written Literal.finite_repr Literal.float_of_literal
           literal_reads_back (Examples.world_of (lit "[]")) _ (JList []));
    vm_compute; reflexivity.
Defined.

Lemma second_run_same_witness :
  (exists f1 f2,
     files EdgeExamples.ran_once !! "stops_lite.json" = Some f1 /\
     files EdgeExamples.ran_twice !! "stops_lite.json" = Some f2 /\
     content f2 = content f1) /\
  (forall p : string,
     p <> "stops_lite.json"%string ->
     files EdgeExamples.ran_twice !! p = files EdgeExamples.ran_once !! p) /\
  exists first second,
    stdout EdgeExamples.ran_once
    = stdout (Examples.world_of Examples.elm_ave_txt) ++ [first; second] /\
    stdout EdgeExamples.ran_twice
    = stdout EdgeExamples.ran_once ++ [first; second].
Proof.
  apply (second_run_same Literal.finite_repr Literal.float_of_literal
           literal_reads_back (Examples.world_of Examples.elm_ave_txt)
           EdgeExamples.ran_once EdgeExamples.ran_twice);
    vm_compute; reflexivity.
Defined.

Lemma loads_inverts_dump_witness :
  loads Literal.float_of_literal
    (dumps Literal.finite_repr (lit ",") (lit ":")
       (JList [EdgeExamples.lite_elm_ave]))
  = Ok (JList [EdgeExamples.lite_elm_ave]).
Proof.
  apply (loads_inverts_dump Literal.finite_repr Literal.float_of_literal).
  repeat split;
    first [reflexivity | apply (bool_decide_unpack _); vm_compute; reflexivity].
Defined.

Lemma json_load_well_formed_witness :
  well_formed Literal.finite_repr Literal.float_of_literal
    (JList [Examples.elm_ave]).
Proof.
  apply (json_load_well_formed Literal.finite_repr Literal.float_of_literal
           literal_reads_back Examples.elm_ave_txt).
  vm_compute. reflexivity.
Defined.

Lemma format_mb_zero_witness :
  format_mb 5242 = lit "0.00" <-> 5242 <= 5242.
Proof. apply (format_mb_zero 5242). reflexivity. Defined.


Lemma minimize_twice_witness :
  minimize (JList [EdgeExamples.lite_elm_ave])
  = Raise (KeyError "stop_id").
Proof.
  apply (minimize_twice (JList [Examples.elm_ave])
           EdgeExamples.lite_elm_ave []).
  reflexivity.
Defined.

(** ** White space around the document *)

Lemma skip_ws_blank (t : str) :
  Forall (fun c => is_ws c = true) t -> skip_ws t = [].
Proof. induction 1 as [|c t Hc _ IH]; simpl; [|rewrite Hc]; auto. Qed.

Lemma skip_ws_blank_app (pre s : str) :
  Forall (fun c => is_ws c = true) pre -> skip_ws (pre ++ s) = skip_ws s.
Proof. induction 1 as [|c pre Hc _ IH]; simpl; [|rewrite Hc]; auto. Qed.

Lemma skip_ws_suffix (s t r : str) (c : N) :
  skip_ws s = c :: r -> skip_ws (s ++ t) = c :: r ++ t.
Proof.
  induction s as [|a s IH]; simpl; [discriminate|].
  destruct (is_ws a); [exact IH|]. intros [= <- <-]. reflexivity.
Qed.

Lemma skip_ws_nil_suffix (s t : str) :
  skip_ws s = [] -> skip_ws (s ++ t) = skip_ws t.
Proof.
  induction s as [|a s IH]; simpl; [reflexivity|].
  destruct (is_ws a); [exact IH|discriminate].
Qed.

Lemma scanned_scanstring (s v rest : str) :
  scanned s v rest -> scanstring s = Some (v, rest).
Proof.
  induction 1 as [s
                 |c s v rest Hq Hb Hc _ IH
                 |esc c s v rest Hesc _ IH
                 |x3 x2 x1 x0 uni s v rest Hd Hlow _ IH
                 |x3 x2 x1 x0 y3 y2 y1 y0 uni uni2 s v rest Hd Hd2 Hh Hl _ IH].
  - apply scanstring_quote.
  - rewrite scanstring_plain, IH by assumption. reflexivity.
  - rewrite (scanstring_unescape esc c), IH by assumption. reflexivity.
  - rewrite (scanstring_u x3 x2 x1 x0 uni), IH by assumption. reflexivity.
  - rewrite (scanstring_pair x3 x2 x1 x0 y3 y2 y1 y0 uni uni2), IH
      by assumption.
    reflexivity.
Qed.

(** What follows a string scanned to its closing quote has no part in
    the test for the escape of a low surrogate. *)
Lemma low_escape_next_suffix (s v rest t : str) :
  scanned s v rest -> low_escape_next s = false ->
  low_escape_next (s ++ t) = false.
Proof.
  destruct 1 as [s
                |c s v rest Hq Hb Hc _
                |esc c s v rest Hesc _
                |x3 x2 x1 x0 uni s v rest Hd Hlow _
                |x3 x2 x1 x0 y3 y2 y1 y0 uni uni2 s v rest Hd Hd2 Hh Hl _];
    try (intros H; exact H).
  - intros _. cbn [app low_escape_next]. apply N.eqb_neq in Hb. rewrite Hb.
    reflexivity.
  - intros _. cbn [app low_escape_next].
    destruct (esc =? ch "u") eqn:Eu; [|apply andb_false_r].
    apply N.eqb_eq in Eu. subst esc. discriminate Hesc.
Qed.

Lemma scanned_suffix (s v rest t : str) :
  scanned s v rest -> scanned (s ++ t) v (rest ++ t).
Proof.
  induction 1 as [s
                 |c s v rest Hq Hb Hc _ IH
                 |esc c s v rest Hesc _ IH
                 |x3 x2 x1 x0 uni s v rest Hd Hlow Hs IH
                 |x3 x2 x1 x0 y3 y2 y1 y0 uni uni2 s v rest Hd Hd2 Hh Hl _ IH];
    cbn [app].
  - constructor.
  - constructor; assumption.
  - apply scanned_escape; assumption.
  - apply scanned_u; [exact Hd| |exact IH].
    intros Hh. apply (low_escape_next_suffix s v rest t Hs), Hlow, Hh.
  - apply (scanned_pair x3 x2 x1 x0 y3 y2 y1 y0 uni uni2); assumption.
Qed.

Lemma scanstring_suffix (s v rest t : str) :
  scanstring s = Some (v, rest) -> scanstring (s ++ t) = Some (v, rest ++ t).
Proof.
  intros H. apply scanned_scanstring, scanned_suffix, scanstring_scanned, H.
Qed.

Section Suffix.
Context {finite : Type}.
Variable float_of_literal : str -> pyfloat finite.
Variable t : str.
Hypothesis blank : Forall (fun c => is_ws c = true) t.
#[local] Abbreviation json := (json finite).
#[local] Abbreviation scan := (scan_once float_of_literal).

Lemma blank_cases : t = [] \/ exists c t', t = c :: t' /\ is_ws c = true.
Proof. destruct blank as [|c t' Hc _]; [left|right]; eauto. Qed.

Lemma span_digits_blank : span_digits t = ([], t).
Proof.
  destruct blank_cases as [E | (c & t' & E & Hc)]; rewrite E; [reflexivity|].
  simpl. test (is_digit c). reflexivity.
Qed.

Lemma span_digits_suffix (s d r : str) :
  span_digits s = (d, r) -> span_digits (s ++ t) = (d, r ++ t).
Proof.
  revert d r. induction s as [|c s IH]; intros d r; simpl.
  - intros [= <- <-]. apply span_digits_blank.
  - destruct (is_digit c).
    + destruct (span_digits s) as [d' r']. intros [= <- <-].
      rewrite (IH d' r' eq_refl). reflexivity.
    + intros [= <- <-]. reflexivity.
Qed.

Lemma match_integer_blank : match_integer t = None.
Proof.
  destruct blank_cases as [E | (c & t' & E & Hc)]; rewrite E; [reflexivity|].
  unfold match_integer. test (c =? ch "-"). test (c =? ch "0").
  test (is_digit c). reflexivity.
Qed.

Lemma match_integer_suffix (s : str) :
  match_integer (s ++ t)
  = match match_integer s with
    | Some (i, r) => Some (i, r ++ t)
    | None => None
    end.
Proof.
  destruct s as [|c s'].
  - apply match_integer_blank.
  - unfold match_integer. cbn [app].
    destruct (c =? ch "-"); cbv beta iota.
    + destruct s' as [|c' s2]; cbn [app].
      * destruct blank_cases as [E | (c0 & t' & E & Hc)]; rewrite E;
          [reflexivity|].
        test (c0 =? ch "0"). test (is_digit c0). reflexivity.
      * destruct (c' =? ch "0"); [reflexivity|].
        destruct (is_digit c'); [|reflexivity].
        destruct (span_digits s2) as [d r] eqn:Hs.
        rewrite (span_digits_suffix _ _ _ Hs). reflexivity.
    + destruct (c =? ch "0"); [reflexivity|].
      destruct (is_digit c); [|reflexivity].
      destruct (span_digits s') as [d r] eqn:Hs.
      rewrite (span_digits_suffix _ _ _ Hs). reflexivity.
Qed.

Lemma match_frac_suffix (s : str) :
  match_frac (s ++ t) = let (f, r) := match_frac s in (f, r ++ t).
Proof.
  destruct s as [|c s'].
  - cbn [app match_frac].
    destruct blank_cases as [E | (c & t' & E & Hc)]; rewrite E; [reflexivity|].
    unfold match_frac. test (c =? ch "."). reflexivity.
  - unfold match_frac. cbn [app]. destruct (c =? ch "."); [|reflexivity].
    destruct (span_digits s') as [d r] eqn:Hs.
    rewrite (span_digits_suffix _ _ _ Hs). destruct d; reflexivity.
Qed.

Lemma match_exp_suffix (s : str) :
  match_exp (s ++ t) = let (e, r) := match_exp s in (e, r ++ t).
Proof.
  destruct s as [|c s'].
  - cbn [app match_exp].
    destruct blank_cases as [E | (c & t' & E & Hc)]; rewrite E; [reflexivity|].
    unfold match_exp. test ((c =? ch "e") || (c =? ch "E")). reflexivity.
  - unfold match_exp. cbn [app].
    destruct ((c =? ch "e") || (c =? ch "E")); [|reflexivity].
    destruct s' as [|c' s2].
    + cbn [app]. pose proof span_digits_blank as Hb.
      destruct blank_cases as [E | (c0 & t' & E & Hc)]; rewrite E in *;
        [reflexivity|].
      test ((c0 =? ch "-") || (c0 =? ch "+")). rewrite Hb. reflexivity.
    + cbn [app]. destruct ((c' =? ch "-") || (c' =? ch "+")).
      * destruct (span_digits s2) as [d r] eqn:Hs.
        rewrite (span_digits_suffix _ _ _ Hs). destruct d; reflexivity.
      * change (c' :: s2 ++ t) with ((c' :: s2) ++ t).
        destruct (span_digits (c' :: s2)) as [d r] eqn:Hs.
        rewrite (span_digits_suffix _ _ _ Hs). destruct d; reflexivity.
Qed.

Lemma match_number_suffix (s : str) :
  match_number (s ++ t)
  = match match_number s with
    | Some (i, f, e, r) => Some (i, f, e, r ++ t)
    | None => None
    end.
Proof.
  unfold match_number. rewrite match_integer_suffix.
  destruct (match_integer s) as [[i s1]|]; [|reflexivity].
  rewrite match_frac_suffix. destruct (match_frac s1) as [f s2].
  rewrite match_exp_suffix. destruct (match_exp s2) as [e s3]. reflexivity.
Qed.

Lemma starts_with_suffix (p s : str) :
  Forall (fun c => is_ws c = false) p ->
  starts_with p (s ++ t)
  = match starts_with p s with
    | Some r => Some (r ++ t)
    | None => None
    end.
Proof.
  intros Hp. revert s. induction Hp as [|a p Ha _ IH]; intros s.
  - reflexivity.
  - destruct s as [|b s]; cbn [app starts_with].
    + destruct blank_cases as [E | (c & t' & E & Hc)]; rewrite E;
        [reflexivity|].
      cbn [starts_with]. destruct (a =? c) eqn:Eac; [|reflexivity].
      apply N.eqb_eq in Eac. subst c. congruence.
    + destruct (a =? b); [apply IH|reflexivity].
Qed.

Lemma scan_literal_suffix (s : str) :
  scan_literal float_of_literal (s ++ t)
  = match scan_literal float_of_literal s with
    | Scanned v r => Scanned v (r ++ t)
    | Rejected => Rejected
    | Exhausted => Exhausted
    end.
Proof.
  unfold scan_literal.
  rewrite !starts_with_suffix by (repeat constructor).
  rewrite match_number_suffix.
  destruct (starts_with (lit "null") s); [reflexivity|].
  destruct (starts_with (lit "true") s); [reflexivity|].
  destruct (starts_with (lit "false") s); [reflexivity|].
  destruct (match_number s) as [[[[i f] e] r]|];
    [destruct f, e; reflexivity|].
  destruct (starts_with (lit "NaN") s); [reflexivity|].
  destruct (starts_with (lit "Infinity") s); [reflexivity|].
  destruct (starts_with (lit "-Infinity") s); reflexivity.
Qed.

Lemma scan_once_nil (fuel : nat) (v : json) (r : str) :
  scan fuel [] <> Scanned v r.
Proof. destruct fuel; discriminate. Qed.

Lemma array_items_nil (fuel : nat) (acc : list json) (v : json) (r : str) :
  array_items float_of_literal fuel [] acc <> Scanned v r.
Proof. destruct fuel as [|[|fuel]]; discriminate. Qed.

(** A value scanned from a text is scanned from the text followed by
    white space, which is then left over. *)
Lemma scan_suffix (fuel : nat) :
  (forall s v r,
     scan fuel s = Scanned v r -> scan fuel (s ++ t) = Scanned v (r ++ t)) /\
  (forall s acc v r,
     array_items float_of_literal fuel s acc = Scanned v r ->
     array_items float_of_literal fuel (s ++ t) acc = Scanned v (r ++ t)) /\
  (forall s pairs v r,
     object_items float_of_literal fuel s pairs = Scanned v r ->
     object_items float_of_literal fuel (s ++ t) pairs = Scanned v (r ++ t)).
Proof.
  induction fuel as [|fuel (IHs & IHa & IHo)].
  { repeat split; intros; discriminate. }
  split; [|split].
  - intros [|c s'] v r; [discriminate|]. cbn [app scan_once].
    destruct (c =? quote).
    { destruct (scanstring s') as [[v0 r0]|] eqn:Hscan; [|discriminate].
      rewrite (scanstring_suffix _ _ _ t Hscan). intros [= <- <-].
      reflexivity. }
    destruct (c =? ch "{").
    { destruct (skip_ws s') as [|c2 s2] eqn:Hsk; [discriminate|].
      rewrite (skip_ws_suffix _ t _ _ Hsk).
      destruct (c2 =? ch "}"); [intros [= <- <-]; reflexivity|].
      destruct (c2 =? quote); [|discriminate]. apply IHo. }
    destruct (c =? ch "[").
    { destruct (skip_ws s') as [|c2 s2] eqn:Hsk; [discriminate|].
      rewrite (skip_ws_suffix _ t _ _ Hsk).
      destruct (c2 =? ch "]"); [intros [= <- <-]; reflexivity|].
      apply (IHa (c2 :: s2)). }
    intros H. change (c :: s' ++ t) with ((c :: s') ++ t).
    rewrite scan_literal_suffix, H. reflexivity.
  - intros s acc v r. rewrite !array_items_S.
    destruct (scan fuel s) as [value s1| |] eqn:Hscan; try discriminate.
    rewrite (IHs _ _ _ Hscan). cbn [scan_bind].
    destruct (skip_ws s1) as [|c s2] eqn:Hsk; [discriminate|].
    rewrite (skip_ws_suffix _ t _ _ Hsk).
    destruct (c =? ch "]"); [intros [= <- <-]; reflexivity|].
    destruct (c =? ch ","); [|discriminate].
    destruct (skip_ws s2) as [|c3 s3] eqn:Hsk2.
    { intros H. destruct (array_items_nil _ _ _ _ H). }
    rewrite (skip_ws_suffix _ t _ _ Hsk2). apply (IHa (c3 :: s3)).
  - intros s pairs v r. rewrite !object_items_S.
    destruct (scanstring s) as [[key s1]|] eqn:Hkey; [|discriminate].
    rewrite (scanstring_suffix _ _ _ t Hkey).
    destruct (skip_ws s1) as [|c s2] eqn:Hsk; [discriminate|].
    rewrite (skip_ws_suffix _ t _ _ Hsk).
    destruct (c =? ch ":"); [|discriminate].
    destruct (skip_ws s2) as [|c3 s3] eqn:Hsk2.
    { destruct (scan fuel []) as [value s3| |] eqn:Hscan; try discriminate.
      destruct (scan_once_nil _ _ _ Hscan). }
    rewrite (skip_ws_suffix _ t _ _ Hsk2).
    destruct (scan fuel (c3 :: s3)) as [value s4| |] eqn:Hscan;
      try discriminate.
    change (c3 :: s3 ++ t) with ((c3 :: s3) ++ t).
    rewrite (IHs _ _ _ Hscan). cbn [scan_bind].
    destruct (skip_ws s4) as [|c' s5] eqn:Hsk4; [discriminate|].
    rewrite (skip_ws_suffix _ t _ _ Hsk4).
    destruct (c' =? ch "}"); [intros [= <- <-]; reflexivity|].
    destruct (c' =? ch ","); [|discriminate].
    destruct (skip_ws s5) as [|q s6] eqn:Hsk5; [discriminate|].
    rewrite (skip_ws_suffix _ t _ _ Hsk5).
    destruct (q =? quote); [|discriminate]. apply IHo.
Qed.
End Suffix.

Section Blank.
Context {finite : Type}.
Variable float_of_literal : str -> pyfloat finite.
#[local] Abbreviation json := (json finite).
#[local] Abbreviation scan := (scan_once float_of_literal).

(** More calls allowed change no value scanned. *)
Lemma scan_fuel (fuel : nat) :
  forall fuel', (fuel <= fuel')%nat ->
  (forall s v r,
     scan fuel s = Scanned v r -> scan fuel' s = Scanned v r) /\
  (forall s acc v r,
     array_items float_of_literal fuel s acc = Scanned v r ->
     array_items float_of_literal fuel' s acc = Scanned v r) /\
  (forall s pairs v r,
     object_items float_of_literal fuel s pairs = Scanned v r ->
     object_items float_of_literal fuel' s pairs = Scanned v r).
Proof.
  induction fuel as [|fuel IH]; intros fuel' Hle.
  { repeat split; intros; discriminate. }
  destruct fuel' as [|fuel']; [lia|].
  destruct (IH fuel' ltac:(lia)) as (IHs & IHa & IHo).
  split; [|split].
  - intros [|c s'] v r; [discriminate|]. cbn [scan_once].
    destruct (c =? quote); [exact (fun H => H)|].
    destruct (c =? ch "{").
    { destruct (skip_ws s') as [|c2 s2]; [discriminate|].
      destruct (c2 =? ch "}"); [exact (fun H => H)|].
      destruct (c2 =? quote); [|discriminate]. apply IHo. }
    destruct (c =? ch "[").
    { destruct (skip_ws s') as [|c2 s2]; [discriminate|].
      destruct (c2 =? ch "]"); [exact (fun H => H)|]. apply IHa. }
    exact (fun H => H).
  - intros s acc v r. rewrite !array_items_S.
    destruct (scan fuel s) as [value s1| |] eqn:Hscan; try discriminate.
    rewrite (IHs _ _ _ Hscan). cbn [scan_bind].
    destruct (skip_ws s1) as [|c s2]; [discriminate|].
    destruct (c =? ch "]"); [exact (fun H => H)|].
    destruct (c =? ch ","); [|discriminate]. apply IHa.
  - intros s pairs v r. rewrite !object_items_S.
    destruct (scanstring s) as [[key s1]|]; [|discriminate].
    destruct (skip_ws s1) as [|c s2]; [discriminate|].
    destruct (c =? ch ":"); [|discriminate].
    destruct (scan fuel (skip_ws s2)) as [value s3| |] eqn:Hscan;
      try discriminate.
    rewrite (IHs _ _ _ Hscan). cbn [scan_bind].
    destruct (skip_ws s3) as [|c' s4]; [discriminate|].
    destruct (c' =? ch "}"); [exact (fun H => H)|].
    destruct (c' =? ch ","); [|discriminate].
    destruct (skip_ws s4) as [|q s5]; [discriminate|].
    destruct (q =? quote); [|discriminate]. apply IHo.
Qed.

Lemma decode_blank (pre s post : str) (v : json) :
  Forall (fun c => is_ws c = true) pre ->
  Forall (fun c => is_ws c = true) post ->
  decode float_of_literal s = Ok v ->
  decode float_of_literal (pre ++ s ++ post) = Ok v.
Proof.
  intros Hpre Hpost. unfold decode.
  destruct (scan (2 * length s + 1) (skip_ws s)) as [obj rest| |] eqn:Hscan;
    try discriminate.
  destruct (skip_ws rest) as [|c r] eqn:Hrest; [|discriminate].
  intros [= <-].
  rewrite (skip_ws_blank_app pre _ Hpre).
  destruct (skip_ws s) as [|c x] eqn:Hsk.
  { destruct (scan_once_nil _ _ _ _ Hscan). }
  rewrite (skip_ws_suffix _ post _ _ Hsk).
  destruct (scan_suffix float_of_literal post Hpost (2 * length s + 1))
    as (Hsuffix & _).
  apply Hsuffix in Hscan.
  destruct (scan_fuel (2 * length s + 1)
              (2 * length (pre ++ s ++ post) + 1)) as (Hfuel & _).
  { rewrite !length_app. lia. }
  change (c :: x ++ post) with ((c :: x) ++ post).
  rewrite (Hfuel _ _ _ Hscan).
  rewrite (skip_ws_nil_suffix _ post Hrest), (skip_ws_blank post Hpost).
  reflexivity.
Qed.

Lemma loads_blank (pre s post : str) (v : json) :
  Forall (fun c => is_ws c = true) pre ->
  Forall (fun c => is_ws c = true) post ->
  loads float_of_literal s = Ok v ->
  loads float_of_literal (pre ++ s ++ post) = Ok v.
Proof.
  intros Hpre Hpost Hloads.
  assert (decode float_of_literal s = Ok v) as Hdecode.
  { unfold loads in Hloads. destruct s as [|c s']; [exact Hloads|].
    destruct (c =? 65279); [discriminate|exact Hloads]. }
  pose proof (decode_blank pre s post v Hpre Hpost Hdecode) as H.
  unfold loads.
  destruct (pre ++ s ++ post) as [|c x] eqn:E; [exact H|].
  destruct (c =? 65279) eqn:Ec; [|exact H].
  exfalso. apply N.eqb_eq in Ec. subst c.
  destruct Hpre as [|c pre Hc _].
  - destruct s as [|c s'].
    + unfold decode in Hdecode. discriminate Hdecode.
    + injection E as -> _. unfold loads in Hloads.
      change (65279 =? 65279) with true in Hloads. discriminate Hloads.
  - injection E as -> _. discriminate Hc.
Qed.
End Blank.

Lemma utf8_encode_app (s u : str) (a b : list N) :
  utf8_encode s = Some a -> utf8_encode u = Some b ->
  utf8_encode (s ++ u) = Some (a ++ b).
Proof.
  revert a. induction s as [|c s IH]; intros a; cbn [utf8_encode app].
  - intros [= <-] Hu. exact Hu.
  - destruct (utf8_encode_char c) as [x|]; [|discriminate].
    destruct (utf8_encode s) as [a'|]; [|discriminate].
    intros [= <-] Hu. rewrite (IH a' eq_refl Hu), <- app_assoc. reflexivity.
Qed.

Lemma utf8_decode_app (a b : list N) (s u : str) :
  utf8_decode a = Some s -> utf8_decode b = Some u ->
  utf8_decode (a ++ b) = Some (s ++ u).
Proof.
  intros Ha Hb. apply utf8_encode_decode, utf8_encode_app;
    apply utf8_decode_encode; assumption.
Qed.

Lemma utf8_decode_blank (t : list N) :
  Forall (fun c => is_ws c = true) t -> utf8_decode t = Some t.
Proof.
  induction 1 as [|c t Hc _ IH]; [reflexivity|].
  cbn [utf8_decode]. test (c <? 128). rewrite IH. reflexivity.
Qed.

Lemma universal_newlines_blank (t : str) :
  Forall (fun c => is_ws c = true) t ->
  Forall (fun c => is_ws c = true) (universal_newlines t).
Proof.
  pattern t. apply length_induction. clear t. intros t IH Ht.
  destruct t as [|c rest]; [constructor|].
  apply List.Forall_cons_iff in Ht as [Hc Hrest]. cbn [universal_newlines].
  destruct (c =? 13).
  - constructor; [reflexivity|].
    destruct rest as [|c' rest']; [constructor|].
    destruct (c' =? 10).
    + apply List.Forall_cons_iff in Hrest as [_ Hrest'].
      apply IH; [simpl; lia|exact Hrest'].
    + apply IH; [simpl; lia|exact Hrest].
  - constructor; [exact Hc|]. apply IH; [simpl; lia|exact Hrest].
Qed.

(** Newline translation turns white space before a text into white
    space before the translated text. *)
Lemma universal_newlines_blank_app (pre s : str) :
  Forall (fun c => is_ws c = true) pre ->
  exists pre',
    Forall (fun c => is_ws c = true) pre' /\
    universal_newlines (pre ++ s) = pre' ++ universal_newlines s.
Proof.
  pattern pre. apply length_induction. clear pre. intros pre IH Hpre.
  destruct pre as [|c p]; [exists []; split; [constructor|reflexivity]|].
  apply List.Forall_cons_iff in Hpre as [Hc Hp].
  cbn [app universal_newlines]. destruct (c =? 13) eqn:Ec.
  - destruct p as [|c' p'].
    + cbn [app]. destruct s as [|c' rest'].
      * exists [10]. split; [repeat constructor|reflexivity].
      * destruct (c' =? 10) eqn:Ec'.
        -- apply N.eqb_eq in Ec'. subst c'. exists [].
           split; [constructor|reflexivity].
        -- exists [10]. split; [repeat constructor|reflexivity].
    + apply List.Forall_cons_iff in Hp as [Hc' Hp']. cbn [app].
      destruct (c' =? 10).
      * destruct (IH p' ltac:(simpl; lia) Hp') as (pre' & Hpre' & ->).
        exists (10 :: pre'). split; [constructor; [reflexivity|exact Hpre']|].
        reflexivity.
      * destruct (IH (c' :: p') ltac:(simpl; lia)
                    ltac:(constructor; assumption)) as (pre' & Hpre' & E).
        cbn [app] in E. rewrite E.
        exists (10 :: pre'). split; [constructor; [reflexivity|exact Hpre']|].
        reflexivity.
  - destruct (IH p ltac:(simpl; lia) Hp) as (pre' & Hpre' & ->).
    exists (c :: pre'). split; [constructor; assumption|reflexivity].
Qed.

(** And white space after a text into white space after the translated
    text. *)
Lemma universal_newlines_app_blank (s post : str) :
  Forall (fun c => is_ws c = true) post ->
  exists post',
    Forall (fun c => is_ws c = true) post' /\
    universal_newlines (s ++ post) = universal_newlines s ++ post'.
Proof.
  intros Hpost. pattern s. apply length_induction. clear s. intros s IH.
  destruct s as [|c rest].
  { exists (universal_newlines post).
    split; [apply universal_newlines_blank, Hpost|reflexivity]. }
  cbn [app universal_newlines]. destruct (c =? 13).
  - destruct rest as [|c' rest'].
    + cbn [app]. eexists. split; [|reflexivity].
      destruct Hpost as [|c' post' Hc' Hpost']; [constructor|].
      destruct (c' =? 10).
      * apply universal_newlines_blank, Hpost'.
      * apply universal_newlines_blank. constructor; assumption.
    + cbn [app]. destruct (c' =? 10).
      * destruct (IH rest' ltac:(simpl; lia)) as (post' & Hpost' & ->).
        exists post'. split; [exact Hpost'|reflexivity].
      * destruct (IH (c' :: rest') ltac:(simpl; lia)) as (post' & Hpost' & E).
        cbn [app] in E. rewrite E.
        exists post'. split; [exact Hpost'|reflexivity].
  - destruct (IH rest ltac:(simpl; lia)) as (post' & Hpost' & ->).
    exists post'. split; [exact Hpost'|reflexivity].
Qed.

Section BlankFile.
Context {finite : Type}.
Variable float_of_literal : str -> pyfloat finite.
#[local] Abbreviation json := (json finite).

(** X18: white space (spaces, tabs, line feeds, carriage returns) before
    and after the document, such as the line feed that ends most text
    files, changes nothing to what [json.load] returns for a file it
    accepts. *)
Theorem white_space_around (pre f post : list N) (data : json) :
  Forall (fun b => is_ws b = true) pre ->
  Forall (fun b => is_ws b = true) post ->
  json_load float_of_literal f = Ok data ->
  json_load float_of_literal (pre ++ f ++ post) = Ok data.
Proof.
  intros Hpre Hpost. unfold json_load, read.
  destruct (utf8_decode f) as [s|] eqn:Hs; [|discriminate].
  rewrite (utf8_decode_app pre (f ++ post) pre (s ++ post)
             (utf8_decode_blank pre Hpre)
             (utf8_decode_app f post s post Hs (utf8_decode_blank post Hpost))).
  cbn [bind].
  destruct (universal_newlines_blank_app pre (s ++ post) Hpre)
    as (pre' & Hpre' & ->).
  destruct (universal_newlines_app_blank s post Hpost)
    as (post' & Hpost' & ->).
  apply loads_blank; assumption.
Qed.
End BlankFile.

Lemma white_space_around_witness :
  json_load Literal.float_of_literal
    ([32; 10] ++ Examples.elm_ave_txt ++ [13; 10])
  = Ok (JList [Examples.elm_ave]).
Proof.
  apply (white_space_around Literal.float_of_literal [32; 10]
           Examples.elm_ave_txt [13; 10]).
  - repeat constructor.
  - repeat constructor.
  - vm_compute. reflexivity.
Defined.
